(** * RoomsSDKAdapter: subscription multiplexing and lifecycle

    A shallow embedding of [RoomsSDKAdapter] (the rooms adapter built on the
    Webex JS SDK and RxJS) together with the properties of its
    listener gate, its per-room multicast cache and its activity cache.

    The adapter is a JavaScript class whose methods mutate three fields
    ([getRoomObservables], [getRoomActivitiesCache], [listenerCount]) and
    build RxJS pipelines.  The embedding threads one explicit [State] through
    every method.  Besides the three fields, the state holds the objects the
    methods allocate (observables, subjects, promises), the handlers
    registered on the data source, and a [trace] of the calls made to the
    data source and of the notifications delivered to observers.

    Everything runs on the JavaScript event loop: a method body, a promise
    reaction and an event handler each run to completion.  Each of them is one
    [Action] of the transition function [step]. *)

From Stdlib Require Import ZArith String List Lia.
From stdpp Require Import base tactics option list gmap strings.

#[local] Set Warnings "-clear-no-such-hyp".

Local Open Scope string_scope.
Local Open Scope list_scope.
Local Open Scope nat_scope.

(** ** Values exchanged with the SDK *)

(** The object [datasource.rooms.get] resolves with. *)
Record SDKRoom := mkSDKRoom {
  sdk_id : string;
  sdk_title : string;
  sdk_type : string
}.

(** The object [fetchRoom] returns: [{ID: id, title, type}]. *)
Record Room := mkRoom {
  room_ID : string;
  room_title : string;
  room_type : string
}.

(** How the promise of [datasource.rooms.get] settles.  [SdkResolved None]
    is a promise resolved with [undefined]. *)
Inductive SDKOutcome :=
| SdkResolved (v : option SDKRoom)
| SdkRejected (err : string).

(** How the promise of [fetchRoom] settles. *)
Inductive Settled :=
| Fulfilled (r : Room)
| Rejected (err : string).

(** [fetchRoom] after its [await]: destructure the SDK room and rename [id].
    Destructuring [undefined] throws, which rejects the async function. *)
Definition fetchRoom_result (o : SDKOutcome) : Settled :=
  match o with
  | SdkResolved (Some r) =>
      Fulfilled {| room_ID := sdk_id r; room_title := sdk_title r; room_type := sdk_type r |}
  | SdkResolved None => Rejected "TypeError"
  | SdkRejected err => Rejected err
  end.

(** A room object travelling through [getRoom$], tagged with the branch of
    [concat] that produced it: [room$] (the initial fetch) or [roomUpdate$]
    (a re-fetch after an update event).  The tag is bookkeeping of the
    model; the code does not store it. *)
Inductive Origin := Initial | Update.

Record Snapshot := mkSnapshot {
  origin : Origin;
  room : Room
}.

Inductive Notification :=
| Next (v : Snapshot)
| Error (err : string).

(** Payload of the [updated] event of [datasource.rooms]: [event.data] may be
    missing, and so may [event.data.id]. *)
Record UpdateEvent := mkUpdateEvent {
  data : option (option string)
}.

(** Payload of [event:conversation.activity]. *)
Record SDKObject := mkSDKObject {
  objectType : option string;
  displayName : option string
}.

Record SDKActivity := mkSDKActivity {
  act_id : option string;
  act_target : option (option string);   (* target, then target.id *)
  act_object : option SDKObject;
  act_actor : option (option string);    (* actor, then actor.id *)
  act_published : option string
}.

(** The activity object built by the handler of [getRoomActivities]. *)
Record Activity := mkActivity {
  activity_ID : option string;
  roomID : option string;
  content : SDKObject;
  contentType : option string;
  personID : option string;
  displayAuthor : bool;
  created : option string
}.

(** Value held by the [BehaviorSubject]: the initial [{}] or an activity. *)
Inductive ActivityValue :=
| EmptyObject
| ActivityObject (a : Activity).

(** ** RxJS objects

    The operators of the pipeline are modelled by what RxJS 6 does:
    - [from(promise)] registers a reaction when it is subscribed; the
      reaction emits the value and completes, or errors; it does nothing for
      a subscriber that was closed in the meantime;
    - [concat] subscribes its second source when the first completes;
    - [fromEvent] registers a handler when subscribed and removes it when
      unsubscribed;
    - [filter] sends an exception of its predicate down as an error;
    - [flatMap] subscribes to one inner observable per value and forwards an
      inner error;
    - [finalize] runs its callback when the subscription to the source ends,
      by unsubscription or by an error;
    - [publishReplay(1)] creates one [ReplaySubject] when [getRoom] builds the
      pipeline and uses it for every connection;
    - [refCount] connects the source at the first subscription and
      disconnects it when the last one leaves.
    Observers are passive: being notified, they do not call the adapter. *)

(** Connection of the multicast observable to its source
    [concat(room$, roomUpdate$)]:
    - [Idle]: not connected (never subscribed, or torn down);
    - [AwaitingRoom]: subscribed to [room$], waiting for the promise;
    - [Listening inners]: [room$] completed, subscribed to [roomUpdate$];
      [inners] are the promises of the re-fetches in flight in [flatMap]. *)
Inductive Phase :=
| Idle
| AwaitingRoom
| Listening (inners : list nat).

(** One value of [getRoomObservables]: the pipeline
    [concat(room$, roomUpdate$).pipe(tap, finalize).pipe(publishReplay(1), refCount())]
    with the [ReplaySubject] that [publishReplay] creates once. *)
Record Stream := mkStream {
  stream_ID : string;           (* the [ID] captured by the closures *)
  room_promise : nat;           (* [this.fetchRoom(ID)] wrapped by [room$] *)
  replay : option Snapshot;     (* buffer of the [ReplaySubject(1)] *)
  thrown : option string;       (* the subject's [hasError]/[thrownError] *)
  observers : list nat;         (* subscriptions held by the subject *)
  phase : Phase
}.

(** One value of [getRoomActivitiesCache]: a [BehaviorSubject]. *)
Record Channel := mkChannel {
  channel_ID : string;
  current : ActivityValue;
  channel_observers : list nat
}.

(** ** Trace *)

Inductive Event :=
| CallRoomsGet (ID : string)             (* [datasource.rooms.get(ID)] *)
| CallRoomsListen                        (* [datasource.rooms.listen()] *)
| CallRoomsStopListening                 (* [datasource.rooms.stopListening()] *)
| CallMercuryOn (c : nat)                (* [mercury.on('event:conversation.activity', ...)] *)
| GateAcquire                            (* [startListeningToRoomUpdates] entered *)
| GateRelease                            (* [stopListeningToRoomUpdates] entered *)
| Emitted (h : nat) (v : Snapshot)       (* the [tap] of [getRoom$] saw [v] *)
| Notified (h o : nat) (n : Notification)       (* subscription [o] of stream [h] *)
| ActivityNotified (c o : nat) (v : ActivityValue)
| Uncaught (err : string).               (* exception leaving an event handler *)

(** ** State *)

Record State := mkState {
  getRoomObservables : gmap string nat;     (* own properties: ID -> stream *)
  getRoomActivitiesCache : gmap string nat; (* own properties: ID -> channel *)
  listenerCount : Z;
  streams : list Stream;                    (* observables made by [getRoom] *)
  channels : list Channel;                  (* subjects made by [getRoomActivities] *)
  promises : list (option Settled);         (* [None]: pending *)
  updated_listeners : list nat;             (* streams with a handler on [updated] *)
  activity_listeners : list nat;            (* channels with a handler on mercury *)
  next_subscription : nat;
  trace : list Event                        (* newest first *)
}.

Definition initial_state : State :=
  {| getRoomObservables := ∅;
     getRoomActivitiesCache := ∅;
     listenerCount := 0;
     streams := [];
     channels := [];
     promises := [];
     updated_listeners := [];
     activity_listeners := [];
     next_subscription := 0;
     trace := [] |}.

Definition set_getRoomObservables (f : gmap string nat → gmap string nat) (st : State) : State :=
  mkState (f (getRoomObservables st)) (getRoomActivitiesCache st) (listenerCount st)
    (streams st) (channels st) (promises st) (updated_listeners st)
    (activity_listeners st) (next_subscription st) (trace st).

Definition set_getRoomActivitiesCache (f : gmap string nat → gmap string nat) (st : State) : State :=
  mkState (getRoomObservables st) (f (getRoomActivitiesCache st)) (listenerCount st)
    (streams st) (channels st) (promises st) (updated_listeners st)
    (activity_listeners st) (next_subscription st) (trace st).

Definition set_listenerCount (f : Z → Z) (st : State) : State :=
  mkState (getRoomObservables st) (getRoomActivitiesCache st) (f (listenerCount st))
    (streams st) (channels st) (promises st) (updated_listeners st)
    (activity_listeners st) (next_subscription st) (trace st).

Definition set_streams (f : list Stream → list Stream) (st : State) : State :=
  mkState (getRoomObservables st) (getRoomActivitiesCache st) (listenerCount st)
    (f (streams st)) (channels st) (promises st) (updated_listeners st)
    (activity_listeners st) (next_subscription st) (trace st).

Definition set_channels (f : list Channel → list Channel) (st : State) : State :=
  mkState (getRoomObservables st) (getRoomActivitiesCache st) (listenerCount st)
    (streams st) (f (channels st)) (promises st) (updated_listeners st)
    (activity_listeners st) (next_subscription st) (trace st).

Definition set_promises (f : list (option Settled) → list (option Settled)) (st : State) : State :=
  mkState (getRoomObservables st) (getRoomActivitiesCache st) (listenerCount st)
    (streams st) (channels st) (f (promises st)) (updated_listeners st)
    (activity_listeners st) (next_subscription st) (trace st).

Definition set_updated_listeners (f : list nat → list nat) (st : State) : State :=
  mkState (getRoomObservables st) (getRoomActivitiesCache st) (listenerCount st)
    (streams st) (channels st) (promises st) (f (updated_listeners st))
    (activity_listeners st) (next_subscription st) (trace st).

Definition set_activity_listeners (f : list nat → list nat) (st : State) : State :=
  mkState (getRoomObservables st) (getRoomActivitiesCache st) (listenerCount st)
    (streams st) (channels st) (promises st) (updated_listeners st)
    (f (activity_listeners st)) (next_subscription st) (trace st).

Definition set_next_subscription (f : nat → nat) (st : State) : State :=
  mkState (getRoomObservables st) (getRoomActivitiesCache st) (listenerCount st)
    (streams st) (channels st) (promises st) (updated_listeners st)
    (activity_listeners st) (f (next_subscription st)) (trace st).

Definition set_trace (f : list Event → list Event) (st : State) : State :=
  mkState (getRoomObservables st) (getRoomActivitiesCache st) (listenerCount st)
    (streams st) (channels st) (promises st) (updated_listeners st)
    (activity_listeners st) (next_subscription st) (f (trace st)).

Definition log (e : Event) : State → State := set_trace (cons e).

(** Deliver [n] to the subscriptions [os] of stream [h], in subscription
    order. *)
Definition notify_all (h : nat) (os : list nat) (n : Notification) : State → State :=
  set_trace (app (rev (map (λ o, Notified h o n) os))).

Definition set_phase (ph : Phase) (s : Stream) : Stream :=
  mkStream (stream_ID s) (room_promise s) (replay s) (thrown s) (observers s) ph.

Definition set_observers (os : list nat) (s : Stream) : Stream :=
  mkStream (stream_ID s) (room_promise s) (replay s) (thrown s) os (phase s).

Definition set_replay (v : Snapshot) (s : Stream) : Stream :=
  mkStream (stream_ID s) (room_promise s) (Some v) (thrown s) (observers s) (phase s).

Definition set_thrown (err : string) (s : Stream) : Stream :=
  mkStream (stream_ID s) (room_promise s) (replay s) (Some err) (observers s) (phase s).

Definition update_stream (h : nat) (f : Stream → Stream) : State → State :=
  set_streams (alter f h).

(** ** JavaScript objects used as maps

    [getRoomObservables] and [getRoomActivitiesCache] are created as [{}], so
    they inherit from [Object.prototype], and [ID in obj] also answers [true]
    for the inherited names. *)
Definition object_prototype_keys : list string :=
  [ "constructor"; "__defineGetter__"; "__defineSetter__"; "hasOwnProperty";
    "__lookupGetter__"; "__lookupSetter__"; "isPrototypeOf";
    "propertyIsEnumerable"; "toString"; "valueOf"; "__proto__";
    "toLocaleString" ].

Definition js_in (k : string) (own : gmap string nat) : bool :=
  bool_decide (is_Some (own !! k)) || bool_decide (k ∈ object_prototype_keys).

(** What [obj[ID]] evaluates to: an observable created by the adapter, a
    member inherited from [Object.prototype], or [undefined]. *)
Inductive JSValue :=
| VObservable (h : nat)
| VInherited (k : string)
| VUndefined.

Definition js_get (k : string) (own : gmap string nat) : JSValue :=
  match own !! k with
  | Some h => VObservable h
  | None => if bool_decide (k ∈ object_prototype_keys) then VInherited k else VUndefined
  end.

(** ** The listener gate *)

(** [startListeningToRoomUpdates]. *)
Definition startListeningToRoomUpdates (st : State) : State :=
  let st := log GateAcquire st in
  let st := if bool_decide (listenerCount st = 0%Z) then log CallRoomsListen st else st in
  set_listenerCount (λ n, n + 1)%Z st.

(** [stopListeningToRoomUpdates]. *)
Definition stopListeningToRoomUpdates (st : State) : State :=
  let st := log GateRelease st in
  let st := set_listenerCount (λ n, n - 1)%Z st in
  if bool_decide (listenerCount st ≤ 0)%Z then log CallRoomsStopListening st else st.

Inductive GateCall := Acquire | Release.

#[global] Instance GateCall_eq_dec : EqDecision GateCall.
Proof. solve_decision. Defined.

Definition gate_call (st : State) (c : GateCall) : State :=
  match c with
  | Acquire => startListeningToRoomUpdates st
  | Release => stopListeningToRoomUpdates st
  end.

Definition gate_run (cs : list GateCall) (st : State) : State :=
  foldl gate_call st cs.

(** ** Room streams *)

(** The synchronous part of [fetchRoom(ID)]: call [datasource.rooms.get(ID)]
    and return a pending promise. *)
Definition fetchRoom (ID : string) (st : State) : nat * State :=
  let st := log (CallRoomsGet ID) st in
  (length (promises st), set_promises (λ ps, ps ++ [None]) st).

Definition new_stream (ID : string) (p : nat) : Stream :=
  {| stream_ID := ID; room_promise := p; replay := None; thrown := None;
     observers := []; phase := Idle |}.

(** [getRoom(ID)]. *)
Definition getRoom (ID : string) (st : State) : JSValue * State :=
  let st :=
    if js_in ID (getRoomObservables st) then st
    else
      let st := startListeningToRoomUpdates st in
      let '(p, st) := fetchRoom ID st in
      let h := length (streams st) in
      let st := set_streams (λ ss, ss ++ [new_stream ID p]) st in
      set_getRoomObservables (insert ID h) st
  in
  (js_get ID (getRoomObservables st), st).

(** The callback given to [finalize]. *)
Definition finalize (ID : string) (st : State) : State :=
  let st := stopListeningToRoomUpdates st in
  set_getRoomObservables (delete ID) st.

(** Unsubscribing the connection of stream [h] from its source: the
    [finalize] callback runs, the handler that [fromEvent] put on [updated]
    is removed, the subscriptions to pending promises are closed. *)
Definition teardown (h : nat) (s : Stream) (st : State) : State :=
  let st := finalize (stream_ID s) st in
  let st := set_updated_listeners (filter (λ h', h' ≠ h)) st in
  update_stream h (set_phase Idle) st.

(** A value reaches the end of [getRoom$]: [tap] logs it, the
    [ReplaySubject] buffers it and hands it to every subscription. *)
Definition emit (h : nat) (s : Stream) (v : Snapshot) (st : State) : State :=
  let st := log (Emitted h v) st in
  let st := update_stream h (set_replay v) st in
  notify_all h (observers s) (Next v) st.

(** An error reaches the end of [getRoom$]: the connection is torn down,
    then the subject errors, notifies its subscriptions and drops them. *)
Definition fail (h : nat) (s : Stream) (err : string) (st : State) : State :=
  let st := teardown h s st in
  let st := update_stream h (λ s, set_observers [] (set_thrown err s)) st in
  notify_all h (observers s) (Error err) st.

(** [getRoom(ID).subscribe(...)] on the observable [h].  The new
    subscription first gets what the subject replays; a stopped subject
    also replays its error and nothing is connected.  Otherwise [refCount]
    connects the source when it is not connected. *)
Definition subscribe (h : nat) (st : State) : State :=
  match streams st !! h with
  | None => st
  | Some s =>
      let o := next_subscription st in
      let st := set_next_subscription S st in
      let st := match replay s with
                | Some v => log (Notified h o (Next v)) st
                | None => st
                end in
      match thrown s with
      | Some err => log (Notified h o (Error err)) st
      | None =>
          let ph := match phase s with Idle => AwaitingRoom | ph => ph end in
          update_stream h (λ s, set_phase ph (set_observers (observers s ++ [o]) s)) st
      end
  end.

(** [subscription.unsubscribe()]: the subject drops the subscription, and
    when it was the last one [refCount] unsubscribes the connection, if there
    is one. *)
Definition unsubscribe (h o : nat) (st : State) : State :=
  match streams st !! h with
  | None => st
  | Some s =>
      if bool_decide (o ∈ observers s) then
        let os := filter (λ o', o' ≠ o) (observers s) in
        let st := update_stream h (set_observers os) st in
        match os, phase s with
        | [], Idle => st
        | [], _ => teardown h s st
        | _ :: _, _ => st
        end
      else st
  end.

(** The SDK settles the promise behind [fetchRoom] number [p]. *)
Definition settle (p : nat) (o : SDKOutcome) (st : State) : State :=
  match promises st !! p with
  | Some None => set_promises (<[p := Some (fetchRoom_result o)]>) st
  | _ => st
  end.

(** The reaction that [from(promise)] registered for the connection of
    stream [h] on promise [p] runs.  For [room$] a value is emitted and
    [concat] moves on to [roomUpdate$], whose [fromEvent] registers a
    handler on [updated].  For a re-fetch of [flatMap] the value is emitted.
    A rejection errors the stream. *)
Definition deliver (h p : nat) (st : State) : State :=
  match streams st !! h, promises st !! p with
  | Some s, Some (Some r) =>
      match phase s with
      | Idle => st
      | AwaitingRoom =>
          if bool_decide (p = room_promise s) then
            match r with
            | Fulfilled rm =>
                let st := emit h s (mkSnapshot Initial rm) st in
                let st := set_updated_listeners (λ l, l ++ [h]) st in
                update_stream h (set_phase (Listening [])) st
            | Rejected err => fail h s err st
            end
          else st
      | Listening inners =>
          if bool_decide (p ∈ inners) then
            match r with
            | Fulfilled rm =>
                let st := update_stream h (set_phase (Listening (filter (λ q, q ≠ p) inners))) st in
                emit h s (mkSnapshot Update rm) st
            | Rejected err => fail h s err st
            end
          else st
      end
  | _, _ => st
  end.

(** The handler of stream [h] on [updated]: [filter] then [flatMap].
    Reading [event.data.id] throws when [event.data] is missing; RxJS
    catches the exception of the predicate and sends it down as an error. *)
Definition on_updated (ev : UpdateEvent) (st : State) (h : nat) : State :=
  match streams st !! h with
  | None => st
  | Some s =>
      match phase s with
      | Listening inners =>
          match data ev with
          | None => fail h s "TypeError" st
          | Some i =>
              if bool_decide (i = Some (stream_ID s)) then
                let '(p, st) := fetchRoom (stream_ID s) st in
                update_stream h (set_phase (Listening (inners ++ [p]))) st
              else st
          end
      | _ => st
      end
  end.

(** [datasource.rooms] fires [updated]: the handlers registered at that
    moment run in registration order. *)
Definition trigger_updated (ev : UpdateEvent) (st : State) : State :=
  foldl (on_updated ev) st (updated_listeners st).

(** ** Activity channels *)

Definition new_channel (ID : string) : Channel :=
  {| channel_ID := ID; current := EmptyObject; channel_observers := [] |}.

(** [getRoomActivities(ID)]. *)
Definition getRoomActivities (ID : string) (st : State) : JSValue * State :=
  let st :=
    if js_in ID (getRoomActivitiesCache st) then st
    else
      let c := length (channels st) in
      let st := set_channels (λ cs, cs ++ [new_channel ID]) st in
      let st := log (CallMercuryOn c) st in
      let st := set_activity_listeners (λ l, l ++ [c]) st in
      set_getRoomActivitiesCache (insert ID c) st
  in
  (js_get ID (getRoomActivitiesCache st), st).

(** Subscribing to a [BehaviorSubject] hands over its current value. *)
Definition subscribe_activities (c : nat) (st : State) : State :=
  match channels st !! c with
  | None => st
  | Some ch =>
      let o := next_subscription st in
      let st := set_next_subscription S st in
      let st := log (ActivityNotified c o (current ch)) st in
      set_channels (alter (λ ch, mkChannel (channel_ID ch) (current ch) (channel_observers ch ++ [o])) c) st
  end.

Definition unsubscribe_activities (c o : nat) (st : State) : State :=
  set_channels (alter (λ ch, mkChannel (channel_ID ch) (current ch)
                               (filter (λ o', o' ≠ o) (channel_observers ch))) c) st.

(** [getRoomActivities$.next(activity)]. *)
Definition next_activity (c : nat) (ch : Channel) (a : Activity) (st : State) : State :=
  let st := set_channels (alter (λ ch, mkChannel (channel_ID ch) (ActivityObject a) (channel_observers ch)) c) st in
  set_trace (app (rev (map (λ o, ActivityNotified c o (ActivityObject a)) (channel_observers ch)))) st.

(** Result of running an event handler: it returns, or an exception leaves
    it. *)
Inductive Completion :=
| Returned (st : State)
| Threw (err : string) (st : State).

Section Adapter.

(** [deconstructHydraId] of [@webex/common], composed with the projection
    [.id] of its result. *)
Variable deconstructHydraId : string → string.

(** The handler that [getRoomActivities(ID)] registers for its channel [c].
    [sdkActivity.object.objectType] and [sdkActivity.actor.id] throw when
    [object] or [actor] is missing. *)
Definition on_activity (sdkActivity : SDKActivity) (c : nat) (st : State) : Completion :=
  match channels st !! c with
  | None => Returned st
  | Some ch =>
      let UUID := deconstructHydraId (channel_ID ch) in
      match act_target sdkActivity with
      | Some target_id =>
          if bool_decide (target_id = Some UUID) then
            match act_object sdkActivity, act_actor sdkActivity with
            | Some obj, Some actor_id =>
                let activity :=
                  {| activity_ID := act_id sdkActivity;
                     roomID := target_id;
                     content := obj;
                     contentType := objectType obj;
                     personID := actor_id;
                     displayAuthor := false;
                     created := act_published sdkActivity |} in
                Returned (next_activity c ch activity st)
            | _, _ => Threw "TypeError" st
            end
          else Returned st
      | None => Returned st
      end
  end.

(** Mercury fires [event:conversation.activity]: the handlers run in
    registration order; an exception leaves the loop. *)
Fixpoint dispatch_activity (sdkActivity : SDKActivity) (cs : list nat) (st : State) : Completion :=
  match cs with
  | [] => Returned st
  | c :: cs' =>
      match on_activity sdkActivity c st with
      | Returned st' => dispatch_activity sdkActivity cs' st'
      | Threw err st' => Threw err st'
      end
  end.

Definition trigger_activity (sdkActivity : SDKActivity) (st : State) : Completion :=
  dispatch_activity sdkActivity (activity_listeners st) st.

(** ** The event loop *)

Inductive Action :=
| GetRoom (ID : string)
| Subscribe (h : nat)
| Unsubscribe (h o : nat)
| Settle (p : nat) (o : SDKOutcome)
| Deliver (h p : nat)
| RoomUpdated (ev : UpdateEvent)
| GetRoomActivities (ID : string)
| SubscribeActivities (c : nat)
| UnsubscribeActivities (c o : nat)
| MercuryActivity (a : SDKActivity).

Definition step (st : State) (a : Action) : State :=
  match a with
  | GetRoom ID => snd (getRoom ID st)
  | Subscribe h => subscribe h st
  | Unsubscribe h o => unsubscribe h o st
  | Settle p o => settle p o st
  | Deliver h p => deliver h p st
  | RoomUpdated ev => trigger_updated ev st
  | GetRoomActivities ID => snd (getRoomActivities ID st)
  | SubscribeActivities c => subscribe_activities c st
  | UnsubscribeActivities c o => unsubscribe_activities c o st
  | MercuryActivity a =>
      match trigger_activity a st with
      | Returned st' => st'
      | Threw err st' => log (Uncaught err) st'
      end
  end.

Definition run (acts : list Action) (st : State) : State := foldl step st acts.

Definition reachable (st : State) : Prop := ∃ acts, st = run acts initial_state.

End Adapter.

(** * Specification predicates *)

(** ** The listener gate *)

(** Whether a trace (newest first) ends with [rooms.listen()] not yet followed
    by [rooms.stopListening()]. *)
Fixpoint listening_now (tr : list Event) : bool :=
  match tr with
  | [] => false
  | CallRoomsListen :: _ => true
  | CallRoomsStopListening :: _ => false
  | _ :: tr' => listening_now tr'
  end.

(** Every [rooms.listen()] of the trace was issued while not listening. *)
Fixpoint listen_separated (tr : list Event) : bool :=
  match tr with
  | [] => true
  | CallRoomsListen :: tr' => negb (listening_now tr') && listen_separated tr'
  | _ :: tr' => listen_separated tr'
  end.

(** A sequence of gate calls in which no [Release] is issued at depth 0. *)
Fixpoint balanced_from (depth : nat) (cs : list GateCall) : bool :=
  match cs with
  | [] => true
  | Acquire :: cs' => balanced_from (S depth) cs'
  | Release :: cs' =>
      match depth with
      | O => false
      | S d => balanced_from d cs'
      end
  end.

Definition balanced (cs : list GateCall) : bool := balanced_from 0 cs.

Definition count_calls (c : GateCall) (cs : list GateCall) : nat :=
  length (filter (λ c', c' = c) cs).

(** What the gate maintains: listens are separated, and while the SDK is
    listening the counter is at least 1. *)
Definition gate_inv (st : State) : Prop :=
  listen_separated (trace st) = true ∧
  (listening_now (trace st) = true → (1 ≤ listenerCount st)%Z).

(** What [stopListeningToRoomUpdates] adds to the trace (newest first). *)
Definition release_events (st : State) : list Event :=
  (if bool_decide (listenerCount st - 1 ≤ 0)%Z then [CallRoomsStopListening] else [])
  ++ [GateRelease].

(** What [startListeningToRoomUpdates] adds to the trace (newest first). *)
Definition acquire_events (st : State) : list Event :=
  (if bool_decide (listenerCount st = 0)%Z then [CallRoomsListen] else [])
  ++ [GateAcquire].

(** ** Observers of a room *)

(** One observer doing [adapter.getRoom(ID).subscribe(...)].  Calling
    [.subscribe] on a value that is not an observable throws at the caller and
    changes nothing. *)
Definition getRoom_subscribe (ID : string) (st : State) : JSValue * State :=
  let '(v, st) := getRoom ID st in
  match v with
  | VObservable h => (v, subscribe h st)
  | _ => (v, st)
  end.

(** [n] observers doing so one after the other, nothing else happening in
    between (in particular no promise reaction runs). *)
Fixpoint subscribe_many (ID : string) (n : nat) (st : State) : list JSValue * State :=
  match n with
  | O => ([], st)
  | S n' =>
      let '(v, st1) := getRoom_subscribe ID st in
      let '(vs, st2) := subscribe_many ID n' st1 in
      (v :: vs, st2)
  end.

Definition is_fetch (e : Event) : bool :=
  match e with CallRoomsGet _ => true | _ => false end.

Definition is_acquire (e : Event) : bool :=
  match e with GateAcquire => true | _ => false end.

Definition is_release (e : Event) : bool :=
  match e with GateRelease => true | _ => false end.

Definition count_events (f : Event → bool) (tr : list Event) : nat :=
  length (List.filter f tr).

(** ** What an observer has received *)

Definition is_update (v : Snapshot) : bool :=
  match origin v with
  | Update => true
  | Initial => false
  end.

Definition received_snapshot (h o : nat) (e : Event) : option Snapshot :=
  match e with
  | Notified h' o' (Next v) => if bool_decide (h' = h ∧ o' = o) then Some v else None
  | _ => None
  end.

(** The snapshots received by subscription [o] of stream [h], newest first,
    and in the order of reception. *)
Definition received_rev (h o : nat) (tr : list Event) : list Snapshot :=
  omap (received_snapshot h o) tr.

Definition received (h o : nat) (tr : list Event) : list Snapshot :=
  rev (received_rev h o tr).

Arguments received_rev : simpl never.

(** Newest first: every snapshot but the oldest is update-derived. *)
Fixpoint tail_updates (lr : list Snapshot) : bool :=
  match lr with
  | [] => true
  | v :: lr' =>
      match lr' with
      | [] => true
      | _ :: _ => is_update v && tail_updates lr'
      end
  end.

(** In the order of reception: once an update-derived snapshot was received,
    no snapshot of the initial fetch follows. *)
Fixpoint initial_first (l : list Snapshot) : bool :=
  match l with
  | [] => true
  | v :: l' => if is_update v then forallb is_update l' else initial_first l'
  end.

Definition emitted_on (h : nat) (e : Event) : option Snapshot :=
  match e with
  | Emitted h' v => if bool_decide (h' = h) then Some v else None
  | _ => None
  end.

(** The snapshot that [getRoom$] of stream [h] produced last. *)
Definition last_emitted (h : nat) (tr : list Event) : option Snapshot :=
  head (omap (emitted_on h) tr).

Arguments last_emitted : simpl never.

Definition is_listening (ph : Phase) : bool :=
  match ph with
  | Listening _ => true
  | _ => false
  end.

(** ** Invariants of the reachable states *)

(** No stream is created for a name inherited from [Object.prototype]. *)
Definition ids_ok (st : State) : Prop :=
  ∀ h s, streams st !! h = Some s → stream_ID s ∉ object_prototype_keys.

Definition event_fresh (st : State) (e : Event) : Prop :=
  match e with
  | Emitted h _ => h < length (streams st)
  | Notified h o _ => h < length (streams st) ∧ o < next_subscription st
  | _ => True
  end.

(** The trace and the subjects only mention streams and subscriptions that
    exist, and a subject holds a subscription once. *)
Definition fresh_ok (st : State) : Prop :=
  Forall (event_fresh st) (trace st) ∧
  ∀ h s, streams st !! h = Some s →
         NoDup (observers s) ∧ Forall (λ o, o < next_subscription st) (observers s).

(** A handler on [updated] belongs to a stream subscribed to [roomUpdate$]. *)
Definition listeners_ok (st : State) : Prop :=
  ∀ h, h ∈ updated_listeners st →
       ∃ s, streams st !! h = Some s ∧ is_listening (phase s) = true.

(** A stream is connected exactly while its subject has subscriptions, and a
    stopped subject has none. *)
Definition connected_ok (st : State) : Prop :=
  ∀ h s, streams st !! h = Some s →
         (phase s = Idle ↔ observers s = []) ∧
         (is_Some (thrown s) → observers s = []).

(** The subject's buffer is the last snapshot the pipeline produced. *)
Definition replay_ok (st : State) : Prop :=
  ∀ h s, streams st !! h = Some s → replay s = last_emitted h (trace st).

(** A cache entry points to a stream of that ID whose subject is not stopped;
    until the stream is subscribed to [roomUpdate$] nothing was emitted on it;
    and each of its subscriptions received update-derived snapshots only,
    except possibly for the first one. *)
Definition cache_ok (st : State) : Prop :=
  ∀ K h, getRoomObservables st !! K = Some h →
    ∃ s, streams st !! h = Some s ∧
         stream_ID s = K ∧
         thrown s = None ∧
         (is_listening (phase s) = false →
          replay s = None ∧ ∀ o, received_rev h o (trace st) = []) ∧
         ∀ o, tail_updates (received_rev h o (trace st)) = true.

(** A cache entry of the activity side points to a channel of that ID, and
    no entry is made for a name inherited from [Object.prototype]. *)
Definition channels_ok (st : State) : Prop :=
  ∀ K c, getRoomActivitiesCache st !! K = Some c →
    (K ∉ object_prototype_keys) ∧
    ∃ ch, channels st !! c = Some ch ∧ channel_ID ch = K.

Record rooms_ok (st : State) : Prop := mkRoomsOk {
  ok_ids : ids_ok st;
  ok_fresh : fresh_ok st;
  ok_listeners : listeners_ok st;
  ok_connected : connected_ok st;
  ok_replay : replay_ok st;
  ok_cache : cache_ok st
}.

Record wf (st : State) : Prop := mkWf {
  wf_rooms : rooms_ok st;
  wf_channels : channels_ok st;
  wf_gate : gate_inv st
}.

(** ** Shapes of a transition, used to carry the invariants *)

(** Events that concern no room stream. *)
Definition quiet_event (e : Event) : Prop :=
  match e with
  | Emitted _ _ | Notified _ _ _ => False
  | _ => True
  end.

(** Events that concern no room stream but [h]. *)
Definition local_event (h : nat) (st : State) (e : Event) : Prop :=
  match e with
  | Emitted h' _ => h' = h
  | Notified h' o _ => h' = h ∧ o < next_subscription st
  | _ => True
  end.

(** Events other than the two calls the gate makes to the SDK. *)
Definition not_gate_event (e : Event) : Prop :=
  match e with
  | CallRoomsListen | CallRoomsStopListening => False
  | _ => True
  end.

(** A transition that leaves the room streams alone. *)
Definition neutral (st st' : State) : Prop :=
  streams st' = streams st ∧
  getRoomObservables st' = getRoomObservables st ∧
  updated_listeners st' = updated_listeners st ∧
  next_subscription st ≤ next_subscription st' ∧
  ∃ pre, trace st' = pre ++ trace st ∧ Forall quiet_event pre.

(** A transition that leaves the activity channels alone. *)
Definition channels_kept (st st' : State) : Prop :=
  channels st' = channels st ∧
  getRoomActivitiesCache st' = getRoomActivitiesCache st ∧
  activity_listeners st' = activity_listeners st.

(** What a transition does to the gate: nothing, one acquire, or one
    release; [pre] stands for the other events it adds. *)
Definition gate_step (st st' : State) : Prop :=
  ∃ pre, Forall not_gate_event pre ∧
    ((trace st' = pre ++ trace st ∧ listenerCount st' = listenerCount st) ∨
     (trace st' = pre ++ acquire_events st ++ trace st ∧
      listenerCount st' = (listenerCount st + 1)%Z) ∨
     (trace st' = pre ++ release_events st ++ trace st ∧
      listenerCount st' = (listenerCount st - 1)%Z)).

Definition completion_state (c : Completion) : State :=
  match c with
  | Returned st => st
  | Threw _ st => st
  end.

(** Events of the activity side. *)
Definition activity_event (e : Event) : Prop :=
  match e with
  | CallMercuryOn _ | ActivityNotified _ _ _ | Uncaught _ => True
  | _ => False
  end.

(** A transition of the activity side: it leaves the room streams and the
    gate alone. *)
Definition activity_step (st st' : State) : Prop :=
  streams st' = streams st ∧
  getRoomObservables st' = getRoomObservables st ∧
  updated_listeners st' = updated_listeners st ∧
  listenerCount st' = listenerCount st ∧
  promises st' = promises st ∧
  next_subscription st ≤ next_subscription st' ∧
  ∃ pre, trace st' = pre ++ trace st ∧ Forall activity_event pre.

(** Whether the connection of [s] has a reaction registered on promise [p]:
    the first fetch while [room$] is awaited, a re-fetch in flight later. *)
Definition awaits (s : Stream) (p : nat) : Prop :=
  match phase s with
  | Idle => False
  | AwaitingRoom => p = room_promise s
  | Listening inners => p ∈ inners
  end.

(** Events of the trace that are emissions or notifications of stream [h]. *)
Definition about_stream (h : nat) (e : Event) : Prop :=
  match e with
  | Emitted h' _ | Notified h' _ _ => h' = h
  | _ => False
  end.

(** Events of the trace that are notifications of channel [c]. *)
Definition about_channel (c : nat) (e : Event) : Prop :=
  match e with
  | ActivityNotified c' _ _ => c' = c
  | _ => False
  end.

(** ** Sample data *)

Definition standup : SDKRoom := mkSDKRoom "room-1" "Standup" "group".
Definition standup_renamed : SDKRoom := mkSDKRoom "room-1" "Standup (renamed)" "group".

(** ** Further predicates on actions and events *)

Definition is_listen (e : Event) : bool :=
  match e with CallRoomsListen => true | _ => false end.

Definition is_stop (e : Event) : bool :=
  match e with CallRoomsStopListening => true | _ => false end.

(** The actions during which the adapter calls [rooms.get]: [getRoom], and
    the [updated] event through the handlers of the streams. *)
Definition may_fetch (a : Action) : bool :=
  match a with
  | GetRoom _ | RoomUpdated _ => true
  | _ => false
  end.

(** The only action during which the adapter calls [rooms.listen]. *)
Definition is_getRoom (a : Action) : bool :=
  match a with
  | GetRoom _ => true
  | _ => false
  end.

(** The snapshot that the delivery of a fulfilled fetch emits on a stream in
    phase [ph]: the first fetch while [room$] is awaited, an update after. *)
Definition delivered_snapshot (ph : Phase) (rm : Room) : Snapshot :=
  match ph with
  | Listening _ => mkSnapshot Update rm
  | _ => mkSnapshot Initial rm
  end.

(** The phase of a stream after the delivery of the fulfilled promise [p]. *)
Definition phase_after_delivery (ph : Phase) (p : nat) : Phase :=
  match ph with
  | Listening inners => Listening (filter (λ q, q ≠ p) inners)
  | _ => Listening []
  end.

(** ** The listener count, the gate and the cache *)

(** Entries of [startListeningToRoomUpdates] minus entries of
    [stopListeningToRoomUpdates] in a trace. *)
Definition gate_balance (tr : list Event) : Z :=
  (Z.of_nat (count_events is_acquire tr) - Z.of_nat (count_events is_release tr))%Z.

(** The counter only moves with the gate, and it never exceeds the number
    of cached observables. *)
Definition count_inv (st : State) : Prop :=
  listenerCount st = gate_balance (trace st) ∧
  (listenerCount st ≤ Z.of_nat (size (getRoomObservables st)))%Z.

(** A transition that keeps the counter in step with the gate and does not
    let it gain on the size of the cache. *)
Definition count_step (st st' : State) : Prop :=
  (listenerCount st' - gate_balance (trace st')
   = listenerCount st - gate_balance (trace st))%Z ∧
  (Z.of_nat (size (getRoomObservables st)) - listenerCount st
   ≤ Z.of_nat (size (getRoomObservables st')) - listenerCount st')%Z.

(** Events other than the entries of the two gate functions. *)
Definition not_gate_entry (e : Event) : Prop :=
  match e with
  | GateAcquire | GateRelease => False
  | _ => True
  end.

(** ** Handlers of the activity side *)

(** Every channel has its handler on mercury, registered once and in the
    order of creation, and every channel has its cache entry. *)
Definition handlers_inv (st : State) : Prop :=
  activity_listeners st = seq 0 (length (channels st)) ∧
  size (getRoomActivitiesCache st) = length (channels st).


(** ** Handlers on [updated] *)

(** Every stream subscribed to [roomUpdate$] has its handler on [updated],
    and no stream has two. *)
Definition registered_ok (st : State) : Prop :=
  NoDup (updated_listeners st) ∧
  ∀ h s, streams st !! h = Some s → is_listening (phase s) = true →
         h ∈ updated_listeners st.

(** ** Values of an activity channel *)

Definition is_activity_notified (e : Event) : bool :=
  match e with ActivityNotified _ _ _ => true | _ => false end.

(** A value fit for the channel of [ID]: the initial [{}], or an activity
    object of the room that [ID] decodes to. *)
Definition value_of_room (deconstructHydraId : string → string) (ID : string)
    (v : ActivityValue) : Prop :=
  match v with
  | EmptyObject => True
  | ActivityObject act =>
      roomID act = Some (deconstructHydraId ID) ∧ displayAuthor act = false
  end.

Definition notified_ok (deconstructHydraId : string → string) (st : State)
    (e : Event) : Prop :=
  match e with
  | ActivityNotified c _ v =>
      ∃ ch, channels st !! c = Some ch ∧
            value_of_room deconstructHydraId (channel_ID ch) v
  | _ => True
  end.

(** A channel holds, and its subscriptions were only ever notified with,
    values fit for its room. *)
Definition channel_values_ok (deconstructHydraId : string → string) (st : State) : Prop :=
  (∀ c ch, channels st !! c = Some ch →
           value_of_room deconstructHydraId (channel_ID ch) (current ch)) ∧
  Forall (notified_ok deconstructHydraId st)
         (List.filter is_activity_notified (trace st)).

(** Channels keep their place and their ID. *)
Definition channel_ids_kept (st st' : State) : Prop :=
  ∀ c ch, channels st !! c = Some ch →
          ∃ ch', channels st' !! c = Some ch' ∧ channel_ID ch' = channel_ID ch.

(** ** Entries of the cache over time *)

(** A transition after which every cache entry is an old entry or points to
    a stream created since. *)
Definition cache_step (st st' : State) : Prop :=
  length (streams st) ≤ length (streams st') ∧
  ∀ K h, getRoomObservables st' !! K = Some h →
         getRoomObservables st !! K = Some h ∨ length (streams st) ≤ h.

(** The actions of the activity side. *)
Definition is_activity_action (a : Action) : bool :=
  match a with
  | GetRoomActivities _ | SubscribeActivities _ | UnsubscribeActivities _ _
  | MercuryActivity _ => true
  | _ => false
  end.

(** The events of the activity side, as a test. *)
Definition is_activity_event (e : Event) : bool :=
  match e with
  | CallMercuryOn _ | ActivityNotified _ _ _ | Uncaught _ => true
  | _ => false
  end.

(** ** The mock SDK of [src/mockSdk.js] *)

(** [mockSDKRoom]. *)
Definition mockSDKRoom : SDKRoom := mkSDKRoom "abc" "mock room" "group".

(** [rooms.get] of [createMockSDK()]: [jest.fn(() => Promise.resolve(mockSDKRoom))],
    a promise resolved with [mockSDKRoom] whatever the ID. *)
Definition mock_rooms_get (ID : string) : SDKOutcome := SdkResolved (Some mockSDKRoom).

(** The room object that [fetchRoom] makes of [mockSDKRoom]. *)
Definition mock_room : Room :=
  {| room_ID := "abc"; room_title := "mock room"; room_type := "group" |}.

(** An action of a run over the mock SDK: a promise of [rooms.get] settles
    the way the mock settles it. *)
Definition mock_action (a : Action) : Prop :=
  match a with
  | Settle _ out => ∃ ID, out = mock_rooms_get ID
  | _ => True
  end.

(** Events that carry no room but the mock room. *)
Definition mock_event (e : Event) : Prop :=
  match e with
  | Emitted _ v | Notified _ _ (Next v) => room v = mock_room
  | _ => True
  end.

(** Over the mock SDK every settled promise, every replay buffer and every
    snapshot of the trace is the mock room. *)
Definition mock_inv (st : State) : Prop :=
  (∀ h s v, streams st !! h = Some s → replay s = Some v → room v = mock_room) ∧
  (∀ p r, promises st !! p = Some (Some r) → r = Fulfilled mock_room) ∧
  Forall mock_event (trace st).

(** ** A stream after an error *)

(** The stream after [fail]: disconnected, its subject stopped with the
    error, its subscriptions dropped. *)
Definition failed (err : string) (s : Stream) : Stream :=
  set_observers [] (set_thrown err (set_phase Idle s)).

(** ** Handlers that re-fetch *)

(** Whether the handler of stream [h] re-fetches on an [updated] event that
    names [K]: the stream is subscribed to [roomUpdate$] and its ID is [K]. *)
Definition refetches (K : string) (st : State) (h : nat) : bool :=
  match streams st !! h with
  | Some s => is_listening (phase s) && bool_decide (stream_ID s = K)
  | None => false
  end.

(** The number of handlers on [updated] that re-fetch for [K]. *)
Definition refetch_count (K : string) (st : State) : nat :=
  length (List.filter (refetches K st) (updated_listeners st)).

(** * Proofs *)

(** ** The listener gate *)

Lemma listenerCount_start st :
  listenerCount (startListeningToRoomUpdates st) = (listenerCount st + 1)%Z.
Proof.
  unfold startListeningToRoomUpdates. cbn.
  by destruct (bool_decide (listenerCount st = 0%Z)).
Qed.

Lemma listenerCount_stop st :
  listenerCount (stopListeningToRoomUpdates st) = (listenerCount st - 1)%Z.
Proof.
  unfold stopListeningToRoomUpdates. cbn.
  by destruct (bool_decide (listenerCount st - 1 ≤ 0)%Z).
Qed.

(** The counter is the difference of the two call counts: nothing clamps it. *)
Lemma listenerCount_gate_run cs st :
  listenerCount (gate_run cs st)
  = (listenerCount st + Z.of_nat (count_calls Acquire cs) - Z.of_nat (count_calls Release cs))%Z.
Proof.
  revert st. induction cs as [|c cs IH]; intros st.
  - cbn. lia.
  - change (gate_run (c :: cs) st) with (gate_run cs (gate_call st c)).
    rewrite IH. unfold count_calls. destruct c; cbn [gate_call].
    + rewrite listenerCount_start, filter_cons_True by done.
      rewrite (filter_cons_False _ Acquire) by done. cbn [length]. lia.
    + rewrite listenerCount_stop, filter_cons_False by done.
      rewrite (filter_cons_True _ Release) by done. cbn [length]. lia.
Qed.

Lemma balanced_from_count d cs st :
  balanced_from d cs = true →
  (Z.of_nat d ≤ listenerCount st)%Z →
  (0 ≤ listenerCount (gate_run cs st))%Z.
Proof.
  revert d st. induction cs as [|c cs IH]; intros d st Hb Hd.
  - cbn. lia.
  - change (gate_run (c :: cs) st) with (gate_run cs (gate_call st c)).
    destruct c; cbn [balanced_from gate_call] in *.
    + apply (IH (S d)); [done|]. rewrite listenerCount_start. lia.
    + destruct d as [|d]; [done|].
      apply (IH d); [done|]. rewrite listenerCount_stop. lia.
Qed.

Lemma balanced_from_prefix d pre suf :
  balanced_from d (pre ++ suf) = true → balanced_from d pre = true.
Proof.
  revert d. induction pre as [|c pre IH]; intros d; [done|].
  destruct c; cbn; [apply IH|]. destruct d; [done|apply IH].
Qed.

Lemma listening_now_app_listen l r :
  listening_now (l ++ CallRoomsListen :: r) = false → CallRoomsStopListening ∈ l.
Proof.
  induction l as [|e l IH]; [done|].
  destruct e; cbn; try (intros H; apply list_elem_of_further, IH, H).
  - done.
  - intros _. apply list_elem_of_here.
Qed.

Lemma listen_separated_suffix l r :
  listen_separated (l ++ r) = true → listen_separated r = true.
Proof.
  induction l as [|e l IH]; [done|].
  destruct e; cbn; try apply IH.
  intros [_ H]%andb_true_iff. by apply IH.
Qed.

Lemma listen_separated_between tr l3 l2 l1 :
  listen_separated tr = true →
  tr = l3 ++ CallRoomsListen :: l2 ++ CallRoomsListen :: l1 →
  CallRoomsStopListening ∈ l2.
Proof.
  intros Hs ->. apply listen_separated_suffix in Hs. cbn in Hs.
  apply andb_true_iff in Hs as [Hn _]. apply negb_true_iff in Hn.
  by apply listening_now_app_listen in Hn.
Qed.

Lemma gate_inv_start st : gate_inv st → gate_inv (startListeningToRoomUpdates st).
Proof.
  intros [Hs Hn]. unfold gate_inv, startListeningToRoomUpdates. cbn.
  case_bool_decide as Hz; cbn.
  - split; [|lia]. rewrite Hs, andb_true_r. apply negb_true_iff.
    destruct (listening_now (trace st)); [|done]. specialize (Hn eq_refl). lia.
  - split; [done|]. intros H. specialize (Hn H). lia.
Qed.

Lemma gate_inv_stop st : gate_inv st → gate_inv (stopListeningToRoomUpdates st).
Proof.
  intros [Hs Hn]. unfold gate_inv, stopListeningToRoomUpdates. cbn.
  case_bool_decide as Hz; cbn.
  - done.
  - split; [done|]. intros _. lia.
Qed.

Lemma gate_inv_run cs st : gate_inv st → gate_inv (gate_run cs st).
Proof.
  revert st. induction cs as [|c cs IH]; intros st H; [done|].
  change (gate_run (c :: cs) st) with (gate_run cs (gate_call st c)).
  apply IH. destruct c; [by apply gate_inv_start|by apply gate_inv_stop].
Qed.

Lemma gate_inv_initial : gate_inv initial_state.
Proof. split; [done|]. cbn. discriminate. Qed.

(** C4 (as stated, refuted): the counter is not kept non-negative.  One
    [stopListeningToRoomUpdates] on a fresh adapter leaves it at -1. *)
Lemma listenerCount_negative_after_release :
  ¬ (∀ cs, (0 ≤ listenerCount (gate_run cs initial_state))%Z).
Proof. intros H. specialize (H [Release]). vm_compute in H. by apply H. Qed.

(** C4 (amended): for every sequence of acquire and release calls from the
    initial state the counter is the number of acquires minus the number of
    releases: it starts at 0, every acquire adds 1 and every release
    subtracts 1, unclamped.  Along a sequence that never releases at depth 0
    it is non-negative after every prefix; a release at 0 makes it -1. *)
Theorem listenerCount_nonneg_when_balanced cs :
  listenerCount (gate_run cs initial_state)
    = (Z.of_nat (count_calls Acquire cs) - Z.of_nat (count_calls Release cs))%Z ∧
  listenerCount (gate_run (cs ++ [Acquire]) initial_state)
    = (listenerCount (gate_run cs initial_state) + 1)%Z ∧
  listenerCount (gate_run (cs ++ [Release]) initial_state)
    = (listenerCount (gate_run cs initial_state) - 1)%Z ∧
  (balanced cs = true →
   ∀ pre suf, cs = pre ++ suf → (0 ≤ listenerCount (gate_run pre initial_state))%Z).
Proof.
  split; [|split; [|split]].
  - rewrite listenerCount_gate_run. cbn. lia.
  - unfold gate_run. rewrite foldl_app. apply listenerCount_start.
  - unfold gate_run. rewrite foldl_app. apply listenerCount_stop.
  - intros Hb pre suf ->. apply (balanced_from_count 0 pre); [|done].
    by apply balanced_from_prefix with suf.
Qed.

Lemma listenerCount_nonneg_when_balanced_witness :
  listenerCount (gate_run [Acquire; Acquire; Release; Release] initial_state) = 0%Z ∧
  (0 ≤ listenerCount (gate_run [Acquire; Acquire; Release] initial_state))%Z.
Proof.
  destruct (listenerCount_nonneg_when_balanced [Acquire; Acquire; Release; Release])
    as (H1 & _ & _ & H2).
  split; [exact H1|]. exact (H2 eq_refl [Acquire; Acquire; Release] [Release] eq_refl).
Defined.

(** C5: in the trace of any sequence of acquire and release calls from the
    initial state, between two calls of [rooms.listen()] there is a call of
    [rooms.stopListening()]. *)
Theorem listen_not_repeated_without_stop cs l3 l2 l1 :
  trace (gate_run cs initial_state) = l3 ++ CallRoomsListen :: l2 ++ CallRoomsListen :: l1 →
  CallRoomsStopListening ∈ l2.
Proof.
  intros Htr. destruct (gate_inv_run cs initial_state gate_inv_initial) as [Hs _].
  by eapply listen_separated_between.
Qed.

Lemma listen_not_repeated_without_stop_witness :
  CallRoomsStopListening ∈ [GateAcquire; CallRoomsStopListening; GateRelease].
Proof.
  exact (listen_not_repeated_without_stop [Acquire; Release; Acquire] []
           [GateAcquire; CallRoomsStopListening; GateRelease] [GateAcquire] eq_refl).
Defined.

(** ** Lookups in an updated state *)

Lemma lookup_new_stream {A} (ss : list A) (s : A) : (ss ++ [s]) !! length ss = Some s.
Proof. by rewrite lookup_app_r, Nat.sub_diag. Qed.

Lemma js_in_own k (own : gmap string nat) h : own !! k = Some h → js_in k own = true.
Proof. intros H. unfold js_in. rewrite H. by rewrite bool_decide_eq_true_2. Qed.

Lemma js_in_false k (own : gmap string nat) :
  js_in k own = false ↔ own !! k = None ∧ k ∉ object_prototype_keys.
Proof.
  unfold js_in. rewrite orb_false_iff, !bool_decide_eq_false.
  rewrite <-eq_None_not_Some. done.
Qed.

Lemma js_get_own k (own : gmap string nat) h : own !! k = Some h → js_get k own = VObservable h.
Proof. intros H. unfold js_get. by rewrite H. Qed.

(** ** Many observers, one fetch *)

(** [getRoom] on an ID that is not in the cache. *)
Lemma getRoom_miss K st :
  js_in K (getRoomObservables st) = false →
  let h := length (streams st) in
  let p := length (promises st) in
  let st' := snd (getRoom K st) in
  fst (getRoom K st) = VObservable h ∧
  getRoomObservables st' = <[K := h]> (getRoomObservables st) ∧
  streams st' = streams st ++ [new_stream K p] ∧
  promises st' = promises st ++ [None] ∧
  next_subscription st' = next_subscription st ∧
  listenerCount st' = (listenerCount st + 1)%Z ∧
  trace st' = CallRoomsGet K ::
              (if bool_decide (listenerCount st = 0%Z) then [CallRoomsListen] else [])
              ++ GateAcquire :: trace st.
Proof.
  intros Hin. unfold getRoom. rewrite Hin. cbn.
  unfold js_get. rewrite lookup_insert_eq.
  destruct (bool_decide (listenerCount st = 0%Z)); cbn; repeat split.
Qed.

(** [getRoom] on a cached ID returns the cached observable and changes
    nothing. *)
Lemma getRoom_hit K h st :
  getRoomObservables st !! K = Some h → getRoom K st = (VObservable h, st).
Proof.
  intros H. unfold getRoom. rewrite (js_in_own _ _ _ H). by rewrite (js_get_own _ _ _ H).
Qed.

(** Further observers of a cached stream that still waits for its first
    fetch: each gets the same observable, joins the subject, and nothing is
    called on the data source. *)
Lemma subscribe_many_hit K h n : ∀ st s,
  getRoomObservables st !! K = Some h →
  streams st !! h = Some s →
  replay s = None → thrown s = None → phase s = AwaitingRoom →
  let st' := snd (subscribe_many K n st) in
  fst (subscribe_many K n st) = replicate n (VObservable h) ∧
  trace st' = trace st ∧
  promises st' = promises st ∧
  listenerCount st' = listenerCount st ∧
  getRoomObservables st' = getRoomObservables st ∧
  length (streams st') = length (streams st) ∧
  streams st' !! h
    = Some (set_observers (observers s ++ seq (next_subscription st) n) s).
Proof.
  induction n as [|n IH]; intros st s Hc Hs Hr Ht Hp.
  - cbn. rewrite app_nil_r. destruct s; cbn in *. by rewrite Hs.
  - cbn [subscribe_many]. unfold getRoom_subscribe. rewrite (getRoom_hit _ _ _ Hc).
    unfold subscribe. rewrite Hs, Hr, Ht, Hp.
    set (s1 := set_phase AwaitingRoom (set_observers (observers s ++ [next_subscription st]) s)).
    set (st1 := update_stream h _ _).
    assert (Hs1 : streams st1 !! h = Some s1).
    { subst st1. cbn. rewrite list_lookup_alter_eq, Hs. done. }
    destruct (IH st1 s1) as (Hv & Htr & Hpr & Hl & Hcache & Hlen & Hst); try done.
    destruct (subscribe_many K n st1) as [vs st2]. cbn in *.
    rewrite Hv, Htr, Hpr, Hl, Hcache, Hlen, Hst, length_alter.
    repeat split. f_equal. unfold set_observers. cbn. rewrite Hp.
    by rewrite <-app_assoc.
Qed.

(** C1: when [K] is not in the cache and [n >= 2] observers subscribe to
    [getRoom(K)] while the first fetch is pending, [rooms.get] is called
    exactly once, [startListeningToRoomUpdates] is entered exactly once, every
    observer gets the same observable, which is the cache entry of [K], and
    all of them are subscribed to its one subject, still waiting for the one
    pending promise. *)
Theorem getRoom_one_fetch_for_many_observers K (n : nat) st :
  js_in K (getRoomObservables st) = false →
  (2 ≤ n)%nat →
  let h := length (streams st) in
  let st' := snd (subscribe_many K n st) in
  fst (subscribe_many K n st) = replicate n (VObservable h) ∧
  count_events is_fetch (trace st') = S (count_events is_fetch (trace st)) ∧
  count_events is_acquire (trace st') = S (count_events is_acquire (trace st)) ∧
  getRoomObservables st' !! K = Some h ∧
  length (streams st') = S (length (streams st)) ∧
  ∃ s, streams st' !! h = Some s ∧
       observers s = seq (next_subscription st) n ∧
       phase s = AwaitingRoom ∧
       promises st' !! room_promise s = Some None.
Proof.
  intros Hin Hn. destruct n as [|n]; [lia|]. clear Hn.
  cbn [subscribe_many]. unfold getRoom_subscribe.
  destruct (getRoom_miss K st Hin) as (Hv & Hc & Hss & Hps & Hns & _ & Htr).
  destruct (getRoom K st) as [v st0]. cbn in Hv, Hc, Hss, Hps, Hns, Htr. subst v.
  assert (Hs0 : streams st0 !! length (streams st) = Some (new_stream K (length (promises st)))).
  { rewrite Hss. apply lookup_new_stream. }
  unfold subscribe. rewrite Hs0. cbn [replay thrown phase new_stream observers].
  set (st1 := update_stream _ _ _).
  pose (s1 := mkStream K (length (promises st)) None None [next_subscription st] AwaitingRoom).
  assert (Hs1 : streams st1 !! length (streams st) = Some s1).
  { subst st1. cbn. rewrite list_lookup_alter_eq, Hs0, Hns. done. }
  assert (Hc1 : getRoomObservables st1 !! K = Some (length (streams st))).
  { subst st1. cbn. rewrite Hc. apply lookup_insert_eq. }
  destruct (subscribe_many_hit K _ n st1 s1 Hc1 Hs1) as (Hvs & Htr' & Hpr' & _ & Hc' & Hlen' & Hst');
    try done.
  destruct (subscribe_many K n st1) as [vs st2]. cbn in Hvs, Htr', Hpr', Hc', Hlen', Hst' |- *.
  rewrite Hvs, Htr', Hc', Hlen', Hst', Hpr'. subst st1. cbn.
  rewrite length_alter, Hss, length_app, Hns, Htr, Hc, Hps. cbn.
  repeat split.
  - unfold count_events. cbn. rewrite List.filter_app. cbn.
    rewrite length_app. cbn.
    destruct (bool_decide (listenerCount st = 0%Z)); cbn; lia.
  - unfold count_events. cbn. rewrite List.filter_app. cbn.
    rewrite length_app. cbn.
    destruct (bool_decide (listenerCount st = 0%Z)); cbn; lia.
  - apply lookup_insert_eq.
  - lia.
  - eexists. split; [done|]. cbn. split; [done|]. split; [done|].
    apply lookup_new_stream.
Qed.

(** ** Reading the trace *)

Lemma received_rev_app h o l1 l2 :
  received_rev h o (l1 ++ l2) = received_rev h o l1 ++ received_rev h o l2.
Proof. apply omap_app. Qed.

Lemma received_rev_quiet h o pre : Forall quiet_event pre → received_rev h o pre = [].
Proof.
  induction 1 as [|e pre He _ IH]; [done|].
  unfold received_rev in *. cbn. rewrite IH. by destruct e.
Qed.

Lemma received_rev_other h h' o st pre :
  Forall (local_event h st) pre → h' ≠ h → received_rev h' o pre = [].
Proof.
  intros Hpre Hne. induction Hpre as [|e pre He _ IH]; [done|].
  unfold received_rev in *. cbn. rewrite IH.
  destruct e as [| | | | | | |h0 o0 [v|err]| |]; try done. cbn in *.
  rewrite bool_decide_eq_false_2; [done|]. naive_solver.
Qed.

Lemma received_rev_fresh st h o :
  Forall (event_fresh st) (trace st) →
  ¬ (h < length (streams st) ∧ o < next_subscription st) →
  received_rev h o (trace st) = [].
Proof.
  intros Hf Hn. induction Hf as [|e tr He _ IH]; [done|].
  unfold received_rev in *. cbn. rewrite IH.
  destruct e as [| | | | | | |h0 o0 [v|err]| |]; try done. cbn in *.
  rewrite bool_decide_eq_false_2; [done|]. naive_solver.
Qed.

Lemma emitted_quiet h pre : Forall quiet_event pre → omap (emitted_on h) pre = [].
Proof.
  induction 1 as [|e pre He _ IH]; [done|]. cbn. rewrite IH. by destruct e.
Qed.

Lemma emitted_other h h' st pre :
  Forall (local_event h st) pre → h' ≠ h → omap (emitted_on h') pre = [].
Proof.
  intros Hpre Hne. induction Hpre as [|e pre He _ IH]; [done|].
  cbn. rewrite IH. destruct e; try done. cbn in *.
  rewrite bool_decide_eq_false_2; [done|]. naive_solver.
Qed.

Lemma emitted_fresh st h :
  Forall (event_fresh st) (trace st) → ¬ h < length (streams st) →
  omap (emitted_on h) (trace st) = [].
Proof.
  intros Hf Hn. induction Hf as [|e tr He _ IH]; [done|].
  cbn. rewrite IH. destruct e; try done. cbn in *.
  rewrite bool_decide_eq_false_2; [done|]. naive_solver.
Qed.

Lemma last_emitted_app h l1 l2 :
  omap (emitted_on h) l1 = [] → last_emitted h (l1 ++ l2) = last_emitted h l2.
Proof. intros H. unfold last_emitted. by rewrite omap_app, H. Qed.

Lemma quiet_local h st e : quiet_event e → local_event h st e.
Proof. by destruct e. Qed.

Lemma event_fresh_mono st st' e :
  length (streams st) ≤ length (streams st') →
  next_subscription st ≤ next_subscription st' →
  event_fresh st e → event_fresh st' e.
Proof. destruct e; cbn; lia. Qed.

(** Notifying the subscriptions of [h]: each of them gets the value once. *)
Lemma received_rev_notify_next h o os v :
  NoDup os →
  received_rev h o (rev (map (λ o', Notified h o' (Next v)) os))
  = if bool_decide (o ∈ os) then [v] else [].
Proof.
  induction 1 as [|o' os Hni Hnd IH]; [done|].
  cbn [map rev]. rewrite received_rev_app, IH. unfold received_rev at 1. cbn.
  destruct (decide (o' = o)) as [->|Hne].
  - rewrite (bool_decide_eq_false_2 (o ∈ os)) by done.
    rewrite bool_decide_eq_true_2 by done.
    rewrite bool_decide_eq_true_2 by apply list_elem_of_here. done.
  - rewrite (bool_decide_eq_false_2 (h = h ∧ o' = o)) by naive_solver.
    rewrite app_nil_r. rewrite (bool_decide_ext (o ∈ o' :: os) (o ∈ os)); [done|].
    rewrite elem_of_cons. naive_solver.
Qed.

Lemma received_rev_notify_error h h' o os err :
  received_rev h' o (rev (map (λ o', Notified h o' (Error err)) os)) = [].
Proof.
  induction os as [|o' os IH]; [done|].
  cbn [map rev]. by rewrite received_rev_app, IH.
Qed.

Lemma emitted_notify h h' os n :
  omap (emitted_on h') (rev (map (λ o', Notified h o' n) os)) = [].
Proof.
  induction os as [|o' os IH]; [done|].
  cbn [map rev]. by rewrite omap_app, IH.
Qed.

Lemma local_notify h st os n :
  Forall (λ o, o < next_subscription st) os →
  Forall (local_event h st) (rev (map (λ o', Notified h o' n) os)).
Proof.
  intros H. apply Forall_rev, Forall_map. eapply Forall_impl; [exact H|]. done.
Qed.

Lemma tail_updates_cons v lr :
  tail_updates (v :: lr) = true ↔ lr = [] ∨ (is_update v = true ∧ tail_updates lr = true).
Proof.
  destruct lr as [|w lr]; [naive_solver|].
  change (tail_updates (v :: w :: lr)) with (is_update v && tail_updates (w :: lr)).
  rewrite andb_true_iff. naive_solver.
Qed.

(** ** Transitions that leave the room streams alone *)

Lemma neutral_refl st : neutral st st.
Proof. repeat split; try done. by exists []. Qed.

Lemma neutral_trans st1 st2 st3 : neutral st1 st2 → neutral st2 st3 → neutral st1 st3.
Proof.
  intros (Hs & Hc & Hl & Hn & pre & Ht & Hq) (Hs' & Hc' & Hl' & Hn' & pre' & Ht' & Hq').
  repeat split; try congruence; [lia|].
  exists (pre' ++ pre). rewrite Ht', Ht, app_assoc. split; [done|]. by apply Forall_app.
Qed.

Section Neutral.
Variables st st' : State.
Hypothesis Hneutral : neutral st st'.

Lemma neutral_ids : ids_ok st → ids_ok st'.
Proof. destruct Hneutral as (Hs & _). unfold ids_ok. by rewrite Hs. Qed.

Lemma neutral_fresh : fresh_ok st → fresh_ok st'.
Proof.
  destruct Hneutral as (Hs & _ & _ & Hn & pre & Ht & Hq). intros [Hf Ho]. split.
  - rewrite Ht. apply Forall_app. split.
    + eapply Forall_impl; [exact Hq|]. by intros [].
    + eapply Forall_impl; [exact Hf|]. intros e. apply event_fresh_mono; [by rewrite Hs|done].
  - intros h s. rewrite Hs. intros Hh. destruct (Ho h s Hh) as [Hnd Hlt].
    split; [done|]. eapply Forall_impl; [exact Hlt|]. cbn. lia.
Qed.

Lemma neutral_listeners : listeners_ok st → listeners_ok st'.
Proof. destruct Hneutral as (Hs & _ & Hl & _). unfold listeners_ok. by rewrite Hs, Hl. Qed.

Lemma neutral_connected : connected_ok st → connected_ok st'.
Proof. destruct Hneutral as (Hs & _). unfold connected_ok. by rewrite Hs. Qed.

Lemma neutral_replay : replay_ok st → replay_ok st'.
Proof.
  destruct Hneutral as (Hs & _ & _ & _ & pre & Ht & Hq). unfold replay_ok.
  rewrite Hs, Ht. intros H h s Hh. rewrite last_emitted_app by by apply emitted_quiet.
  by apply H.
Qed.

Lemma neutral_cache : cache_ok st → cache_ok st'.
Proof.
  destruct Hneutral as (Hs & Hc & _ & _ & pre & Ht & Hq). unfold cache_ok.
  rewrite Hs, Hc, Ht. intros H K h HK. destruct (H K h HK) as (s & ? & ? & ? & Hquiet & Hord).
  exists s. repeat split; try done.
  - by apply Hquiet.
  - intros o. rewrite received_rev_app, (received_rev_quiet h o pre) by done.
    by apply Hquiet.
  - intros o. rewrite received_rev_app, (received_rev_quiet h o pre) by done. apply Hord.
Qed.
End Neutral.

(** ** Transitions that change one stream *)

Lemma alter_as_insert {A} (f : A → A) (l : list A) h s :
  l !! h = Some s → alter f h l = <[h := f s]> l.
Proof.
  revert h. induction l as [|x l IH]; intros [|h] Hl; try done.
  - cbn in *. congruence.
  - cbn in *. f_equal. by apply IH.
Qed.

Section LocalUpdate.
Variables (st st' : State) (h : nat) (s s' : Stream) (pre : list Event).
Hypothesis Hs : streams st !! h = Some s.
Hypothesis Hstreams : streams st' = <[h := s']> (streams st).
Hypothesis Hid : stream_ID s' = stream_ID s.
Hypothesis Htrace : trace st' = pre ++ trace st.
Hypothesis Hnext : next_subscription st ≤ next_subscription st'.
Hypothesis Hpre : Forall (local_event h st') pre.
Hypothesis Hcache :
  ∀ K h', getRoomObservables st' !! K = Some h' → getRoomObservables st !! K = Some h'.

Lemma local_lookup h' s0 :
  streams st' !! h' = Some s0 →
  (h' = h ∧ s0 = s') ∨ (h' ≠ h ∧ streams st !! h' = Some s0).
Proof.
  rewrite Hstreams. destruct (decide (h = h')) as [<-|Hne].
  - rewrite list_lookup_insert_eq by (by eapply lookup_lt_Some). naive_solver.
  - rewrite list_lookup_insert_ne by done. naive_solver.
Qed.

Lemma local_lookup_ne h' : h' ≠ h → streams st' !! h' = streams st !! h'.
Proof. intros Hne. rewrite Hstreams. by apply list_lookup_insert_ne. Qed.

Lemma local_lookup_eq : streams st' !! h = Some s'.
Proof. rewrite Hstreams. apply list_lookup_insert_eq. by eapply lookup_lt_Some. Qed.

Lemma local_length : length (streams st') = length (streams st).
Proof. rewrite Hstreams. apply length_insert. Qed.

Lemma local_ids : ids_ok st → ids_ok st'.
Proof.
  intros H h' s0 [[-> ->]|[_ Hl]]%local_lookup.
  - rewrite Hid. by eapply H.
  - by eapply H.
Qed.

Lemma local_fresh :
  fresh_ok st →
  NoDup (observers s') →
  Forall (λ o, o < next_subscription st') (observers s') →
  fresh_ok st'.
Proof.
  intros [Hf Ho] Hnd Hlt. split.
  - rewrite Htrace. apply Forall_app. split.
    + eapply Forall_impl; [exact Hpre|]. intros e. destruct e; cbn; try done.
      * intros ->. rewrite local_length. by eapply lookup_lt_Some.
      * intros [-> ?]. rewrite local_length. split; [by eapply lookup_lt_Some|done].
    + eapply Forall_impl; [exact Hf|]. intros e.
      apply event_fresh_mono; [by rewrite local_length|done].
  - intros h' s0 [[-> ->]|[_ Hl]]%local_lookup; [done|].
    destruct (Ho h' s0 Hl) as [? Hlt']. split; [done|].
    eapply Forall_impl; [exact Hlt'|]. cbn. lia.
Qed.

Lemma local_listeners :
  listeners_ok st →
  (∀ h', h' ∈ updated_listeners st' →
         (h' ≠ h ∧ h' ∈ updated_listeners st) ∨ (h' = h ∧ is_listening (phase s') = true)) →
  listeners_ok st'.
Proof.
  intros H Hl h' [[Hne Hin]| [-> Hph]]%Hl.
  - rewrite local_lookup_ne by done. by apply H.
  - exists s'. by rewrite local_lookup_eq.
Qed.

Lemma local_connected :
  connected_ok st →
  (phase s' = Idle ↔ observers s' = []) →
  (is_Some (thrown s') → observers s' = []) →
  connected_ok st'.
Proof.
  intros H H1 H2 h' s0 [[-> ->]|[_ Hl]]%local_lookup; [done|]. by apply (H h').
Qed.

Lemma local_replay :
  replay_ok st →
  replay s' = last_emitted h (pre ++ trace st) →
  replay_ok st'.
Proof.
  intros H Hr h' s0 [[-> ->]|[Hne Hl]]%local_lookup.
  - by rewrite Htrace.
  - rewrite Htrace, last_emitted_app by by eapply emitted_other. by apply H.
Qed.

Lemma local_cache :
  cache_ok st →
  (getRoomObservables st' !! stream_ID s = Some h →
   thrown s = None →
   (is_listening (phase s) = false →
    replay s = None ∧ ∀ o, received_rev h o (trace st) = []) →
   (∀ o, tail_updates (received_rev h o (trace st)) = true) →
   thrown s' = None ∧
   (is_listening (phase s') = false →
    replay s' = None ∧ ∀ o, received_rev h o (pre ++ trace st) = []) ∧
   ∀ o, tail_updates (received_rev h o (pre ++ trace st)) = true) →
  cache_ok st'.
Proof.
  intros H Hnew K h' HK'. pose proof (Hcache _ _ HK') as HK.
  destruct (H K h' HK) as (s0 & Hl & HID & Hth & Hquiet & Hord).
  destruct (decide (h' = h)) as [->|Hne].
  - assert (s0 = s) as -> by congruence. subst K.
    destruct (Hnew HK' Hth Hquiet Hord) as (Hth' & Hquiet' & Hord').
    exists s'. rewrite local_lookup_eq, Htrace. done.
  - exists s0. rewrite local_lookup_ne, Htrace by done.
    repeat split; try done.
    + by apply Hquiet.
    + intros o. rewrite received_rev_app, (received_rev_other h h' o st' pre) by done.
      by apply Hquiet.
    + intros o. rewrite received_rev_app, (received_rev_other h h' o st' pre) by done.
      apply Hord.
Qed.
End LocalUpdate.

Lemma rooms_ok_neutral st st' : neutral st st' → rooms_ok st → rooms_ok st'.
Proof.
  intros Hn [? ? ? ? ? ?]. split.
  - by eapply neutral_ids.
  - by eapply neutral_fresh.
  - by eapply neutral_listeners.
  - by eapply neutral_connected.
  - by eapply neutral_replay.
  - by eapply neutral_cache.
Qed.

(** The conditions under which changing stream [h] from [s] to [s'],
    with the events [pre] added to the trace, keeps the invariants. *)
Lemma rooms_ok_local st st' h s s' pre :
  rooms_ok st →
  streams st !! h = Some s →
  streams st' = <[h := s']> (streams st) →
  stream_ID s' = stream_ID s →
  trace st' = pre ++ trace st →
  next_subscription st ≤ next_subscription st' →
  Forall (local_event h st') pre →
  (∀ K h', getRoomObservables st' !! K = Some h' → getRoomObservables st !! K = Some h') →
  NoDup (observers s') →
  Forall (λ o, o < next_subscription st') (observers s') →
  (∀ h', h' ∈ updated_listeners st' →
         (h' ≠ h ∧ h' ∈ updated_listeners st) ∨ (h' = h ∧ is_listening (phase s') = true)) →
  (phase s' = Idle ↔ observers s' = []) →
  (is_Some (thrown s') → observers s' = []) →
  replay s' = last_emitted h (pre ++ trace st) →
  (getRoomObservables st' !! stream_ID s = Some h →
   thrown s = None →
   (is_listening (phase s) = false →
    replay s = None ∧ ∀ o, received_rev h o (trace st) = []) →
   (∀ o, tail_updates (received_rev h o (trace st)) = true) →
   thrown s' = None ∧
   (is_listening (phase s') = false →
    replay s' = None ∧ ∀ o, received_rev h o (pre ++ trace st) = []) ∧
   ∀ o, tail_updates (received_rev h o (pre ++ trace st)) = true) →
  rooms_ok st'.
Proof.
  intros [? ? ? ? ? ?] Hs Hss Hid Htr Hnx Hpre Hc Hnd Hlt Hl Hph Hth Hrp Hca. split.
  - by eapply local_ids.
  - by eapply local_fresh.
  - by eapply local_listeners.
  - by eapply local_connected.
  - by eapply local_replay.
  - by eapply local_cache.
Qed.

(** ** [getRoom] keeps the invariants *)

Lemma neutral_start st : neutral st (startListeningToRoomUpdates st).
Proof.
  unfold startListeningToRoomUpdates. cbn.
  destruct (bool_decide (listenerCount st = 0%Z)); cbn; repeat split; try done.
  - exists [CallRoomsListen; GateAcquire]. split; [done|]. by repeat constructor.
  - exists [GateAcquire]. split; [done|]. by repeat constructor.
Qed.

Lemma neutral_stop st : neutral st (stopListeningToRoomUpdates st).
Proof.
  unfold stopListeningToRoomUpdates. cbn.
  destruct (bool_decide (listenerCount st - 1 ≤ 0)%Z); cbn; repeat split; try done.
  - exists [CallRoomsStopListening; GateRelease]. split; [done|]. by repeat constructor.
  - exists [GateRelease]. split; [done|]. by repeat constructor.
Qed.

Lemma neutral_fetchRoom ID st : neutral st (snd (fetchRoom ID st)).
Proof.
  unfold fetchRoom. cbn. repeat split; try done.
  exists [CallRoomsGet ID]. split; [done|]. by repeat constructor.
Qed.

Lemma rooms_ok_create K p st :
  js_in K (getRoomObservables st) = false →
  rooms_ok st →
  rooms_ok (set_getRoomObservables (insert K (length (streams st)))
              (set_streams (λ ss, ss ++ [new_stream K p]) st)).
Proof.
  intros [HK Hproto]%js_in_false [Hids [Hf Ho] Hl Hc Hr Hca].
  assert (Hlook : ∀ h s, (streams st ++ [new_stream K p]) !! h = Some s →
                         (h < length (streams st) ∧ streams st !! h = Some s) ∨
                         (h = length (streams st) ∧ s = new_stream K p)).
  { intros h s Hh. apply lookup_app_Some in Hh as [Hh|[Hge Hh]].
    - left. split; [by eapply lookup_lt_Some|done].
    - right. apply list_lookup_singleton_Some in Hh as [Hz <-]. split; [lia|done]. }
  split; cbn.
  - intros h s [[_ Hh]|[_ ->]]%Hlook; [by eapply Hids|done].
  - split; cbn.
    + eapply Forall_impl; [exact Hf|]. intros e. apply event_fresh_mono; cbn; [|done].
      rewrite length_app. lia.
    + intros h s [[_ Hh]|[_ ->]]%Hlook; [by apply (Ho h)|]. cbn. split; constructor.
  - intros h Hh. cbn. destruct (Hl h Hh) as (s & Hs & Hph). exists s. split; [|done].
    by apply lookup_app_l_Some.
  - intros h s [[_ Hh]|[_ ->]]%Hlook; [by apply (Hc h)|]. done.
  - intros h s [[_ Hh]|[-> ->]]%Hlook; cbn; [by apply Hr|].
    unfold last_emitted. rewrite emitted_fresh; [done|done|lia].
  - intros K' h. cbn. destruct (decide (K = K')) as [<-|Hne].
    + rewrite lookup_insert_eq. intros [= <-]. exists (new_stream K p).
      rewrite lookup_new_stream.
      assert (∀ o, received_rev (length (streams st)) o (trace st) = []) as Hempty.
      { intros o. apply received_rev_fresh; [done|lia]. }
      repeat split; try done. intros o. by rewrite Hempty.
    + rewrite lookup_insert_ne by done. intros HK'.
      destruct (Hca K' h HK') as (s & Hs & ? & ? & ? & ?). exists s. split; [|done].
      by apply lookup_app_l_Some.
Qed.

Lemma rooms_ok_getRoom K st : rooms_ok st → rooms_ok (snd (getRoom K st)).
Proof.
  intros H. unfold getRoom. destruct (js_in K (getRoomObservables st)) eqn:Hin; [done|].
  cbn [snd]. set (st1 := startListeningToRoomUpdates st).
  change (rooms_ok (set_getRoomObservables (insert K (length (streams (snd (fetchRoom K st1)))))
            (set_streams (λ ss, ss ++ [new_stream K (fst (fetchRoom K st1))]) (snd (fetchRoom K st1))))).
  assert (Hn : neutral st (snd (fetchRoom K st1))).
  { eapply neutral_trans; [apply neutral_start|apply neutral_fetchRoom]. }
  apply rooms_ok_create.
  - destruct Hn as (_ & -> & _). done.
  - by eapply rooms_ok_neutral.
Qed.

(** ** [subscribe] and [unsubscribe] keep the invariants *)

Lemma listeners_unchanged st h s s' :
  listeners_ok st →
  streams st !! h = Some s →
  (is_listening (phase s) = true → is_listening (phase s') = true) →
  ∀ h', h' ∈ updated_listeners st →
        (h' ≠ h ∧ h' ∈ updated_listeners st) ∨ (h' = h ∧ is_listening (phase s') = true).
Proof.
  intros Hl Hs Hph h' Hin. destruct (decide (h' = h)) as [->|Hne]; [|by left].
  right. split; [done|]. apply Hph. destruct (Hl h Hin) as (s0 & Hs0 & Hls). congruence.
Qed.

Lemma listeners_removed (l : list nat) h (P : nat → Prop) :
  ∀ h', h' ∈ filter (λ h', h' ≠ h) l → (h' ≠ h ∧ h' ∈ l) ∨ P h'.
Proof. intros h' [? ?]%list_elem_of_filter. by left. Qed.

Lemma stream_fresh_subscription st h s :
  fresh_ok st → streams st !! h = Some s → next_subscription st ∉ observers s.
Proof.
  intros [_ Ho] Hs Hin. destruct (Ho h s Hs) as [_ Hlt].
  rewrite Forall_forall in Hlt. specialize (Hlt _ Hin). lia.
Qed.

Lemma rooms_ok_subscribe h st : rooms_ok st → rooms_ok (subscribe h st).
Proof.
  intros Hok. pose proof Hok as [Hids Hf Hl Hc Hr Hca].
  unfold subscribe. destruct (streams st !! h) as [s|] eqn:Hs; [|done].
  destruct (Hc h s Hs) as [Hidle Hthrown].
  pose proof (proj2 Hf h s Hs) as [Hnd Hlt].
  pose proof (stream_fresh_subscription st h s Hf Hs) as Hnew.
  set (o := next_subscription st) in *.
  set (pre0 := match replay s with Some v => [Notified h o (Next v)] | None => [] end).
  assert (Hpre0 : ∀ st', next_subscription st' = S o → Forall (local_event h st') pre0).
  { intros st' Hn. subst pre0. destruct (replay s); repeat constructor. rewrite Hn. lia. }
  assert (Hem0 : omap (emitted_on h) pre0 = []).
  { subst pre0. by destruct (replay s). }
  destruct (thrown s) as [err|] eqn:Hth.
  - apply (rooms_ok_local st _ h s s (Notified h o (Error err) :: pre0)).
    + done.
    + done.
    + cbn. destruct (replay s); cbn; by rewrite list_insert_id.
    + done.
    + subst pre0. by destruct (replay s).
    + destruct (replay s); cbn; lia.
    + constructor; [|apply Hpre0; by destruct (replay s)].
      cbn. split; [done|]. destruct (replay s); cbn; lia.
    + by destruct (replay s).
    + done.
    + eapply Forall_impl; [exact Hlt|]. cbn. intros. destruct (replay s); cbn; lia.
    + intros h'. destruct (replay s); cbn; by eapply listeners_unchanged.
    + done.
    + intros _. apply Hthrown. by eexists.
    + rewrite (last_emitted_app h (_ :: pre0)); [by apply Hr|]. cbn. done.
    + intros _ Hnone. congruence.
  - set (f := λ s, set_phase match phase s with Idle => AwaitingRoom | ph => ph end
                     (set_observers (observers s ++ [o]) s)).
    apply (rooms_ok_local st _ h s (f s) pre0).
    + done.
    + done.
    + cbn. destruct (replay s); cbn; by erewrite alter_as_insert.
    + done.
    + subst pre0. by destruct (replay s).
    + destruct (replay s); cbn; lia.
    + apply Hpre0. by destruct (replay s).
    + by destruct (replay s).
    + cbn. apply NoDup_app. split; [done|]. split; [|apply NoDup_singleton].
      intros x Hx ->%list_elem_of_singleton. done.
    + cbn. apply Forall_app. split.
      * eapply Forall_impl; [exact Hlt|]. cbn. intros. destruct (replay s); cbn; lia.
      * repeat constructor. destruct (replay s); cbn; lia.
    + intros h'. destruct (replay s); cbn;
        (apply (listeners_unchanged st h s (f s)); [done..|]); cbn; by destruct (phase s).
    + cbn. split.
      * by destruct (phase s).
      * intros H. by destruct (observers s).
    + cbn. rewrite Hth. by intros [? ?].
    + rewrite (last_emitted_app h pre0) by done. exact (Hr h s Hs).
    + intros _ _ Hquiet Hord. split; [done|]. split.
      * cbn. intros Hnl. destruct Hquiet as [Hrep Hrec]; [by destruct (phase s)|].
        subst pre0. rewrite Hrep. done.
      * intros o'. rewrite received_rev_app. subst pre0.
        destruct (replay s) as [v|]; [|apply Hord].
        unfold received_rev at 1. cbn. case_bool_decide as Ho; [|apply Hord].
        destruct Ho as [_ <-].
        rewrite (received_rev_fresh st h o); [done|apply Hf|]. subst o. lia.
Qed.

Lemma teardown_fields h s st :
  let st' := teardown h s st in
  streams st' = alter (set_phase Idle) h (streams st) ∧
  getRoomObservables st' = delete (stream_ID s) (getRoomObservables st) ∧
  updated_listeners st' = filter (λ h', h' ≠ h) (updated_listeners st) ∧
  next_subscription st' = next_subscription st ∧
  trace st' = release_events st ++ trace st ∧
  listenerCount st' = (listenerCount st - 1)%Z ∧
  promises st' = promises st ∧
  channels st' = channels st ∧
  getRoomActivitiesCache st' = getRoomActivitiesCache st ∧
  activity_listeners st' = activity_listeners st.
Proof.
  unfold teardown, finalize, stopListeningToRoomUpdates, release_events. cbn.
  destruct (bool_decide (listenerCount st - 1 ≤ 0)%Z); cbn; repeat split.
Qed.

Lemma quiet_release_events st : Forall quiet_event (release_events st).
Proof.
  unfold release_events. destruct (bool_decide _); by repeat constructor.
Qed.

Lemma local_release_events h st' st : Forall (local_event h st') (release_events st).
Proof.
  eapply Forall_impl; [apply quiet_release_events|]. intros e. apply quiet_local.
Qed.

Lemma cache_delete_subset (m : gmap string nat) K0 K h :
  delete K0 m !! K = Some h → m !! K = Some h.
Proof. rewrite lookup_delete_Some. naive_solver. Qed.

Lemma rooms_ok_disconnect h s st :
  rooms_ok st →
  streams st !! h = Some s →
  thrown s = None →
  rooms_ok (teardown h s (update_stream h (set_observers []) st)).
Proof.
  intros Hok Hs Hth. pose proof Hok as [Hids Hf Hl Hc Hr Hca].
  destruct (teardown_fields h s (update_stream h (set_observers []) st))
    as (Hst & Hgr & Hul & Hns & Htr & _).
  apply (rooms_ok_local st _ h s (set_phase Idle (set_observers [] s)) (release_events st)).
  - done.
  - done.
  - rewrite Hst. cbn. rewrite list_alter_alter_eq. by erewrite alter_as_insert.
  - done.
  - done.
  - by rewrite Hns.
  - apply local_release_events.
  - rewrite Hgr. cbn. intros K h'. apply cache_delete_subset.
  - constructor.
  - constructor.
  - rewrite Hul. cbn. apply (listeners_removed (updated_listeners st) h (λ h', h' = h ∧ false = true)).
  - done.
  - done.
  - cbn. rewrite last_emitted_app by apply emitted_quiet, quiet_release_events.
    by apply Hr.
  - rewrite Hgr. cbn. by rewrite lookup_delete_eq.
Qed.

Lemma rooms_ok_unsubscribe h o st : rooms_ok st → rooms_ok (unsubscribe h o st).
Proof.
  intros Hok. pose proof Hok as [Hids Hf Hl Hc Hr Hca].
  unfold unsubscribe. destruct (streams st !! h) as [s|] eqn:Hs; [|done].
  case_bool_decide as Hin; [|done].
  destruct (Hc h s Hs) as [Hidle Hthrown].
  pose proof (proj2 Hf h s Hs) as [Hnd Hlt].
  assert (Hnonempty : observers s ≠ []) by (intros Hnil; rewrite Hnil in Hin; by apply elem_of_nil in Hin).
  assert (Hphase : phase s ≠ Idle) by (by rewrite Hidle).
  assert (Hth : thrown s = None).
  { destruct (thrown s) eqn:E; [|done]. destruct Hnonempty. apply Hthrown. by eexists. }
  set (os := filter (λ o', o' ≠ o) (observers s)).
  assert (Hlt' : Forall (λ o', o' < next_subscription st) os).
  { apply Forall_forall. intros x [_ Hx]%list_elem_of_filter.
    rewrite Forall_forall in Hlt. by apply Hlt. }
  assert (Hs1 : streams (update_stream h (set_observers os) st) !! h = Some (set_observers os s)).
  { cbn. by rewrite list_lookup_alter_eq, Hs. }
  assert (Hquiet_case :
            rooms_ok (update_stream h (set_observers os) st) ∨ os = []).
  { destruct os as [|o1 os'] eqn:Hos; [by right|left].
    apply (rooms_ok_local st _ h s (set_observers (o1 :: os') s) []).
    - done.
    - done.
    - cbn. by erewrite alter_as_insert.
    - done.
    - done.
    - done.
    - constructor.
    - done.
    - cbn. rewrite <-Hos. by apply NoDup_filter.
    - done.
    - by apply (listeners_unchanged st h s _ Hl Hs).
    - cbn. by split.
    - cbn. rewrite Hth. by intros [? ?].
    - cbn. by apply Hr.
    - done. }
  destruct os as [|o1 os'] eqn:Hos.
  2:{ by destruct Hquiet_case. }
  clear Hquiet_case.
  destruct (phase s) eqn:Hph; [done| |]; by apply rooms_ok_disconnect.
Qed.

(** ** Errors and emissions keep the invariants *)

Lemma fail_fields h s err st :
  let st' := fail h s err st in
  streams st' = alter (λ s, set_observers [] (set_thrown err (set_phase Idle s))) h (streams st) ∧
  getRoomObservables st' = delete (stream_ID s) (getRoomObservables st) ∧
  updated_listeners st' = filter (λ h', h' ≠ h) (updated_listeners st) ∧
  next_subscription st' = next_subscription st ∧
  trace st' = (rev (map (λ o, Notified h o (Error err)) (observers s)) ++ release_events st)
              ++ trace st ∧
  listenerCount st' = (listenerCount st - 1)%Z ∧
  promises st' = promises st ∧
  channels st' = channels st ∧
  getRoomActivitiesCache st' = getRoomActivitiesCache st ∧
  activity_listeners st' = activity_listeners st.
Proof.
  unfold fail. destruct (teardown_fields h s st) as (Hst & Hgr & Hul & Hns & Htr & Hlc & Hp & Hch & Hac & Hal).
  unfold notify_all, update_stream.
  cbn [streams getRoomObservables updated_listeners next_subscription trace listenerCount
       promises channels getRoomActivitiesCache activity_listeners set_trace set_streams].
  rewrite Hst, Hgr, Hul, Hns, Htr, Hlc, Hp, Hch, Hac, Hal.
  rewrite list_alter_alter_eq, <-app_assoc. repeat split.
Qed.

Lemma rooms_ok_fail h s err st :
  rooms_ok st → streams st !! h = Some s → rooms_ok (fail h s err st).
Proof.
  intros Hok Hs. pose proof Hok as [Hids Hf Hl Hc Hr Hca].
  pose proof (proj2 Hf h s Hs) as [Hnd Hlt].
  destruct (fail_fields h s err st) as (Hst & Hgr & Hul & Hns & Htr & _).
  apply (rooms_ok_local st _ h s (set_observers [] (set_thrown err (set_phase Idle s)))
           (rev (map (λ o, Notified h o (Error err)) (observers s)) ++ release_events st)).
  - done.
  - done.
  - rewrite Hst. by erewrite alter_as_insert.
  - done.
  - done.
  - by rewrite Hns.
  - apply Forall_app. split; [|apply local_release_events].
    apply local_notify. by rewrite Hns.
  - rewrite Hgr. intros K h'. apply cache_delete_subset.
  - constructor.
  - constructor.
  - rewrite Hul. apply (listeners_removed (updated_listeners st) h (λ h', h' = h ∧ _)).
  - done.
  - done.
  - cbn. rewrite last_emitted_app; [by apply Hr|].
    rewrite omap_app, emitted_notify, emitted_quiet; [done|apply quiet_release_events].
  - rewrite Hgr. by rewrite lookup_delete_eq.
Qed.

Lemma emit_fields h s v st :
  let st' := emit h s v st in
  streams st' = alter (set_replay v) h (streams st) ∧
  getRoomObservables st' = getRoomObservables st ∧
  updated_listeners st' = updated_listeners st ∧
  next_subscription st' = next_subscription st ∧
  trace st' = (rev (map (λ o, Notified h o (Next v)) (observers s)) ++ [Emitted h v])
              ++ trace st ∧
  listenerCount st' = listenerCount st ∧
  promises st' = promises st ∧
  channels st' = channels st ∧
  getRoomActivitiesCache st' = getRoomActivitiesCache st ∧
  activity_listeners st' = activity_listeners st.
Proof. unfold emit. cbn. rewrite <-app_assoc. repeat split. Qed.

Lemma last_emitted_emit h os v tr :
  last_emitted h ((rev (map (λ o, Notified h o (Next v)) os) ++ [Emitted h v]) ++ tr) = Some v.
Proof.
  unfold last_emitted. rewrite !omap_app, emitted_notify. cbn.
  by rewrite bool_decide_eq_true_2.
Qed.

Lemma received_rev_emit h o os v tr :
  NoDup os →
  received_rev h o ((rev (map (λ o, Notified h o (Next v)) os) ++ [Emitted h v]) ++ tr)
  = (if bool_decide (o ∈ os) then [v] else []) ++ received_rev h o tr.
Proof.
  intros Hnd. rewrite !received_rev_app, received_rev_notify_next by done.
  by rewrite app_nil_r.
Qed.

Lemma local_emit h st os v :
  Forall (λ o, o < next_subscription st) os →
  Forall (local_event h st) (rev (map (λ o, Notified h o (Next v)) os) ++ [Emitted h v]).
Proof.
  intros H. apply Forall_app. split; [by apply local_notify|]. by repeat constructor.
Qed.

(** [room$] delivers its value and [concat] subscribes to [roomUpdate$]. *)
Lemma rooms_ok_emit_initial h s rm st :
  rooms_ok st →
  streams st !! h = Some s →
  phase s = AwaitingRoom →
  rooms_ok (update_stream h (set_phase (Listening []))
              (set_updated_listeners (λ l, l ++ [h]) (emit h s (mkSnapshot Initial rm) st))).
Proof.
  intros Hok Hs Hph. pose proof Hok as [Hids Hf Hl Hc Hr Hca].
  pose proof (proj2 Hf h s Hs) as [Hnd Hlt].
  destruct (Hc h s Hs) as [Hidle Hthrown].
  set (v := mkSnapshot Initial rm).
  destruct (emit_fields h s v st) as (Hst & Hgr & Hul & Hns & Htr & _).
  apply (rooms_ok_local st _ h s (set_phase (Listening []) (set_replay v s))
           (rev (map (λ o, Notified h o (Next v)) (observers s)) ++ [Emitted h v])).
  - done.
  - done.
  - cbn [streams update_stream set_streams set_updated_listeners]. rewrite Hst.
    rewrite list_alter_alter_eq. by erewrite alter_as_insert.
  - done.
  - cbn [trace update_stream set_streams set_updated_listeners]. by rewrite Htr.
  - cbn [next_subscription update_stream set_streams set_updated_listeners]. by rewrite Hns.
  - apply local_emit. cbn [next_subscription update_stream set_streams set_updated_listeners].
    by rewrite Hns.
  - cbn [getRoomObservables update_stream set_streams set_updated_listeners]. by rewrite Hgr.
  - done.
  - cbn [next_subscription update_stream set_streams set_updated_listeners]. by rewrite Hns.
  - cbn [updated_listeners update_stream set_streams set_updated_listeners]. rewrite Hul.
    intros h' [Hin| ->%list_elem_of_singleton]%elem_of_app; [|by right].
    destruct (decide (h' = h)) as [->|Hne]; [by right|by left].
  - cbn. rewrite <-Hidle, Hph. done.
  - done.
  - cbn. by rewrite last_emitted_emit.
  - intros _ Hth Hquiet _. destruct Hquiet as [_ Hempty]; [by rewrite Hph|].
    split; [done|]. split; [done|]. intros o.
    rewrite received_rev_emit, Hempty by done. by case_bool_decide.
Qed.

(** A re-fetch of [flatMap] delivers its value. *)
Lemma rooms_ok_emit_update h s rm inners inners' st :
  rooms_ok st →
  streams st !! h = Some s →
  phase s = Listening inners →
  rooms_ok (emit h s (mkSnapshot Update rm) (update_stream h (set_phase (Listening inners')) st)).
Proof.
  intros Hok Hs Hph. pose proof Hok as [Hids Hf Hl Hc Hr Hca].
  pose proof (proj2 Hf h s Hs) as [Hnd Hlt].
  destruct (Hc h s Hs) as [Hidle Hthrown].
  set (v := mkSnapshot Update rm).
  destruct (emit_fields h s v (update_stream h (set_phase (Listening inners')) st))
    as (Hst & Hgr & Hul & Hns & Htr & _).
  apply (rooms_ok_local st _ h s (set_replay v (set_phase (Listening inners') s))
           (rev (map (λ o, Notified h o (Next v)) (observers s)) ++ [Emitted h v])).
  - done.
  - done.
  - rewrite Hst. cbn. rewrite list_alter_alter_eq. by erewrite alter_as_insert.
  - done.
  - done.
  - by rewrite Hns.
  - apply local_emit. by rewrite Hns.
  - by rewrite Hgr.
  - done.
  - by rewrite Hns.
  - rewrite Hul. by apply (listeners_unchanged st h s _ Hl Hs).
  - cbn. rewrite <-Hidle, Hph. done.
  - done.
  - cbn. by rewrite last_emitted_emit.
  - intros _ Hth _ Hord. split; [done|]. split; [done|]. intros o.
    rewrite received_rev_emit by done. case_bool_decide; [|apply Hord].
    apply tail_updates_cons. right. split; [done|apply Hord].
Qed.

Lemma rooms_ok_deliver h p st : rooms_ok st → rooms_ok (deliver h p st).
Proof.
  intros Hok. unfold deliver.
  destruct (streams st !! h) as [s|] eqn:Hs; [|done].
  destruct (promises st !! p) as [[r|]|]; [|done..].
  destruct (phase s) as [| |inners] eqn:Hph; [done| |].
  - case_bool_decide; [|done]. destruct r as [rm|err].
    + by apply rooms_ok_emit_initial.
    + by apply rooms_ok_fail.
  - case_bool_decide; [|done]. destruct r as [rm|err].
    + by eapply rooms_ok_emit_update.
    + by apply rooms_ok_fail.
Qed.

(** ** The [updated] event keeps the invariants *)

Lemma rooms_ok_on_updated ev h st : rooms_ok st → rooms_ok (on_updated ev st h).
Proof.
  intros Hok. unfold on_updated.
  destruct (streams st !! h) as [s|] eqn:Hs; [|done].
  destruct (phase s) as [| |inners] eqn:Hph; [done..|].
  destruct (data ev) as [i|]; [|by apply rooms_ok_fail].
  case_bool_decide; [|done].
  pose proof (neutral_fetchRoom (stream_ID s) st) as Hn.
  pose proof (rooms_ok_neutral _ _ Hn Hok) as Hok1.
  destruct (fetchRoom (stream_ID s) st) as [p st1] eqn:Hfetch. cbn [snd] in *.
  destruct Hn as (Hst & Hgr & Hul & Hns & _).
  pose proof Hok1 as [Hids Hf Hl Hc Hr Hca].
  assert (Hs1 : streams st1 !! h = Some s) by by rewrite Hst.
  pose proof (proj2 Hf h s Hs1) as [Hnd Hlt].
  destruct (Hc h s Hs1) as [Hidle Hthrown].
  apply (rooms_ok_local st1 _ h s (set_phase (Listening (inners ++ [p])) s) []).
  - done.
  - done.
  - cbn. by erewrite alter_as_insert.
  - done.
  - done.
  - done.
  - constructor.
  - done.
  - done.
  - done.
  - by apply (listeners_unchanged st1 h s _ Hl Hs1).
  - cbn. rewrite <-Hidle, Hph. done.
  - done.
  - cbn. by apply Hr.
  - intros _ Hth _ Hord. done.
Qed.

Lemma rooms_ok_trigger_updated ev st : rooms_ok st → rooms_ok (trigger_updated ev st).
Proof.
  unfold trigger_updated. generalize (updated_listeners st) as l.
  intros l. revert st. induction l as [|h l IH]; intros st Hok; [done|].
  cbn. apply IH. by apply rooms_ok_on_updated.
Qed.

(** ** The gate under the transitions of the adapter *)

Lemma listening_now_pre pre tr :
  Forall not_gate_event pre → listening_now (pre ++ tr) = listening_now tr.
Proof. induction 1 as [|e pre He _ IH]; [done|]. by destruct e. Qed.

Lemma listen_separated_pre pre tr :
  Forall not_gate_event pre → listen_separated (pre ++ tr) = listen_separated tr.
Proof. induction 1 as [|e pre He _ IH]; [done|]. by destruct e. Qed.

Lemma gate_inv_frame st st' pre :
  Forall not_gate_event pre →
  trace st' = pre ++ trace st →
  listenerCount st' = listenerCount st →
  gate_inv st → gate_inv st'.
Proof.
  intros Hpre Htr Hlc [Hs Hn]. unfold gate_inv.
  by rewrite Htr, Hlc, listen_separated_pre, listening_now_pre.
Qed.

Lemma trace_start st :
  trace (startListeningToRoomUpdates st) = acquire_events st ++ trace st.
Proof.
  unfold startListeningToRoomUpdates, acquire_events. cbn.
  by destruct (bool_decide (listenerCount st = 0%Z)).
Qed.

Lemma trace_stop st :
  trace (stopListeningToRoomUpdates st) = release_events st ++ trace st.
Proof.
  unfold stopListeningToRoomUpdates, release_events. cbn.
  by destruct (bool_decide (listenerCount st - 1 ≤ 0)%Z).
Qed.

Lemma gate_step_inv st st' : gate_step st st' → gate_inv st → gate_inv st'.
Proof.
  intros (pre & Hpre & [[Htr Hlc]|[[Htr Hlc]|[Htr Hlc]]]) Hinv.
  - by eapply gate_inv_frame.
  - apply (gate_inv_frame (startListeningToRoomUpdates st) st' pre); try done.
    + by rewrite trace_start.
    + by rewrite listenerCount_start.
    + by apply gate_inv_start.
  - apply (gate_inv_frame (stopListeningToRoomUpdates st) st' pre); try done.
    + by rewrite trace_stop.
    + by rewrite listenerCount_stop.
    + by apply gate_inv_stop.
Qed.

Lemma gate_step_same st st' pre :
  Forall not_gate_event pre →
  trace st' = pre ++ trace st → listenerCount st' = listenerCount st → gate_step st st'.
Proof. intros. exists pre. split; [done|]. by left. Qed.

Lemma gate_step_refl st : gate_step st st.
Proof. by apply (gate_step_same st st []). Qed.

Lemma not_gate_notify h os n :
  Forall not_gate_event (rev (map (λ o, Notified h o n) os)).
Proof. apply Forall_rev, Forall_map, Forall_forall. done. Qed.

Lemma gate_step_getRoom K st : gate_step st (snd (getRoom K st)).
Proof.
  unfold getRoom. destruct (js_in K (getRoomObservables st)); [apply gate_step_refl|].
  exists [CallRoomsGet K]. split; [by repeat constructor|]. right. left. cbn.
  unfold acquire_events. by destruct (bool_decide (listenerCount st = 0%Z)).
Qed.

Lemma gate_step_subscribe h st : gate_step st (subscribe h st).
Proof.
  unfold subscribe. destruct (streams st !! h) as [s|]; [|apply gate_step_refl].
  destruct (thrown s) as [err|], (replay s) as [v|]; cbn.
  - apply (gate_step_same _ _ [Notified h (next_subscription st) (Error err);
                               Notified h (next_subscription st) (Next v)]);
      [by repeat constructor|done..].
  - apply (gate_step_same _ _ [Notified h (next_subscription st) (Error err)]);
      [by repeat constructor|done..].
  - apply (gate_step_same _ _ [Notified h (next_subscription st) (Next v)]);
      [by repeat constructor|done..].
  - by apply (gate_step_same _ _ []).
Qed.

Lemma gate_step_teardown h s st st0 :
  trace st0 = trace st → listenerCount st0 = listenerCount st →
  gate_step st (teardown h s st0).
Proof.
  intros Htr Hlc. destruct (teardown_fields h s st0) as (_ & _ & _ & _ & Htr' & Hlc' & _).
  exists []. split; [constructor|]. right. right.
  rewrite Htr', Hlc'. unfold release_events. by rewrite Htr, Hlc.
Qed.

Lemma gate_step_unsubscribe h o st : gate_step st (unsubscribe h o st).
Proof.
  unfold unsubscribe. destruct (streams st !! h) as [s|]; [|apply gate_step_refl].
  case_bool_decide; [|apply gate_step_refl].
  destruct (filter _ _); [|by apply (gate_step_same _ _ [])].
  destruct (phase s); [by apply (gate_step_same _ _ [])|..]; by apply gate_step_teardown.
Qed.

Lemma gate_step_fail h s err st : gate_step st (fail h s err st).
Proof.
  destruct (fail_fields h s err st) as (_ & _ & _ & _ & Htr & Hlc & _).
  exists (rev (map (λ o, Notified h o (Error err)) (observers s))).
  split; [apply not_gate_notify|]. right. right. by rewrite Htr, Hlc, <-app_assoc.
Qed.

Lemma gate_step_emit h s v st st0 :
  trace st0 = trace st → listenerCount st0 = listenerCount st →
  gate_step st (emit h s v st0).
Proof.
  intros Htr Hlc. destruct (emit_fields h s v st0) as (_ & _ & _ & _ & Htr' & Hlc' & _).
  eapply gate_step_same; [| rewrite Htr', Htr; reflexivity | by rewrite Hlc'].
  apply Forall_app. split; [apply not_gate_notify|by repeat constructor].
Qed.

Lemma gate_step_deliver h p st : gate_step st (deliver h p st).
Proof.
  unfold deliver. destruct (streams st !! h) as [s|]; [|apply gate_step_refl].
  destruct (promises st !! p) as [[r|]|]; [|apply gate_step_refl..].
  destruct (phase s) as [| |inners]; [apply gate_step_refl| |].
  - case_bool_decide; [|apply gate_step_refl]. destruct r as [rm|err].
    + destruct (gate_step_emit h s (mkSnapshot Initial rm) st st eq_refl eq_refl)
        as (pre & Hpre & Hcases).
      exists pre. split; [done|]. exact Hcases.
    + apply gate_step_fail.
  - case_bool_decide; [|apply gate_step_refl]. destruct r as [rm|err].
    + by apply gate_step_emit.
    + apply gate_step_fail.
Qed.

Lemma gate_step_on_updated ev h st : gate_step st (on_updated ev st h).
Proof.
  unfold on_updated. destruct (streams st !! h) as [s|]; [|apply gate_step_refl].
  destruct (phase s) as [| |inners]; [apply gate_step_refl..|].
  destruct (data ev) as [i|]; [|apply gate_step_fail].
  case_bool_decide; [|apply gate_step_refl].
  by apply (gate_step_same _ _ [CallRoomsGet (stream_ID s)]); [repeat constructor|..].
Qed.

Lemma gate_inv_trigger_updated ev st : gate_inv st → gate_inv (trigger_updated ev st).
Proof.
  unfold trigger_updated. generalize (updated_listeners st) as l.
  intros l. revert st. induction l as [|h l IH]; intros st Hok; [done|].
  cbn. apply IH. eapply gate_step_inv; [apply gate_step_on_updated|done].
Qed.

(** ** The activity side *)

Lemma activity_step_refl st : activity_step st st.
Proof. repeat split; try done. by exists []. Qed.

Lemma activity_step_trans st1 st2 st3 :
  activity_step st1 st2 → activity_step st2 st3 → activity_step st1 st3.
Proof.
  intros (? & ? & ? & ? & ? & ? & pre & Ht & Hq) (? & ? & ? & ? & ? & ? & pre' & Ht' & Hq').
  repeat split; try congruence; [lia|].
  exists (pre' ++ pre). rewrite Ht', Ht, app_assoc. split; [done|]. by apply Forall_app.
Qed.

Lemma activity_step_neutral st st' : activity_step st st' → neutral st st'.
Proof.
  intros (? & ? & ? & ? & ? & ? & pre & Ht & Hq). repeat split; try done.
  exists pre. split; [done|]. eapply Forall_impl; [exact Hq|]. by intros [].
Qed.

Lemma activity_step_gate st st' : activity_step st st' → gate_step st st'.
Proof.
  intros (? & ? & ? & ? & ? & ? & pre & Ht & Hq). apply (gate_step_same st st' pre); try done.
  eapply Forall_impl; [exact Hq|]. by intros [].
Qed.

Lemma activity_step_getRoomActivities K st : activity_step st (snd (getRoomActivities K st)).
Proof.
  unfold getRoomActivities. destruct (js_in K _); [apply activity_step_refl|].
  unfold activity_step. cbn. repeat split; try done.
  exists [CallMercuryOn (length (channels st))]. split; [done|]. by repeat constructor.
Qed.

Lemma activity_step_subscribe c st : activity_step st (subscribe_activities c st).
Proof.
  unfold subscribe_activities. destruct (channels st !! c) as [ch|]; [|apply activity_step_refl].
  unfold activity_step. cbn. repeat split; try done.
  - lia.
  - exists [ActivityNotified c (next_subscription st) (current ch)]. split; [done|].
    by repeat constructor.
Qed.

Lemma activity_step_unsubscribe c o st : activity_step st (unsubscribe_activities c o st).
Proof.
  unfold unsubscribe_activities, activity_step. cbn. repeat split; try done. by exists [].
Qed.

Lemma activity_step_next c ch a st : activity_step st (next_activity c ch a st).
Proof.
  unfold next_activity, activity_step. cbn. repeat split; try done.
  eexists. split; [done|]. apply Forall_rev, Forall_map, Forall_forall. done.
Qed.

Lemma activity_step_log_uncaught err st : activity_step st (log (Uncaught err) st).
Proof.
  unfold activity_step. cbn. repeat split; try done.
  exists [Uncaught err]. split; [done|]. by repeat constructor.
Qed.

Lemma channels_ok_alter (f : Channel → Channel) c st :
  (∀ ch, channel_ID (f ch) = channel_ID ch) →
  channels_ok st → channels_ok (set_channels (alter f c) st).
Proof.
  intros Hf H K c' HK. destruct (H K c' HK) as (Hp & ch & Hch & HID). split; [done|]. cbn.
  rewrite list_lookup_alter. case_decide as Hc.
  - subst c'. exists (f ch). rewrite Hch. split; [done|]. by rewrite Hf.
  - by exists ch.
Qed.

Lemma channels_ok_ext st st' :
  channels st' = channels st →
  getRoomActivitiesCache st' = getRoomActivitiesCache st →
  channels_ok st → channels_ok st'.
Proof. intros Hc Hg H. unfold channels_ok. by rewrite Hc, Hg. Qed.

Lemma channels_ok_kept st st' : channels_kept st st' → channels_ok st → channels_ok st'.
Proof. intros (? & ? & ?). by apply channels_ok_ext. Qed.

Lemma channels_ok_getRoomActivities K st :
  channels_ok st → channels_ok (snd (getRoomActivities K st)).
Proof.
  intros H. unfold getRoomActivities.
  destruct (js_in K _) eqn:Hin; [done|]. apply js_in_false in Hin as [_ Hproto].
  cbn. intros K' c. cbn.
  destruct (decide (K = K')) as [<-|Hne].
  - rewrite lookup_insert_eq. intros [= <-]. split; [done|]. exists (new_channel K).
    split; [apply lookup_new_stream|done].
  - rewrite lookup_insert_ne by done. intros HK'.
    destruct (H K' c HK') as (Hp & ch & Hch & HID). split; [done|].
    exists ch. split; [|done]. by apply lookup_app_l_Some.
Qed.

Lemma channels_ok_subscribe c st : channels_ok st → channels_ok (subscribe_activities c st).
Proof.
  intros H. unfold subscribe_activities. destruct (channels st !! c) as [ch|]; [|done].
  apply (channels_ok_alter _ c); [done|].
  by apply (channels_ok_ext st).
Qed.

Lemma channels_ok_unsubscribe c o st :
  channels_ok st → channels_ok (unsubscribe_activities c o st).
Proof. intros H. by apply channels_ok_alter. Qed.

Lemma channels_ok_next c ch a st : channels_ok st → channels_ok (next_activity c ch a st).
Proof.
  intros H. unfold next_activity.
  apply (channels_ok_ext
           (set_channels
              (alter (λ ch, mkChannel (channel_ID ch) (ActivityObject a) (channel_observers ch)) c)
              st)); [done..|].
  by apply channels_ok_alter.
Qed.

Section ActivityHandlers.
Variable deconstructHydraId : string → string.

Lemma on_activity_step a c st :
  activity_step st (completion_state (on_activity deconstructHydraId a c st)) ∧
  (channels_ok st → channels_ok (completion_state (on_activity deconstructHydraId a c st))).
Proof.
  unfold on_activity. destruct (channels st !! c) as [ch|]; [|split; [apply activity_step_refl|done]].
  destruct (act_target a) as [tid|]; [|split; [apply activity_step_refl|done]].
  case_bool_decide; [|split; [apply activity_step_refl|done]].
  destruct (act_object a) as [obj|], (act_actor a) as [actor|]; cbn;
    try (split; [apply activity_step_refl|done]).
  split; [apply activity_step_next|apply channels_ok_next].
Qed.

Lemma dispatch_activity_step a cs : ∀ st,
  activity_step st (completion_state (dispatch_activity deconstructHydraId a cs st)) ∧
  (channels_ok st →
   channels_ok (completion_state (dispatch_activity deconstructHydraId a cs st))).
Proof.
  induction cs as [|c cs IH]; intros st; [split; [apply activity_step_refl|done]|].
  cbn. destruct (on_activity_step a c st) as [Hstep Hch].
  destruct (on_activity deconstructHydraId a c st) as [st'|err st']; cbn in *; [|done].
  destruct (IH st') as [Hstep' Hch']. split.
  - by eapply activity_step_trans.
  - intros H. by apply Hch', Hch.
Qed.

Lemma mercury_activity_step a st :
  activity_step st (step deconstructHydraId st (MercuryActivity a)) ∧
  (channels_ok st → channels_ok (step deconstructHydraId st (MercuryActivity a))).
Proof.
  cbn. unfold trigger_activity.
  destruct (dispatch_activity_step a (activity_listeners st) st) as [Hstep Hch].
  destruct (dispatch_activity _ _ _ _) as [st'|err st']; cbn in *; [done|].
  split.
  - eapply activity_step_trans; [exact Hstep|apply activity_step_log_uncaught].
  - intros H. by apply Hch.
Qed.
End ActivityHandlers.

(** ** The room side leaves the activity channels alone *)

Lemma channels_kept_refl st : channels_kept st st.
Proof. done. Qed.

Lemma channels_kept_trans st1 st2 st3 :
  channels_kept st1 st2 → channels_kept st2 st3 → channels_kept st1 st3.
Proof. intros (? & ? & ?) (? & ? & ?). repeat split; congruence. Qed.

Lemma channels_kept_getRoom K st : channels_kept st (snd (getRoom K st)).
Proof.
  unfold getRoom. destruct (js_in K _); [done|].
  unfold channels_kept, startListeningToRoomUpdates. cbn.
  by destruct (bool_decide (listenerCount st = 0%Z)).
Qed.

Lemma channels_kept_subscribe h st : channels_kept st (subscribe h st).
Proof.
  unfold subscribe. destruct (streams st !! h) as [s|]; [|done].
  by destruct (replay s), (thrown s).
Qed.

Lemma channels_kept_teardown h s st : channels_kept st (teardown h s st).
Proof. destruct (teardown_fields h s st) as (_ & _ & _ & _ & _ & _ & _ & ? & ? & ?). done. Qed.

Lemma channels_kept_fail h s err st : channels_kept st (fail h s err st).
Proof. destruct (fail_fields h s err st) as (_ & _ & _ & _ & _ & _ & _ & ? & ? & ?). done. Qed.

Lemma channels_kept_unsubscribe h o st : channels_kept st (unsubscribe h o st).
Proof.
  unfold unsubscribe. destruct (streams st !! h) as [s|]; [|done].
  case_bool_decide; [|done]. destruct (filter _ _); [|done].
  destruct (phase s); [done|..];
    apply (channels_kept_trans _ (update_stream h (set_observers []) st)); try done;
    apply channels_kept_teardown.
Qed.

Lemma channels_kept_settle p o st : channels_kept st (settle p o st).
Proof. unfold settle. by destruct (promises st !! p) as [[?|]|]. Qed.

Lemma channels_kept_deliver h p st : channels_kept st (deliver h p st).
Proof.
  unfold deliver. destruct (streams st !! h) as [s|]; [|done].
  destruct (promises st !! p) as [[r|]|]; [|done..].
  destruct (phase s) as [| |inners]; [done| |].
  - case_bool_decide; [|done]. destruct r; [done|apply channels_kept_fail].
  - case_bool_decide; [|done]. destruct r; [done|apply channels_kept_fail].
Qed.

Lemma channels_kept_on_updated ev h st : channels_kept st (on_updated ev st h).
Proof.
  unfold on_updated. destruct (streams st !! h) as [s|]; [|done].
  destruct (phase s) as [| |inners]; [done..|].
  destruct (data ev) as [i|]; [|apply channels_kept_fail].
  by case_bool_decide.
Qed.

Lemma channels_kept_trigger_updated ev st : channels_kept st (trigger_updated ev st).
Proof.
  unfold trigger_updated. generalize (updated_listeners st) as l.
  intros l. revert st. induction l as [|h l IH]; intros st; [done|].
  cbn. eapply channels_kept_trans; [apply channels_kept_on_updated|apply IH].
Qed.

Lemma neutral_settle p o st : neutral st (settle p o st).
Proof.
  unfold settle. destruct (promises st !! p) as [[?|]|]; try apply neutral_refl.
  repeat split; try done. by exists [].
Qed.

Lemma gate_step_settle p o st : gate_step st (settle p o st).
Proof.
  unfold settle. destruct (promises st !! p) as [[?|]|]; try apply gate_step_refl.
  by apply (gate_step_same _ _ []).
Qed.

(** ** Every reachable state is well formed *)

Lemma wf_initial : wf initial_state.
Proof.
  split; [split|..].
  - intros h s. cbn. by rewrite lookup_nil.
  - split; [constructor|]. intros h s. cbn. by rewrite lookup_nil.
  - intros h. cbn. by rewrite elem_of_nil.
  - intros h s. cbn. by rewrite lookup_nil.
  - intros h s. cbn. by rewrite lookup_nil.
  - intros K h. cbn. by rewrite lookup_empty.
  - intros K c. cbn. by rewrite lookup_empty.
  - apply gate_inv_initial.
Qed.

Section Reachable.
Variable deconstructHydraId : string → string.

Lemma wf_step st a : wf st → wf (step deconstructHydraId st a).
Proof.
  intros [Hr Hc Hg]. destruct a as [K|h|h o|p o|h p|ev|K|c|c o|a].
  - split; [by apply rooms_ok_getRoom| |].
    + eapply channels_ok_kept; [apply channels_kept_getRoom|done].
    + eapply gate_step_inv; [apply gate_step_getRoom|done].
  - split; [by apply rooms_ok_subscribe| |].
    + eapply channels_ok_kept; [apply channels_kept_subscribe|done].
    + eapply gate_step_inv; [apply gate_step_subscribe|done].
  - split; [by apply rooms_ok_unsubscribe| |].
    + eapply channels_ok_kept; [apply channels_kept_unsubscribe|done].
    + eapply gate_step_inv; [apply gate_step_unsubscribe|done].
  - split; [eapply rooms_ok_neutral; [apply neutral_settle|done]| |].
    + eapply channels_ok_kept; [apply channels_kept_settle|done].
    + eapply gate_step_inv; [apply gate_step_settle|done].
  - split; [by apply rooms_ok_deliver| |].
    + eapply channels_ok_kept; [apply channels_kept_deliver|done].
    + eapply gate_step_inv; [apply gate_step_deliver|done].
  - split; [by apply rooms_ok_trigger_updated| |].
    + eapply channels_ok_kept; [apply channels_kept_trigger_updated|done].
    + by apply gate_inv_trigger_updated.
  - pose proof (activity_step_getRoomActivities K st) as Hstep.
    split; [eapply rooms_ok_neutral; [by apply activity_step_neutral|done]| |].
    + by apply channels_ok_getRoomActivities.
    + eapply gate_step_inv; [by apply activity_step_gate|done].
  - pose proof (activity_step_subscribe c st) as Hstep.
    split; [eapply rooms_ok_neutral; [by apply activity_step_neutral|done]| |].
    + by apply channels_ok_subscribe.
    + eapply gate_step_inv; [by apply activity_step_gate|done].
  - pose proof (activity_step_unsubscribe c o st) as Hstep.
    split; [eapply rooms_ok_neutral; [by apply activity_step_neutral|done]| |].
    + by apply channels_ok_unsubscribe.
    + eapply gate_step_inv; [by apply activity_step_gate|done].
  - destruct (mercury_activity_step deconstructHydraId a st) as [Hstep Hch].
    split; [eapply rooms_ok_neutral; [by apply activity_step_neutral|done]| |].
    + by apply Hch.
    + eapply gate_step_inv; [by apply activity_step_gate|done].
Qed.

Lemma wf_run acts : ∀ st, wf st → wf (run deconstructHydraId acts st).
Proof.
  induction acts as [|a acts IH]; intros st H; [done|].
  cbn. apply IH. by apply wf_step.
Qed.

Lemma wf_reachable st : reachable deconstructHydraId st → wf st.
Proof. intros [acts ->]. apply wf_run, wf_initial. Qed.

(** The adapter reaches the gate only through [getRoom] and the teardown of a
    stream, so in every reachable state two calls of [rooms.listen()] are
    separated by a call of [rooms.stopListening()]. *)
Lemma adapter_listen_separated acts l3 l2 l1 :
  trace (run deconstructHydraId acts initial_state)
  = l3 ++ CallRoomsListen :: l2 ++ CallRoomsListen :: l1 →
  CallRoomsStopListening ∈ l2.
Proof.
  intros Htr. destruct (wf_gate _ (wf_run acts _ wf_initial)) as [Hsep _].
  by eapply listen_separated_between.
Qed.
End Reachable.

(** * Properties of the room streams *)

Lemma count_events_app f l1 l2 :
  count_events f (l1 ++ l2) = count_events f l1 + count_events f l2.
Proof. unfold count_events. by rewrite List.filter_app, length_app. Qed.

Lemma count_release_events st : count_events is_release (release_events st) = 1.
Proof. unfold release_events. by destruct (bool_decide _). Qed.

Lemma count_release_notify h os n :
  count_events is_release (rev (map (λ o, Notified h o n) os)) = 0.
Proof.
  induction os as [|o os IH]; [done|]. cbn [map rev]. rewrite count_events_app, IH. done.
Qed.

Lemma notify_elem h o os n : o ∈ os → Notified h o n ∈ rev (map (λ o, Notified h o n) os).
Proof.
  intros Hin. apply list_elem_of_In, in_rev. rewrite rev_involutive.
  apply in_map_iff. exists o. split; [done|]. by apply list_elem_of_In.
Qed.

(** A call of [getRoom(K)] that follows the eviction of [K]. *)
Lemma getRoom_after_eviction K st :
  getRoomObservables st !! K = None →
  K ∉ object_prototype_keys →
  let h := length (streams st) in
  let st' := snd (getRoom K st) in
  fst (getRoom K st) = VObservable h ∧
  getRoomObservables st' !! K = Some h ∧
  streams st' !! h = Some (new_stream K (length (promises st))) ∧
  promises st' !! length (promises st) = Some None ∧
  trace st' = CallRoomsGet K :: acquire_events st ++ trace st.
Proof.
  intros HK Hp. assert (Hin : js_in K (getRoomObservables st) = false) by by apply js_in_false.
  destruct (getRoom_miss K st Hin) as (Hv & Hc & Hs & Hps & _ & _ & Htr).
  cbn in *. rewrite Hv, Hc, Hs, Hps, Htr. repeat split.
  - apply lookup_insert_eq.
  - apply lookup_new_stream.
  - apply lookup_new_stream.
  - unfold acquire_events. by rewrite <-app_assoc.
Qed.

Lemma emit_notifies h s w st o :
  o ∈ observers s → Notified h o (Next w) ∈ trace (emit h s w st).
Proof.
  intros Hin. destruct (emit_fields h s w st) as (_ & _ & _ & _ & Htr & _).
  rewrite Htr. apply elem_of_app. left. apply elem_of_app. left. by apply notify_elem.
Qed.

Lemma tail_updates_first lr :
  tail_updates lr = true →
  ∀ j w, rev lr !! j = Some w → is_update w = false → j = 0.
Proof.
  induction lr as [|v lr IH]; intros Ht j w Hj Hw; [by destruct j|].
  cbn [rev] in Hj. apply tail_updates_cons in Ht as [->|[Hv Ht]].
  - cbn in Hj. by destruct j.
  - apply lookup_app_Some in Hj as [Hj|[_ Hj]]; [by eapply IH|].
    apply list_lookup_singleton_Some in Hj as [_ <-]. congruence.
Qed.

Lemma initial_first_updates l : forallb is_update l = true → initial_first l = true.
Proof.
  induction l as [|v l IH]; [done|]. cbn. intros [Hv Hl]%andb_true_iff. by rewrite Hv.
Qed.

Lemma initial_first_intro l :
  (∀ j w, l !! j = Some w → is_update w = false → j = 0) → initial_first l = true.
Proof.
  intros H. destruct l as [|v l]; [done|].
  assert (Hl : forallb is_update l = true).
  { apply forallb_forall. intros w [j Hj]%list_elem_of_In%list_elem_of_lookup.
    destruct (is_update w) eqn:Hw; [done|]. by specialize (H (S j) w Hj Hw). }
  cbn. destruct (is_update v); [done|]. by apply initial_first_updates.
Qed.

Lemma not_about_notify h h' os n :
  h' ≠ h → Forall (λ e, ¬ about_stream h e) (rev (map (λ o, Notified h' o n) os)).
Proof. intros Hne. apply Forall_rev, Forall_map, Forall_forall. intros o _. cbn. done. Qed.

Lemma not_about_release h st : Forall (λ e, ¬ about_stream h e) (release_events st).
Proof.
  eapply Forall_impl; [apply quiet_release_events|].
  intros e He. destruct e; cbn in *; tauto.
Qed.

Lemma no_fetch_in_fail h err os st ID :
  CallRoomsGet ID ∉ rev (map (λ o, Notified h o (Error err)) os) ++ release_events st.
Proof.
  intros [Hin|Hin]%elem_of_app.
  - apply list_elem_of_In, in_rev in Hin.
    apply in_map_iff in Hin as (o & Ho & _). done.
  - unfold release_events in Hin. destruct (bool_decide _); cbn in Hin;
      repeat (apply elem_of_cons in Hin as [Hin|Hin]; [done|]); by apply elem_of_nil in Hin.
Qed.

(** The handler of another stream leaves stream [h] alone. *)
Lemma on_updated_other ev h h' st :
  h' ≠ h →
  let st' := on_updated ev st h' in
  streams st' !! h = streams st !! h ∧
  (∀ k, stream_ID <$> (streams st' !! k) = stream_ID <$> (streams st !! k)) ∧
  ∃ pre, trace st' = pre ++ trace st ∧
         Forall (λ e, ¬ about_stream h e) pre ∧
         ∀ ID, CallRoomsGet ID ∈ pre → ∃ s', streams st !! h' = Some s' ∧ stream_ID s' = ID.
Proof.
  intros Hne. unfold on_updated.
  assert (Hsame : streams st !! h = streams st !! h ∧
    (∀ k, stream_ID <$> (streams st !! k) = stream_ID <$> (streams st !! k)) ∧
    ∃ pre, trace st = pre ++ trace st ∧ Forall (λ e, ¬ about_stream h e) pre ∧
      ∀ ID, CallRoomsGet ID ∈ pre → ∃ s', streams st !! h' = Some s' ∧ stream_ID s' = ID).
  { repeat split. exists []. repeat split; [constructor|]. intros ID Hin. by apply elem_of_nil in Hin. }
  destruct (streams st !! h') as [s'|] eqn:Hs'; [|done].
  destruct (phase s') as [| |inners]; [done..|].
  destruct (data ev) as [i|].
  - case_bool_decide; [|done]. cbn. split; [by rewrite list_lookup_alter_ne|]. split.
    + intros k. rewrite list_lookup_alter. case_decide; [|done]. subst k.
      rewrite Hs'. by destruct (streams st !! h').
    + exists [CallRoomsGet (stream_ID s')]. split; [done|]. split.
      * constructor; [|constructor]. cbn. tauto.
      * intros ID Hin%list_elem_of_singleton. injection Hin as ->. by exists s'.
  - destruct (fail_fields h' s' "TypeError" st) as (Hstr & _ & _ & _ & Htr & _).
    rewrite Hstr, Htr. split; [by rewrite list_lookup_alter_ne|]. split.
    + intros k. rewrite list_lookup_alter. case_decide; [|done]. subst k.
      by rewrite Hs'.
    + eexists. split; [done|]. split.
      * apply Forall_app. split; [by apply not_about_notify|apply not_about_release].
      * intros ID Hin. by apply no_fetch_in_fail in Hin.
Qed.

Lemma trigger_updated_other ev h l : ∀ st,
  h ∉ l →
  let st' := foldl (on_updated ev) st l in
  streams st' !! h = streams st !! h ∧
  ∃ pre, trace st' = pre ++ trace st ∧
         Forall (λ e, ¬ about_stream h e) pre ∧
         ∀ ID, CallRoomsGet ID ∈ pre →
               ∃ h' s', h' ∈ l ∧ streams st !! h' = Some s' ∧ stream_ID s' = ID.
Proof.
  induction l as [|h' l IH]; intros st Hnot.
  - cbn. split; [done|]. exists []. repeat split; [constructor|].
    intros ID Hin. by apply elem_of_nil in Hin.
  - apply not_elem_of_cons in Hnot as [Hne Hnot]. cbn.
    destruct (on_updated_other ev h h' st) as (Hh & Hids & pre1 & Htr1 & Hpre1 & Hget1); [done|].
    destruct (IH (on_updated ev st h') Hnot) as (Hh' & pre2 & Htr2 & Hpre2 & Hget2).
    split; [by rewrite Hh'|]. exists (pre2 ++ pre1). split; [by rewrite Htr2, Htr1, app_assoc|].
    split; [by apply Forall_app|]. intros ID [Hin|Hin]%elem_of_app.
    + destruct (Hget2 ID Hin) as (h2 & s2 & Hin2 & Hs2 & HID2).
      pose proof (Hids h2) as Hid. rewrite Hs2 in Hid. cbn in Hid.
      destruct (streams st !! h2) as [s0|] eqn:Hs0; [|done]. cbn in Hid.
      exists h2, s0. split; [by apply list_elem_of_further|]. split; [done|]. congruence.
    + destruct (Hget1 ID Hin) as (s1 & Hs1 & HID1). exists h', s1.
      split; [apply list_elem_of_here|done].
Qed.

Section RoomClaims.
Variable deconstructHydraId : string → string.

(** C3: when the only subscription of a stream is unsubscribed, the
    teardown runs once: [stopListeningToRoomUpdates] is entered exactly
    once, the cache entry of the stream's ID is removed, the stream is left
    disconnected without subscriptions, and unsubscribing again does
    nothing.  The next [getRoom] of that ID creates another observable,
    calling [rooms.get] and entering [startListeningToRoomUpdates]. *)
Theorem last_unsubscribe_tears_down_once acts h s o :
  let st := run deconstructHydraId acts initial_state in
  streams st !! h = Some s →
  observers s = [o] →
  let K := stream_ID s in
  let st' := unsubscribe h o st in
  trace st' = release_events st ++ trace st ∧
  count_events is_release (trace st') = S (count_events is_release (trace st)) ∧
  listenerCount st' = (listenerCount st - 1)%Z ∧
  getRoomObservables st' = delete K (getRoomObservables st) ∧
  streams st' !! h = Some (set_phase Idle (set_observers [] s)) ∧
  unsubscribe h o st' = st' ∧
  let h' := length (streams st') in
  let st'' := snd (getRoom K st') in
  h ≠ h' ∧
  fst (getRoom K st') = VObservable h' ∧
  getRoomObservables st'' !! K = Some h' ∧
  streams st'' !! h' = Some (new_stream K (length (promises st'))) ∧
  trace st'' = CallRoomsGet K :: acquire_events st' ++ trace st'.
Proof.
  intros st Hs Hobs K st'.
  pose proof (wf_run deconstructHydraId acts _ wf_initial) as [[Hids Hf Hl Hc Hr Hca] _ _].
  fold st in Hids, Hf, Hl, Hc, Hr, Hca.
  destruct (Hc h s Hs) as [Hidle _].
  assert (Hph : phase s ≠ Idle) by (rewrite Hidle, Hobs; done).
  assert (Hst' : st' = teardown h s (update_stream h (set_observers []) st)).
  { subst st'. unfold unsubscribe. rewrite Hs, Hobs.
    rewrite bool_decide_eq_true_2 by apply list_elem_of_here.
    rewrite filter_cons_False, filter_nil by naive_solver.
    by destruct (phase s). }
  destruct (teardown_fields h s (update_stream h (set_observers []) st))
    as (Hstr & Hgr & _ & _ & Htr & Hlc & _).
  rewrite <-Hst' in Hstr, Hgr, Htr, Hlc. cbn in Hstr, Hgr, Htr, Hlc.
  assert (Hh : streams st' !! h = Some (set_phase Idle (set_observers [] s))).
  { rewrite Hstr, list_alter_alter_eq, list_lookup_alter_eq, Hs. done. }
  assert (HK : getRoomObservables st' !! K = None).
  { rewrite Hgr. apply lookup_delete_eq. }
  destruct (getRoom_after_eviction K st' HK (Hids h s Hs)) as (Hv & Hc' & Hs' & _ & Htr').
  repeat split; try done.
  - rewrite Htr, count_events_app, count_release_events. done.
  - unfold unsubscribe. rewrite Hh. cbn. by rewrite bool_decide_eq_false_2 by apply not_elem_of_nil.
  - apply lookup_lt_Some in Hh. lia.
Qed.

(** C6 (amended): on the stream that is cached for an ID, the snapshots a
    subscription has received are ordered: no update-derived snapshot comes
    before a snapshot of the initial fetch.  A subscription that waits for
    the first fetch receives the initial snapshot as its first snapshot; one
    that joins later starts with the replayed snapshot. *)
Theorem initial_snapshot_precedes_updates acts K h o :
  let st := run deconstructHydraId acts initial_state in
  getRoomObservables st !! K = Some h →
  initial_first (received h o (trace st)) = true ∧
  (∀ i j v w,
     received h o (trace st) !! i = Some v →
     received h o (trace st) !! j = Some w →
     origin v = Update → origin w = Initial → j < i) ∧
  (∀ s rm,
     streams st !! h = Some s →
     phase s = AwaitingRoom →
     promises st !! room_promise s = Some (Some (Fulfilled rm)) →
     o ∈ observers s →
     received h o (trace (deliver h (room_promise s) st)) = [mkSnapshot Initial rm]).
Proof.
  intros st HK.
  pose proof (wf_run deconstructHydraId acts _ wf_initial) as [[Hids Hf Hl Hc Hr Hca] _ _].
  fold st in Hids, Hf, Hl, Hc, Hr, Hca.
  destruct (Hca K h HK) as (s & Hs & HID & Hth & Hquiet & Hord).
  pose proof (tail_updates_first _ (Hord o)) as Hfirst.
  split; [|split].
  - by apply initial_first_intro.
  - intros i j v w Hi Hj Hv Hw.
    assert (j = 0) as -> by (apply (Hfirst j w Hj); unfold is_update; by rewrite Hw).
    destruct i as [|i]; [|lia]. rewrite Hi in Hj. injection Hj as ->. congruence.
  - intros s0 rm Hs0 Hph Hp Ho. assert (s0 = s) as -> by congruence.
    destruct Hquiet as [_ Hempty]; [by rewrite Hph|].
    unfold deliver. rewrite Hs, Hp, Hph. rewrite bool_decide_eq_true_2 by done.
    destruct (emit_fields h s (mkSnapshot Initial rm) st) as (_ & _ & _ & _ & Htr & _).
    cbn [trace update_stream set_streams set_updated_listeners]. rewrite Htr.
    unfold received. rewrite received_rev_emit, Hempty by apply (proj2 Hf h s Hs).
    by rewrite bool_decide_eq_true_2.
Qed.

(** C7 (amended): when the fetch that a connected stream waits for (the
    first fetch, or a re-fetch after an update event) has been rejected, the
    stream has subscriptions, and the reaction notifies each of them of the
    error, stops the subject and leaves it without subscriptions, and runs
    the teardown:
    [stopListeningToRoomUpdates] is entered once and the cache entry of the ID
    is removed.  The next [getRoom] of that ID creates another observable and
    calls [rooms.get] again. *)
Theorem fetch_rejection_errors_and_evicts acts h s p err :
  let st := run deconstructHydraId acts initial_state in
  streams st !! h = Some s →
  awaits s p →
  promises st !! p = Some (Some (Rejected err)) →
  let K := stream_ID s in
  let st' := deliver h p st in
  observers s ≠ [] ∧
  (∀ o, o ∈ observers s → Notified h o (Error err) ∈ trace st') ∧
  trace st' = rev (map (λ o, Notified h o (Error err)) (observers s))
              ++ release_events st ++ trace st ∧
  count_events is_release (trace st') = S (count_events is_release (trace st)) ∧
  listenerCount st' = (listenerCount st - 1)%Z ∧
  streams st' !! h
    = Some (set_observers [] (set_thrown err (set_phase Idle s))) ∧
  getRoomObservables st' = delete K (getRoomObservables st) ∧
  let h' := length (streams st') in
  let st'' := snd (getRoom K st') in
  h ≠ h' ∧
  fst (getRoom K st') = VObservable h' ∧
  getRoomObservables st'' !! K = Some h' ∧
  streams st'' !! h' = Some (new_stream K (length (promises st'))) ∧
  trace st'' = CallRoomsGet K :: acquire_events st' ++ trace st'.
Proof.
  intros st Hs Haw Hp K st'.
  pose proof (wf_run deconstructHydraId acts _ wf_initial) as [[Hids Hf Hl Hc Hr Hca] _ _].
  fold st in Hids, Hf, Hl, Hc, Hr, Hca.
  destruct (Hc h s Hs) as [Hidle _].
  assert (Hph : phase s ≠ Idle) by (unfold awaits in Haw; by destruct (phase s)).
  assert (Hobs : observers s ≠ []) by by rewrite <-Hidle.
  assert (Hst' : st' = fail h s err st).
  { subst st'. unfold deliver. rewrite Hs, Hp.
    unfold awaits in Haw. destruct (phase s) as [| |inners]; [done| |].
    - by rewrite bool_decide_eq_true_2.
    - by rewrite bool_decide_eq_true_2. }
  destruct (fail_fields h s err st) as (Hstr & Hgr & _ & _ & Htr & Hlc & _).
  rewrite <-Hst' in Hstr, Hgr, Htr, Hlc.
  assert (Hh : streams st' !! h = Some (set_observers [] (set_thrown err (set_phase Idle s)))).
  { by rewrite Hstr, list_lookup_alter_eq, Hs. }
  assert (HK : getRoomObservables st' !! K = None).
  { rewrite Hgr. apply lookup_delete_eq. }
  destruct (getRoom_after_eviction K st' HK (Hids h s Hs)) as (Hv & Hc' & Hs' & _ & Htr').
  repeat split; try done.
  - intros o Ho. rewrite Htr. apply elem_of_app. left. apply elem_of_app. left.
    by apply notify_elem.
  - by rewrite Htr, <-app_assoc.
  - rewrite Htr, !count_events_app, count_release_events, count_release_notify. done.
  - apply lookup_lt_Some in Hh. lia.
Qed.

(** C10: while a stream waits for its first fetch it has no handler on
    [updated]: an update event leaves the stream as it is, adds no emission
    and no notification of that stream to the trace, and every call of
    [rooms.get] it causes is the re-fetch of another stream, one that is
    subscribed to [roomUpdate$].  The handler is registered when the first
    fetch is delivered. *)
Theorem update_during_first_fetch_is_lost acts h s ev :
  let st := run deconstructHydraId acts initial_state in
  streams st !! h = Some s →
  phase s = AwaitingRoom →
  let st' := trigger_updated ev st in
  (h ∉ updated_listeners st) ∧
  streams st' !! h = Some s ∧
  (∃ pre, trace st' = pre ++ trace st ∧
          Forall (λ e, ¬ about_stream h e) pre ∧
          ∀ ID, CallRoomsGet ID ∈ pre →
                ∃ h' s', h' ≠ h ∧ h' ∈ updated_listeners st ∧
                         streams st !! h' = Some s' ∧ stream_ID s' = ID) ∧
  (∀ rm, promises st !! room_promise s = Some (Some (Fulfilled rm)) →
         h ∈ updated_listeners (deliver h (room_promise s) st)).
Proof.
  intros st Hs Hph st'.
  pose proof (wf_run deconstructHydraId acts _ wf_initial) as [[Hids Hf Hl Hc Hr Hca] _ _].
  fold st in Hids, Hf, Hl, Hc, Hr, Hca.
  assert (Hnot : h ∉ updated_listeners st).
  { intros Hin. destruct (Hl h Hin) as (s0 & Hs0 & Hlis).
    assert (s0 = s) as -> by congruence. by rewrite Hph in Hlis. }
  destruct (trigger_updated_other ev h (updated_listeners st) st Hnot)
    as (Hkeep & pre & Htr & Hpre & Hget).
  split; [done|]. split; [by rewrite <-Hs|]. split.
  - exists pre. split; [done|]. split; [done|]. intros ID HID.
    destruct (Hget ID HID) as (h' & s' & Hin & Hs' & HID'). exists h', s'.
    repeat split; try done. intros ->. done.
  - intros rm Hp. unfold deliver. rewrite Hs, Hp, Hph.
    rewrite bool_decide_eq_true_2 by done. cbn.
    apply elem_of_app. right. by apply list_elem_of_singleton.
Qed.
End RoomClaims.

(** * Properties of the activity channels *)

Lemma js_get_insert_other K K' c (own : gmap string nat) :
  js_in K own = true → js_in K' own = false →
  js_get K (<[K' := c]> own) = js_get K own ∧ js_in K (<[K' := c]> own) = true.
Proof.
  intros HK HK'. assert (K' ≠ K) by (intros ->; congruence).
  unfold js_get, js_in in *. by rewrite lookup_insert_ne.
Qed.

Section ActivityClaims.
Variable deconstructHydraId : string → string.

Lemma dispatch_activity_cache a cs : ∀ st,
  getRoomActivitiesCache (completion_state (dispatch_activity deconstructHydraId a cs st))
  = getRoomActivitiesCache st.
Proof.
  induction cs as [|c cs IH]; intros st; [done|]. cbn.
  assert (Hc : getRoomActivitiesCache (completion_state (on_activity deconstructHydraId a c st))
               = getRoomActivitiesCache st).
  { unfold on_activity. destruct (channels st !! c) as [ch|]; [|done].
    destruct (act_target a) as [tid|]; [|done]. case_bool_decide; [|done].
    by destruct (act_object a), (act_actor a). }
  destruct (on_activity deconstructHydraId a c st) as [st'|err st']; cbn in *; [|done].
  by rewrite IH.
Qed.

(** An ID that [in] finds in the activity cache keeps its value. *)
Lemma activities_cache_step K st a :
  js_in K (getRoomActivitiesCache st) = true →
  js_get K (getRoomActivitiesCache (step deconstructHydraId st a)) = js_get K (getRoomActivitiesCache st) ∧
  js_in K (getRoomActivitiesCache (step deconstructHydraId st a)) = true.
Proof.
  intros HK.
  assert (Hkept : ∀ st', channels_kept st st' →
            js_get K (getRoomActivitiesCache st') = js_get K (getRoomActivitiesCache st) ∧
            js_in K (getRoomActivitiesCache st') = true).
  { intros st' (_ & -> & _). done. }
  destruct a as [K'|h|h o|p o|h p|ev|K'|c|c o|a]; cbn [step].
  - apply Hkept, channels_kept_getRoom.
  - apply Hkept, channels_kept_subscribe.
  - apply Hkept, channels_kept_unsubscribe.
  - apply Hkept, channels_kept_settle.
  - apply Hkept, channels_kept_deliver.
  - apply Hkept, channels_kept_trigger_updated.
  - unfold getRoomActivities. destruct (js_in K' _) eqn:HK'; [done|]. cbn.
    by apply js_get_insert_other.
  - unfold subscribe_activities. by destruct (channels st !! c).
  - done.
  - unfold trigger_activity.
    pose proof (dispatch_activity_cache a (activity_listeners st) st) as Hc.
    destruct (dispatch_activity deconstructHydraId a (activity_listeners st) st); cbn in *; by rewrite Hc.
Qed.

Lemma activities_cache_run K acts : ∀ st,
  js_in K (getRoomActivitiesCache st) = true →
  js_get K (getRoomActivitiesCache (run deconstructHydraId acts st)) = js_get K (getRoomActivitiesCache st) ∧
  js_in K (getRoomActivitiesCache (run deconstructHydraId acts st)) = true.
Proof.
  induction acts as [|a acts IH]; intros st HK; [done|].
  change (run deconstructHydraId (a :: acts) st)
    with (run deconstructHydraId acts (step deconstructHydraId st a)).
  destruct (activities_cache_step K st a HK) as [Hget Hin].
  destruct (IH _ Hin) as [Hget' Hin']. split; [congruence|done].
Qed.

Lemma getRoomActivities_cached K st :
  js_in K (getRoomActivitiesCache st) = true →
  getRoomActivities K st = (js_get K (getRoomActivitiesCache st), st).
Proof. intros H. unfold getRoomActivities. by rewrite H. Qed.

Lemma getRoomActivities_caches K st :
  js_in K (getRoomActivitiesCache (snd (getRoomActivities K st))) = true ∧
  fst (getRoomActivities K st)
  = js_get K (getRoomActivitiesCache (snd (getRoomActivities K st))).
Proof.
  unfold getRoomActivities.
  destruct (js_in K (getRoomActivitiesCache st)) eqn:HK; [done|]. cbn.
  split; [|done]. unfold js_in. by rewrite lookup_insert_eq.
Qed.

(** The handler of another channel leaves channel [c] alone. *)
Lemma on_activity_other a c c' st :
  c' ≠ c →
  let st' := completion_state (on_activity deconstructHydraId a c' st) in
  channels st' !! c = channels st !! c ∧
  ∃ pre, trace st' = pre ++ trace st ∧ Forall (λ e, ¬ about_channel c e) pre.
Proof.
  intros Hne. unfold on_activity.
  assert (Hsame : channels st !! c = channels st !! c ∧
            ∃ pre, trace st = pre ++ trace st ∧ Forall (λ e, ¬ about_channel c e) pre).
  { split; [done|]. exists []. split; [done|constructor]. }
  destruct (channels st !! c') as [ch|]; [|done].
  destruct (act_target a) as [tid|]; [|done]. case_bool_decide; [|done].
  destruct (act_object a), (act_actor a); try done. cbn.
  split; [by rewrite list_lookup_alter_ne|].
  eexists. split; [done|]. apply Forall_rev, Forall_map, Forall_forall. intros o' _. cbn. done.
Qed.

(** The handler of channel [c] drops an event whose target is not the
    decoded ID of the channel. *)
Lemma on_activity_mismatch a c ch st :
  channels st !! c = Some ch →
  act_target a ≠ Some (Some (deconstructHydraId (channel_ID ch))) →
  on_activity deconstructHydraId a c st = Returned st.
Proof.
  intros Hch Hne. unfold on_activity. rewrite Hch.
  destruct (act_target a) as [tid|]; [|done].
  rewrite bool_decide_eq_false_2; [done|]. congruence.
Qed.

Lemma dispatch_activity_mismatch a c ch cs : ∀ st,
  channels st !! c = Some ch →
  act_target a ≠ Some (Some (deconstructHydraId (channel_ID ch))) →
  let st' := completion_state (dispatch_activity deconstructHydraId a cs st) in
  channels st' !! c = Some ch ∧
  ∃ pre, trace st' = pre ++ trace st ∧ Forall (λ e, ¬ about_channel c e) pre.
Proof.
  induction cs as [|c' cs IH]; intros st Hch Hne.
  - cbn. split; [done|]. exists []. split; [done|constructor].
  - cbn. destruct (decide (c' = c)) as [->|Hc].
    + rewrite (on_activity_mismatch a c ch st Hch Hne). by apply IH.
    + destruct (on_activity_other a c c' st Hc) as (Hkeep & pre1 & Htr1 & Hpre1).
      destruct (on_activity deconstructHydraId a c' st) as [st1|err st1]; cbn in *.
      * destruct (IH st1) as (Hkeep' & pre2 & Htr2 & Hpre2); [congruence|done|].
        split; [done|]. exists (pre2 ++ pre1).
        split; [by rewrite Htr2, Htr1, app_assoc|by apply Forall_app].
      * split; [congruence|]. by exists pre1.
Qed.

(** C9: [getRoomActivities(K)] returns the same value on every call: the
    second call returns what the first returned and changes nothing, and so
    does a call made after any further actions.  When that value is a
    channel, an activity event whose [target.id] is not the decoded [K] (or
    whose [target] is missing) leaves the channel as it is and notifies none
    of its subscriptions, whenever it arrives. *)
Theorem getRoomActivities_same_channel_and_filter acts K :
  let st := run deconstructHydraId acts initial_state in
  let v := fst (getRoomActivities K st) in
  let st1 := snd (getRoomActivities K st) in
  getRoomActivities K st1 = (v, st1) ∧
  (∀ acts', getRoomActivities K (run deconstructHydraId acts' st1) = (v, run deconstructHydraId acts' st1)) ∧
  (∀ acts' c a,
     v = VObservable c →
     act_target a ≠ Some (Some (deconstructHydraId K)) →
     let st2 := run deconstructHydraId acts' st1 in
     let st3 := step deconstructHydraId st2 (MercuryActivity a) in
     channels st3 !! c = channels st2 !! c ∧
     (∃ ch, channels st2 !! c = Some ch ∧ channel_ID ch = K) ∧
     ∃ pre, trace st3 = pre ++ trace st2 ∧ Forall (λ e, ¬ about_channel c e) pre).
Proof.
  intros st v st1.
  destruct (getRoomActivities_caches K st) as [Hin Hv]. fold st1 in Hin, Hv. fold v in Hv.
  assert (Hlater : ∀ acts', getRoomActivities K (run deconstructHydraId acts' st1) = (v, run deconstructHydraId acts' st1)).
  { intros acts'. destruct (activities_cache_run K acts' st1 Hin) as [Hget Hin'].
    rewrite getRoomActivities_cached by done. by rewrite Hget, Hv. }
  split; [apply (Hlater [])|]. split; [done|].
  intros acts' c a Hvc Hne st2 st3.
  destruct (activities_cache_run K acts' st1 Hin) as [Hget _]. fold st2 in Hget.
  rewrite <-Hv, Hvc in Hget.
  assert (HK : getRoomActivitiesCache st2 !! K = Some c).
  { unfold js_get in Hget. destruct (getRoomActivitiesCache st2 !! K); [congruence|].
    by destruct (bool_decide _). }
  assert (Hwf : wf st2).
  { subst st2 st1 st. apply wf_run.
    apply (wf_step deconstructHydraId _ (GetRoomActivities K)), wf_run, wf_initial. }
  destruct (wf_channels _ Hwf K c HK) as (_ & ch & Hch & HID).
  destruct (dispatch_activity_mismatch a c ch (activity_listeners st2) st2 Hch)
    as (Hkeep & pre & Htr & Hpre); [by rewrite HID|].
  subst st3. cbn [step]. unfold trigger_activity.
  destruct (dispatch_activity deconstructHydraId a (activity_listeners st2) st2) as [st'|err st']; cbn in *.
  - split; [congruence|]. split; [by exists ch|]. by exists pre.
  - split; [congruence|]. split; [by exists ch|]. exists (Uncaught err :: pre).
    rewrite Htr. split; [done|]. constructor; [cbn; tauto|done].
Qed.

(** C8 (amended): an activity event without [target], or whose [target] has
    no [id], whatever else it lacks, and an [updated] event whose [data] has
    no [id] are dropped: every handler returns and the state is unchanged, so
    no stream, no channel and no observer is affected. *)
Theorem event_without_target_or_id_is_dropped st sdk_id obj actor published :
  let no_target := mkSDKActivity sdk_id None obj actor published in
  let no_target_id := mkSDKActivity sdk_id (Some None) obj actor published in
  let no_id := mkUpdateEvent (Some None) in
  trigger_activity deconstructHydraId no_target st = Returned st ∧
  step deconstructHydraId st (MercuryActivity no_target) = st ∧
  trigger_activity deconstructHydraId no_target_id st = Returned st ∧
  step deconstructHydraId st (MercuryActivity no_target_id) = st ∧
  trigger_updated no_id st = st ∧
  step deconstructHydraId st (RoomUpdated no_id) = st.
Proof.
  intros no_target no_target_id no_id.
  assert (Ha : ∀ cs, dispatch_activity deconstructHydraId no_target cs st = Returned st).
  { induction cs as [|c cs IH]; [done|]. cbn.
    unfold on_activity. cbn. by destruct (channels st !! c). }
  assert (Hb : ∀ cs, dispatch_activity deconstructHydraId no_target_id cs st = Returned st).
  { induction cs as [|c cs IH]; [done|]. cbn.
    unfold on_activity. cbn. by destruct (channels st !! c). }
  assert (Hu : ∀ l, foldl (on_updated no_id) st l = st).
  { induction l as [|h l IH]; [done|]. cbn.
    replace (on_updated no_id st h) with st; [done|].
    unfold on_updated. destruct (streams st !! h) as [s|]; [|done].
    by destruct (phase s). }
  cbn [step]. unfold trigger_activity, trigger_updated.
  by rewrite Ha, Hb, Hu.
Qed.

End ActivityClaims.

(** C8 (as stated, refuted): two rooms are being observed when an [updated]
    event without [data] arrives: both observers are notified of a
    [TypeError], both subjects are stopped and both cache entries are
    removed.  And an activity event for an observed room that lacks [object]
    makes the handler throw.  The decoder of IDs is taken to be the identity
    here. *)
Lemma malformed_event_is_not_dropped :
  let observed :=
    run (λ ID, ID)
      [GetRoom "room-1"; Subscribe 0;
       Settle 0 (SdkResolved (Some (mkSDKRoom "room-1" "Standup" "group")));
       Deliver 0 0;
       GetRoom "room-2"; Subscribe 1;
       Settle 1 (SdkResolved (Some (mkSDKRoom "room-2" "Retro" "group")));
       Deliver 1 1;
       GetRoomActivities "room-1"; SubscribeActivities 0] initial_state in
  let st' := trigger_updated (mkUpdateEvent None) observed in
  (observers <$> streams observed !! 0 = Some [0] ∧
   observers <$> streams observed !! 1 = Some [1]) ∧
  trace st' = [Notified 1 1 (Error "TypeError"); CallRoomsStopListening; GateRelease;
               Notified 0 0 (Error "TypeError"); GateRelease] ++ trace observed ∧
  (thrown <$> streams st' !! 0 = Some (Some "TypeError") ∧
   thrown <$> streams st' !! 1 = Some (Some "TypeError")) ∧
  (getRoomObservables st' !! "room-1" = None ∧ getRoomObservables st' !! "room-2" = None) ∧
  trigger_activity (λ ID, ID)
    (mkSDKActivity (Some "a1") (Some (Some "room-1")) None (Some (Some "person")) None)
    observed
  = Threw "TypeError" observed.
Proof. vm_compute. repeat split. Qed.

(** * The statements at concrete inputs

    The decoder of IDs plays no role for the room streams; it is taken to be
    the identity. *)

(** Three observers of a room that nobody observed: one call of [rooms.get]. *)
Lemma getRoom_one_fetch_for_many_observers_witness :
  fst (subscribe_many "room-1" 3 initial_state) = replicate 3 (VObservable 0) ∧
  count_events is_fetch (trace (snd (subscribe_many "room-1" 3 initial_state))) = 1 ∧
  count_events is_acquire (trace (snd (subscribe_many "room-1" 3 initial_state))) = 1.
Proof.
  destruct (getRoom_one_fetch_for_many_observers "room-1" 3 initial_state)
    as (Hv & Hf & Ha & _).
  - by vm_compute.
  - lia.
  - split; [exact Hv|]. split; [exact Hf|exact Ha].
Defined.

(** The only observer of a room leaves. *)
Lemma last_unsubscribe_tears_down_once_witness :
  let st := run (λ ID, ID) [GetRoom "room-1"; Subscribe 0] initial_state in
  trace (unsubscribe 0 0 st) = release_events st ++ trace st ∧
  fst (getRoom "room-1" (unsubscribe 0 0 st)) = VObservable 1.
Proof.
  intros st.
  destruct (last_unsubscribe_tears_down_once (λ ID, ID) [GetRoom "room-1"; Subscribe 0]
              0 (mkStream "room-1" 0 None None [0] AwaitingRoom) 0)
    as (Htr & _ & _ & _ & _ & _ & _ & Hv & _).
  - by vm_compute.
  - reflexivity.
  - split; [exact Htr|exact Hv].
Defined.

(** An observer sees the first fetch, then a re-fetch. *)
Lemma initial_snapshot_precedes_updates_witness :
  initial_first
    (received 0 0
       (trace (run (λ ID, ID)
                 [GetRoom "room-1"; Subscribe 0; Settle 0 (SdkResolved (Some standup));
                  Deliver 0 0; RoomUpdated (mkUpdateEvent (Some (Some "room-1")));
                  Settle 1 (SdkResolved (Some standup_renamed)); Deliver 0 1]
                 initial_state))) = true.
Proof.
  destruct (initial_snapshot_precedes_updates (λ ID, ID)
              [GetRoom "room-1"; Subscribe 0; Settle 0 (SdkResolved (Some standup));
               Deliver 0 0; RoomUpdated (mkUpdateEvent (Some (Some "room-1")));
               Settle 1 (SdkResolved (Some standup_renamed)); Deliver 0 1]
              "room-1" 0 0) as (H & _).
  - by vm_compute.
  - exact H.
Defined.

(** The first fetch of an observed room is rejected. *)
Lemma fetch_rejection_errors_and_evicts_witness :
  let st := run (λ ID, ID) [GetRoom "room-1"; Subscribe 0; Settle 0 (SdkRejected "503")]
              initial_state in
  let st' := deliver 0 0 st in
  Notified 0 0 (Error "503") ∈ trace st' ∧
  fst (getRoom "room-1" st') = VObservable 1.
Proof.
  intros st st'.
  destruct (fetch_rejection_errors_and_evicts (λ ID, ID)
              [GetRoom "room-1"; Subscribe 0; Settle 0 (SdkRejected "503")]
              0 (mkStream "room-1" 0 None None [0] AwaitingRoom) 0 "503")
    as (_ & Hn & _ & _ & _ & _ & _ & _ & Hv & _).
  - by vm_compute.
  - reflexivity.
  - by vm_compute.
  - split; [|exact Hv]. apply Hn. cbn. apply list_elem_of_here.
Defined.

(** An update event arrives while the first fetch is pending. *)
Lemma update_during_first_fetch_is_lost_witness :
  let st := run (λ ID, ID) [GetRoom "room-1"; Subscribe 0] initial_state in
  streams (trigger_updated (mkUpdateEvent (Some (Some "room-1"))) st) !! 0
  = Some (mkStream "room-1" 0 None None [0] AwaitingRoom).
Proof.
  intros st.
  destruct (update_during_first_fetch_is_lost (λ ID, ID) [GetRoom "room-1"; Subscribe 0]
              0 (mkStream "room-1" 0 None None [0] AwaitingRoom)
              (mkUpdateEvent (Some (Some "room-1"))))
    as (_ & Hs & _).
  - by vm_compute.
  - reflexivity.
  - exact Hs.
Defined.

(** An activity of another room arrives on the channel of ["room-1"]. *)
Lemma getRoomActivities_same_channel_and_filter_witness :
  let st1 := snd (getRoomActivities "room-1" initial_state) in
  let other := mkSDKActivity (Some "a1") (Some (Some "room-2"))
                 (Some (mkSDKObject (Some "comment") None)) (Some (Some "person")) None in
  getRoomActivities "room-1" st1 = (VObservable 0, st1) ∧
  channels (step (λ ID, ID) st1 (MercuryActivity other)) !! 0 = channels st1 !! 0.
Proof.
  intros st1 other.
  destruct (getRoomActivities_same_channel_and_filter (λ ID, ID) [] "room-1")
    as (Hsame & _ & Hfilter).
  split; [exact Hsame|].
  destruct (Hfilter [] 0 other) as (Hkeep & _).
  - reflexivity.
  - discriminate.
  - exact Hkeep.
Defined.

(** * Observables kept after their eviction

    The statements above about a cached stream do not extend to an observable
    that a consumer keeps after its teardown and subscribes again:
    [publishReplay] reuses its subject and [room$] wraps the promise of the
    first fetch, so the subject replays its buffer, then the first fetch is
    delivered again, and [finalize] runs once more when the subscription
    leaves. *)

Example resubscribed_observable_releases_again :
  listenerCount
    (run (λ ID, ID)
       [GetRoom "room-1"; Subscribe 0; Unsubscribe 0 0; Subscribe 0; Unsubscribe 0 1]
       initial_state) = (-1)%Z.
Proof. by vm_compute. Qed.

Example resubscribed_observable_replays_then_restarts :
  received 0 1
    (trace (run (λ ID, ID)
              [GetRoom "room-1"; Subscribe 0; Settle 0 (SdkResolved (Some standup));
               Deliver 0 0; RoomUpdated (mkUpdateEvent (Some (Some "room-1")));
               Settle 1 (SdkResolved (Some standup_renamed)); Deliver 0 1;
               Unsubscribe 0 0; Subscribe 0; Deliver 0 0]
              initial_state))
  = [mkSnapshot Update (mkRoom "room-1" "Standup (renamed)" "group");
     mkSnapshot Initial (mkRoom "room-1" "Standup" "group")].
Proof. by vm_compute. Qed.

(** C6 (as stated, refuted): the ordering does not hold for every
    subscription of every stream.  A room is observed, updated once, and its
    only observer leaves; the consumer kept the observable and subscribes to
    it again.  The subject replays the update-derived snapshot, then the
    connection delivers the first fetch again: the new subscription receives
    the update before the initial snapshot. *)
Lemma update_precedes_initial_on_kept_observable :
  let st := run (λ ID, ID)
              [GetRoom "room-1"; Subscribe 0; Settle 0 (SdkResolved (Some standup));
               Deliver 0 0; RoomUpdated (mkUpdateEvent (Some (Some "room-1")));
               Settle 1 (SdkResolved (Some standup_renamed)); Deliver 0 1;
               Unsubscribe 0 0; Subscribe 0; Deliver 0 0]
              initial_state in
  getRoomObservables st !! "room-1" = None ∧
  received 0 1 (trace st)
  = [mkSnapshot Update (mkRoom "room-1" "Standup (renamed)" "group");
     mkSnapshot Initial (mkRoom "room-1" "Standup" "group")] ∧
  initial_first (received 0 1 (trace st)) = false ∧
  ¬ (∀ acts h o,
       initial_first (received h o (trace (run (λ ID, ID) acts initial_state))) = true).
Proof.
  split; [by vm_compute|]. split; [by vm_compute|]. split; [by vm_compute|].
  intros H.
  specialize (H [GetRoom "room-1"; Subscribe 0; Settle 0 (SdkResolved (Some standup));
                 Deliver 0 0; RoomUpdated (mkUpdateEvent (Some (Some "room-1")));
                 Settle 1 (SdkResolved (Some standup_renamed)); Deliver 0 1;
                 Unsubscribe 0 0; Subscribe 0; Deliver 0 0] 0 1).
  vm_compute in H. discriminate H.
Qed.

(** C7 (as stated, refuted): the fetch of a room is rejected before anybody
    has subscribed to its observable.  No reaction is registered on the
    promise, so nothing runs: no error is notified, [stopListeningToRoomUpdates]
    is not entered, the counter stays at 1 and the entry stays in the cache.
    The next [getRoom] of the ID returns the same observable and does not
    call [rooms.get] again. *)
Lemma rejection_before_first_subscription_keeps_entry :
  let st := run (λ ID, ID)
              [GetRoom "room-1"; Settle 0 (SdkRejected "offline"); Deliver 0 0]
              initial_state in
  promises st !! 0 = Some (Some (Rejected "offline")) ∧
  getRoomObservables st !! "room-1" = Some 0 ∧
  listenerCount st = 1%Z ∧
  count_events is_release (trace st) = 0 ∧
  trace st = [CallRoomsGet "room-1"; CallRoomsListen; GateAcquire] ∧
  getRoom "room-1" st = (VObservable 0, st) ∧
  count_events is_fetch (trace (snd (getRoom "room-1" st))) = 1.
Proof. vm_compute. repeat split. Qed.

(** * Further properties of the room streams *)

(** X1: calling [getRoom(K)] again returns what the first call returned and
    changes nothing: no second observable, no call of [rooms.get], no
    acquire.  This holds in every state and for every [K]. *)
Theorem getRoom_again_returns_same_observable K st :
  getRoom K (snd (getRoom K st)) = (fst (getRoom K st), snd (getRoom K st)).
Proof.
  destruct (js_in K (getRoomObservables st)) eqn:Hin.
  - unfold getRoom at 2 3 4. rewrite Hin. cbn [fst snd]. unfold getRoom. by rewrite Hin.
  - destruct (getRoom_miss K st Hin) as (Hv & Hc & _). cbn zeta in Hv, Hc.
    rewrite Hv. apply getRoom_hit. rewrite Hc. apply lookup_insert_eq.
Qed.

Section PrototypeNames.
Variable deconstructHydraId : string → string.

(** X2: a name inherited from [Object.prototype] can never be observed: in
    every reachable state [getRoom] and [getRoomActivities] answer with the
    inherited member, create nothing and call nothing, so a room with such an
    ID has no stream and no channel. *)
Theorem inherited_name_is_never_a_room acts K :
  K ∈ object_prototype_keys →
  let st := run deconstructHydraId acts initial_state in
  getRoom K st = (VInherited K, st) ∧
  getRoomActivities K st = (VInherited K, st) ∧
  getRoom_subscribe K st = (VInherited K, st).
Proof.
  intros HK st.
  pose proof (wf_run deconstructHydraId acts _ wf_initial) as [[Hids _ _ _ _ Hca] Hch _].
  fold st in Hids, Hca, Hch.
  assert (Hr : getRoomObservables st !! K = None).
  { destruct (getRoomObservables st !! K) as [h|] eqn:Hh; [|done].
    destruct (Hca K h Hh) as (s & Hs & HID & _). destruct (Hids h s Hs). by rewrite HID. }
  assert (Ha : getRoomActivitiesCache st !! K = None).
  { destruct (getRoomActivitiesCache st !! K) as [c|] eqn:Hc; [|done].
    by destruct (Hch K c Hc) as [Hn _]. }
  assert (Hfacts : ∀ own : gmap string nat,
            own !! K = None → js_in K own = true ∧ js_get K own = VInherited K).
  { intros own Hown. unfold js_in, js_get. rewrite Hown.
    by rewrite (bool_decide_eq_true_2 (K ∈ object_prototype_keys)), orb_true_r. }
  destruct (Hfacts _ Hr) as [Hin Hget]. destruct (Hfacts _ Ha) as [Hin' Hget'].
  assert (Hg : getRoom K st = (VInherited K, st)).
  { unfold getRoom. by rewrite Hin, Hget. }
  split; [done|]. split.
  - unfold getRoomActivities. by rewrite Hin', Hget'.
  - unfold getRoom_subscribe. by rewrite Hg.
Qed.

End PrototypeNames.

Lemma inherited_name_is_never_a_room_witness :
  getRoom "constructor" (run (λ ID, ID) [GetRoom "room-1"; Subscribe 0] initial_state)
  = (VInherited "constructor", run (λ ID, ID) [GetRoom "room-1"; Subscribe 0] initial_state).
Proof.
  destruct (inherited_name_is_never_a_room (λ ID, ID) [GetRoom "room-1"; Subscribe 0]
              "constructor") as (H & _).
  - apply list_elem_of_here.
  - exact H.
Defined.

(** The handlers of the streams on an [updated] event that names [K2]. *)
Lemma on_updated_named ev K2 h' st :
  data ev = Some (Some K2) →
  (refetches K2 st h' = false ∧ on_updated ev st h' = st) ∨
  (refetches K2 st h' = true ∧
   ∃ s' inners,
     streams st !! h' = Some s' ∧ stream_ID s' = K2 ∧ phase s' = Listening inners ∧
     on_updated ev st h'
     = update_stream h' (set_phase (Listening (inners ++ [length (promises st)])))
         (snd (fetchRoom K2 st))).
Proof.
  intros Hev. unfold on_updated, refetches. rewrite Hev.
  destruct (streams st !! h') as [s'|] eqn:Hs'; [|by left].
  destruct (phase s') as [| |inners] eqn:Hph; [by left..|]. cbn.
  destruct (decide (stream_ID s' = K2)) as [<-|HK].
  - right. rewrite !bool_decide_eq_true_2 by done. split; [done|]. by exists s', inners.
  - left. rewrite !bool_decide_eq_false_2; [done|congruence|done].
Qed.

Lemma replicate_cons_app {A} (x : A) n l :
  replicate n x ++ x :: l = replicate (S n) x ++ l.
Proof. induction n as [|n IH]; [done|]. cbn. by rewrite IH. Qed.

Lemma foldl_on_updated_named ev K2 l : ∀ st,
  data ev = Some (Some K2) →
  let st' := foldl (on_updated ev) st l in
  let n := length (List.filter (refetches K2 st) l) in
  trace st' = replicate n (CallRoomsGet K2) ++ trace st ∧
  promises st' = promises st ++ replicate n None ∧
  getRoomObservables st' = getRoomObservables st ∧
  listenerCount st' = listenerCount st ∧
  updated_listeners st' = updated_listeners st ∧
  ∀ h s, streams st !! h = Some s → stream_ID s ≠ K2 → streams st' !! h = Some s.
Proof.
  induction l as [|h' l IH]; intros st Hev.
  - cbn. by rewrite app_nil_r.
  - cbn [foldl List.filter].
    destruct (IH (on_updated ev st h') Hev) as (Htr & Hp & Hc & Hlc & Hul & Hkeep).
    destruct (on_updated_named ev K2 h' st Hev)
      as [[Hno Heq]|(Hyes & s' & inners & Hs' & HID & Hph & Heq)].
    + rewrite Hno. rewrite Heq in *. done.
    + rewrite Hyes.
      assert (Htr1 : trace (on_updated ev st h') = CallRoomsGet K2 :: trace st)
        by by rewrite Heq.
      assert (Hp1 : promises (on_updated ev st h') = promises st ++ [None])
        by by rewrite Heq.
      assert (Hc1 : getRoomObservables (on_updated ev st h') = getRoomObservables st)
        by by rewrite Heq.
      assert (Hlc1 : listenerCount (on_updated ev st h') = listenerCount st)
        by by rewrite Heq.
      assert (Hul1 : updated_listeners (on_updated ev st h') = updated_listeners st)
        by by rewrite Heq.
      assert (Hst1 : streams (on_updated ev st h')
                     = alter (set_phase (Listening (inners ++ [length (promises st)]))) h'
                         (streams st))
        by by rewrite Heq.
      assert (Hsame : ∀ h, refetches K2 (on_updated ev st h') h = refetches K2 st h).
      { intros h. unfold refetches. rewrite Hst1.
        destruct (decide (h = h')) as [->|Hne].
        - rewrite list_lookup_alter_eq, Hs'. cbn. by rewrite Hph.
        - by rewrite list_lookup_alter_ne. }
      rewrite (List.filter_ext _ _ Hsame) in Htr, Hp.
      rewrite Htr, Hp, Hc, Hlc, Hul, Htr1, Hp1, Hc1, Hlc1, Hul1. cbn [length].
      split; [apply replicate_cons_app|]. split.
      { by rewrite <-app_assoc. }
      split; [done|]. split; [done|]. split; [done|].
      intros h s Hs Hne. apply Hkeep; [|done]. rewrite Hst1.
      rewrite list_lookup_alter_ne; [done|]. intros <-. congruence.
Qed.

(** X3: an [updated] event that names room [K2] calls [rooms.get(K2)] once
    for each handler on [updated] whose stream is for [K2] and subscribed to
    [roomUpdate$], each call leaving one more pending promise, and does
    nothing else: a stream of another ID keeps its state and its
    subscriptions are notified of nothing; the cache, the listener count and
    the handlers stay as they are.  This holds in every state. *)
Theorem update_of_another_room_is_ignored K2 st :
  let st' := trigger_updated (mkUpdateEvent (Some (Some K2))) st in
  trace st' = replicate (refetch_count K2 st) (CallRoomsGet K2) ++ trace st ∧
  promises st' = promises st ++ replicate (refetch_count K2 st) None ∧
  getRoomObservables st' = getRoomObservables st ∧
  listenerCount st' = listenerCount st ∧
  updated_listeners st' = updated_listeners st ∧
  ∀ h s, streams st !! h = Some s → stream_ID s ≠ K2 → streams st' !! h = Some s.
Proof.
  apply (foldl_on_updated_named (mkUpdateEvent (Some (Some K2))) K2
           (updated_listeners st) st eq_refl).
Qed.

(** X4: while other subscriptions remain, unsubscribing one only removes it
    from the subject: the teardown does not run, so nothing is added to the
    trace, the cache entry and the listener count are kept, the handler on
    [updated] stays, and the other subscriptions stay where they are. *)
Theorem unsubscribe_with_others_keeps_stream h s o o' st :
  streams st !! h = Some s →
  o ∈ observers s →
  o' ∈ observers s →
  o' ≠ o →
  let st' := unsubscribe h o st in
  trace st' = trace st ∧
  getRoomObservables st' = getRoomObservables st ∧
  listenerCount st' = listenerCount st ∧
  updated_listeners st' = updated_listeners st ∧
  promises st' = promises st ∧
  streams st' !! h = Some (set_observers (filter (λ x, x ≠ o) (observers s)) s) ∧
  o' ∈ filter (λ x, x ≠ o) (observers s) ∧
  o ∉ filter (λ x, x ≠ o) (observers s).
Proof.
  intros Hs Ho Ho' Hne st'.
  assert (Hin : o' ∈ filter (λ x, x ≠ o) (observers s)) by by apply list_elem_of_filter.
  assert (Hout : o ∉ filter (λ x, x ≠ o) (observers s)).
  { intros [? _]%list_elem_of_filter. done. }
  subst st'. unfold unsubscribe. rewrite Hs, bool_decide_eq_true_2 by done.
  destruct (filter (λ x, x ≠ o) (observers s)) as [|o1 os] eqn:Hf.
  - by apply elem_of_nil in Hin.
  - cbn. repeat split; try done. by rewrite list_lookup_alter_eq, Hs.
Qed.

Lemma unsubscribe_with_others_keeps_stream_witness :
  let st := run (λ ID, ID) [GetRoom "room-1"; Subscribe 0; Subscribe 0] initial_state in
  trace (unsubscribe 0 0 st) = trace st ∧
  getRoomObservables (unsubscribe 0 0 st) = getRoomObservables st.
Proof.
  intros st.
  destruct (unsubscribe_with_others_keeps_stream 0
              (mkStream "room-1" 0 None None [0; 1] AwaitingRoom) 0 1 st)
    as (Htr & Hc & _).
  - by vm_compute.
  - cbn. apply list_elem_of_here.
  - cbn. apply list_elem_of_further, list_elem_of_here.
  - lia.
  - split; [exact Htr|exact Hc].
Defined.

(** ** Which actions call the SDK *)

Lemma filter_events_pre (f : Event → bool) pre tr :
  Forall (λ e, f e = false) pre → List.filter f (pre ++ tr) = List.filter f tr.
Proof. induction 1 as [|e pre He _ IH]; [done|]. cbn. by rewrite He. Qed.

Section SilentActions.
Variable f : Event → bool.
Hypothesis f_notified : ∀ h o n, f (Notified h o n) = false.
Hypothesis f_emitted : ∀ h v, f (Emitted h v) = false.
Hypothesis f_release : f GateRelease = false.
Hypothesis f_stop : f CallRoomsStopListening = false.
Hypothesis f_activity : ∀ e, activity_event e → f e = false.

Lemma silent_notify h os n tr :
  List.filter f (rev (map (λ o, Notified h o n) os) ++ tr) = List.filter f tr.
Proof.
  apply filter_events_pre, Forall_rev, Forall_map, Forall_forall. intros o _. apply f_notified.
Qed.

Lemma silent_release st tr :
  List.filter f (release_events st ++ tr) = List.filter f tr.
Proof.
  apply filter_events_pre. unfold release_events.
  destruct (bool_decide _); repeat constructor; done.
Qed.

Lemma silent_subscribe h st :
  List.filter f (trace (subscribe h st)) = List.filter f (trace st).
Proof.
  unfold subscribe. destruct (streams st !! h) as [s|]; [|done].
  destruct (replay s), (thrown s); cbn; by rewrite ?f_notified.
Qed.

Lemma silent_unsubscribe h o st :
  List.filter f (trace (unsubscribe h o st)) = List.filter f (trace st).
Proof.
  unfold unsubscribe. destruct (streams st !! h) as [s|]; [|done].
  case_bool_decide; [|done]. destruct (filter _ _); [|done].
  destruct (phase s); [done|..];
    destruct (teardown_fields h s (update_stream h (set_observers []) st))
      as (_ & _ & _ & _ & -> & _); apply silent_release.
Qed.

Lemma silent_fail h s err st :
  List.filter f (trace (fail h s err st)) = List.filter f (trace st).
Proof.
  destruct (fail_fields h s err st) as (_ & _ & _ & _ & -> & _).
  by rewrite <-app_assoc, silent_notify, silent_release.
Qed.

Lemma silent_emit h s v st :
  List.filter f (trace (emit h s v st)) = List.filter f (trace st).
Proof.
  destruct (emit_fields h s v st) as (_ & _ & _ & _ & -> & _).
  rewrite <-app_assoc, silent_notify. cbn. by rewrite f_emitted.
Qed.

Lemma silent_deliver h p st :
  List.filter f (trace (deliver h p st)) = List.filter f (trace st).
Proof.
  unfold deliver. destruct (streams st !! h) as [s|]; [|done].
  destruct (promises st !! p) as [[r|]|]; [|done..].
  destruct (phase s) as [| |inners]; [done| |].
  - case_bool_decide; [|done]. destruct r; [|apply silent_fail].
    apply (silent_emit h s _ st).
  - case_bool_decide; [|done]. destruct r; [|apply silent_fail].
    by rewrite silent_emit.
Qed.

Lemma silent_settle p o st :
  List.filter f (trace (settle p o st)) = List.filter f (trace st).
Proof. unfold settle. by destruct (promises st !! p) as [[?|]|]. Qed.

Lemma silent_activity_step st st' :
  activity_step st st' → List.filter f (trace st') = List.filter f (trace st).
Proof.
  intros (_ & _ & _ & _ & _ & _ & pre & -> & Hpre). apply filter_events_pre.
  eapply Forall_impl; [exact Hpre|]. apply f_activity.
Qed.

Lemma silent_on_updated ev h st :
  (∀ ID, f (CallRoomsGet ID) = false) →
  List.filter f (trace (on_updated ev st h)) = List.filter f (trace st).
Proof.
  intros Hget. unfold on_updated. destruct (streams st !! h) as [s|]; [|done].
  destruct (phase s) as [| |inners]; [done..|].
  destruct (data ev) as [i|]; [|apply silent_fail].
  case_bool_decide; [|done]. cbn. by rewrite Hget.
Qed.

Lemma silent_trigger_updated ev st :
  (∀ ID, f (CallRoomsGet ID) = false) →
  List.filter f (trace (trigger_updated ev st)) = List.filter f (trace st).
Proof.
  intros Hget. unfold trigger_updated. generalize (updated_listeners st) as l.
  intros l. revert st. induction l as [|h l IH]; intros st; [done|].
  cbn. by rewrite IH, silent_on_updated.
Qed.

(** Outside [getRoom] and the [updated] event, no action adds an event
    selected by [f] to the trace. *)
Lemma silent_step deconstructHydraId st a :
  may_fetch a = false →
  List.filter f (trace (step deconstructHydraId st a)) = List.filter f (trace st).
Proof.
  intros Ha. destruct a as [K|h|h o|p o|h p|ev|K|c|c o|a]; try discriminate Ha; cbn [step].
  - apply silent_subscribe.
  - apply silent_unsubscribe.
  - apply silent_settle.
  - apply silent_deliver.
  - apply silent_activity_step, activity_step_getRoomActivities.
  - apply silent_activity_step, activity_step_subscribe.
  - apply silent_activity_step, activity_step_unsubscribe.
  - apply silent_activity_step. apply (mercury_activity_step deconstructHydraId a st).
Qed.
End SilentActions.

Section SdkCalls.
Variable deconstructHydraId : string → string.

(** X5: [rooms.get] is called only inside [getRoom] and inside the handlers
    of the [updated] event: subscribing, unsubscribing, the settling and the
    delivery of a fetch, and everything on the activity side add no call of
    [rooms.get]. *)
Theorem only_getRoom_and_updates_fetch st a :
  may_fetch a = false →
  count_events is_fetch (trace (step deconstructHydraId st a))
  = count_events is_fetch (trace st).
Proof.
  intros Ha. unfold count_events. f_equal. apply silent_step; try done.
  intros e He. by destruct e.
Qed.

(** X6: [rooms.listen] is called only inside [getRoom]: no other action,
    the [updated] event included, adds a call of [rooms.listen]. *)
Theorem only_getRoom_listens st a :
  is_getRoom a = false →
  count_events is_listen (trace (step deconstructHydraId st a))
  = count_events is_listen (trace st).
Proof.
  intros Ha. unfold count_events. f_equal.
  assert (Hact : ∀ e, activity_event e → is_listen e = false) by (intros e He; by destruct e).
  destruct (may_fetch a) eqn:Hm; [|by apply silent_step].
  destruct a; try done. cbn [step]. by apply silent_trigger_updated.
Qed.

End SdkCalls.

Lemma only_getRoom_and_updates_fetch_witness :
  count_events is_fetch
    (trace (step (λ ID, ID) (run (λ ID, ID) [GetRoom "room-1"] initial_state) (Subscribe 0)))
  = count_events is_fetch (trace (run (λ ID, ID) [GetRoom "room-1"] initial_state)).
Proof. exact (only_getRoom_and_updates_fetch (λ ID, ID) _ (Subscribe 0) eq_refl). Defined.

Lemma only_getRoom_listens_witness :
  count_events is_listen
    (trace (step (λ ID, ID) (run (λ ID, ID) [GetRoom "room-1"] initial_state)
              (RoomUpdated (mkUpdateEvent None))))
  = count_events is_listen (trace (run (λ ID, ID) [GetRoom "room-1"] initial_state)).
Proof.
  exact (only_getRoom_listens (λ ID, ID) _ (RoomUpdated (mkUpdateEvent None)) eq_refl).
Defined.

(** ** Emissions *)

(** The delivery of a fulfilled fetch to a connected stream, field by field. *)
Lemma deliver_fulfilled_fields h s p rm st :
  streams st !! h = Some s →
  awaits s p →
  promises st !! p = Some (Some (Fulfilled rm)) →
  let v := delivered_snapshot (phase s) rm in
  let st' := deliver h p st in
  streams st' !! h = Some (set_phase (phase_after_delivery (phase s) p) (set_replay v s)) ∧
  (∀ h', h' ≠ h → streams st' !! h' = streams st !! h') ∧
  trace st' = (rev (map (λ o, Notified h o (Next v)) (observers s)) ++ [Emitted h v])
              ++ trace st ∧
  getRoomObservables st' = getRoomObservables st ∧
  listenerCount st' = listenerCount st ∧
  promises st' = promises st ∧
  next_subscription st' = next_subscription st.
Proof.
  intros Hs Haw Hp v st'. subst st' v. unfold deliver. rewrite Hs, Hp.
  unfold awaits in Haw. destruct (phase s) as [| |inners] eqn:Hph; [done| |].
  - rewrite bool_decide_eq_true_2 by done.
    destruct (emit_fields h s (mkSnapshot Initial rm) st)
      as (Hst & Hgr & _ & Hns & Htr & Hlc & Hpr & _).
    cbn [streams trace getRoomObservables listenerCount promises next_subscription
         update_stream set_streams set_updated_listeners delivered_snapshot
         phase_after_delivery].
    rewrite Hst, Hgr, Hns, Htr, Hlc, Hpr, list_alter_alter_eq.
    repeat split.
    + by rewrite list_lookup_alter_eq, Hs.
    + intros h' Hne. by rewrite list_lookup_alter_ne.
  - rewrite bool_decide_eq_true_2 by done.
    destruct (emit_fields h s (mkSnapshot Update rm)
                (update_stream h (set_phase (Listening (filter (λ q, q ≠ p) inners))) st))
      as (Hst & Hgr & _ & Hns & Htr & Hlc & Hpr & _).
    rewrite Hst, Hgr, Hns, Htr, Hlc, Hpr. cbn. rewrite list_alter_alter_eq.
    repeat split.
    + by rewrite list_lookup_alter_eq, Hs.
    + intros h' Hne. by rewrite list_lookup_alter_ne.
Qed.

Lemma received_app_emit h o os v tr :
  NoDup os →
  received h o ((rev (map (λ o, Notified h o (Next v)) os) ++ [Emitted h v]) ++ tr)
  = received h o tr ++ (if bool_decide (o ∈ os) then [v] else []).
Proof.
  intros Hnd. unfold received. rewrite received_rev_emit by done.
  rewrite rev_app_distr. by case_bool_decide.
Qed.

Lemma received_rev_notify_other h h' o os n :
  h' ≠ h → received_rev h' o (rev (map (λ o, Notified h o n) os)) = [].
Proof.
  intros Hne. induction os as [|x os IH]; [done|].
  cbn [map rev]. rewrite received_rev_app, IH. unfold received_rev. cbn.
  destruct n; [|done]. rewrite bool_decide_eq_false_2; [done|]. naive_solver.
Qed.

Lemma received_other_emit h h' o os v tr :
  h' ≠ h →
  received h' o ((rev (map (λ o, Notified h o (Next v)) os) ++ [Emitted h v]) ++ tr)
  = received h' o tr.
Proof.
  intros Hne. unfold received. f_equal.
  by rewrite !received_rev_app, received_rev_notify_other.
Qed.

Section Emissions.
Variable deconstructHydraId : string → string.

(** X7: when a fulfilled fetch is delivered to a connected stream, every
    subscription of the stream receives the fetched room exactly once, as
    its newest snapshot, and nobody else receives anything; the room becomes
    the replayed value; the cache, the listener count and the promises are
    untouched.  The snapshot is the initial one when the stream was waiting
    for its first fetch, an update otherwise. *)
Theorem emission_reaches_each_subscription_once acts h s p rm :
  let st := run deconstructHydraId acts initial_state in
  streams st !! h = Some s →
  awaits s p →
  promises st !! p = Some (Some (Fulfilled rm)) →
  let v := delivered_snapshot (phase s) rm in
  let st' := deliver h p st in
  (∀ o, received h o (trace st')
        = received h o (trace st) ++ (if bool_decide (o ∈ observers s) then [v] else [])) ∧
  (∀ h' o, h' ≠ h → received h' o (trace st') = received h' o (trace st)) ∧
  (∃ s', streams st' !! h = Some s' ∧ replay s' = Some v ∧ observers s' = observers s) ∧
  last_emitted h (trace st') = Some v ∧
  getRoomObservables st' = getRoomObservables st ∧
  listenerCount st' = listenerCount st ∧
  count_events is_fetch (trace st') = count_events is_fetch (trace st).
Proof.
  intros st Hs Haw Hp v st'.
  pose proof (wf_run deconstructHydraId acts _ wf_initial) as [[_ Hf _ _ _ _] _ _].
  fold st in Hf. destruct (proj2 Hf h s Hs) as [Hnd _].
  destruct (deliver_fulfilled_fields h s p rm st Hs Haw Hp)
    as (Hs' & _ & Htr & Hgr & Hlc & _).
  fold st' v in Hs', Htr, Hgr, Hlc.
  split; [|split; [|split; [|split; [|split; [|split]]]]].
  - intros o. rewrite Htr. by apply received_app_emit.
  - intros h' o Hne. rewrite Htr. by apply received_other_emit.
  - eexists. split; [exact Hs'|]. done.
  - rewrite Htr. apply last_emitted_emit.
  - done.
  - done.
  - unfold count_events. f_equal.
    assert (Hd : deliver h p st = st') by done. rewrite <-Hd.
    apply silent_deliver; (done || by intros []).
Qed.

(** X8: re-fetches started by several update events are emitted in the
    order in which they are delivered, whatever the order in which they were
    requested ([flatMap] merges): when [p2] is delivered before [p1], every
    subscription receives the room of [p2], then the room of [p1], and the
    room of [p1] is the one that stays replayed. *)
Theorem refetches_are_emitted_in_delivery_order acts h s inners p1 p2 rm1 rm2 :
  let st := run deconstructHydraId acts initial_state in
  streams st !! h = Some s →
  phase s = Listening inners →
  p1 ∈ inners → p2 ∈ inners → p1 ≠ p2 →
  promises st !! p1 = Some (Some (Fulfilled rm1)) →
  promises st !! p2 = Some (Some (Fulfilled rm2)) →
  let st' := deliver h p1 (deliver h p2 st) in
  (∀ o, o ∈ observers s →
        received h o (trace st')
        = received h o (trace st) ++ [mkSnapshot Update rm2; mkSnapshot Update rm1]) ∧
  ∃ s', streams st' !! h = Some s' ∧
        replay s' = Some (mkSnapshot Update rm1) ∧
        phase s' = Listening (filter (λ q, q ≠ p1) (filter (λ q, q ≠ p2) inners)).
Proof.
  intros st Hs Hph Hp1 Hp2 Hne Hf1 Hf2 st'.
  pose proof (wf_run deconstructHydraId acts _ wf_initial) as [[_ Hf _ _ _ _] _ _].
  fold st in Hf. destruct (proj2 Hf h s Hs) as [Hnd _].
  destruct (deliver_fulfilled_fields h s p2 rm2 st Hs) as (Hs2 & _ & Htr2 & _ & _ & Hpr2 & _);
    [unfold awaits; by rewrite Hph|done|].
  rewrite Hph in Hs2, Htr2. cbn [delivered_snapshot phase_after_delivery] in Hs2, Htr2.
  set (st2 := deliver h p2 st) in *.
  set (s2 := set_phase _ _) in Hs2.
  destruct (deliver_fulfilled_fields h s2 p1 rm1 st2 Hs2) as (Hs1 & _ & Htr1 & _).
  { unfold awaits. cbn. by apply list_elem_of_filter. }
  { by rewrite Hpr2. }
  cbn [delivered_snapshot phase_after_delivery phase s2 set_phase] in Hs1, Htr1.
  fold st' in Hs1, Htr1. split.
  - intros o Ho. rewrite Htr1, Htr2. cbn [observers s2 set_phase set_replay].
    rewrite !received_app_emit by done. rewrite bool_decide_eq_true_2 by done.
    by rewrite <-app_assoc.
  - eexists. split; [exact Hs1|]. done.
Qed.

End Emissions.

Lemma emission_reaches_each_subscription_once_witness :
  let st := run (λ ID, ID)
              [GetRoom "room-1"; Subscribe 0; Subscribe 0;
               Settle 0 (SdkResolved (Some standup))] initial_state in
  received 0 1 (trace (deliver 0 0 st))
  = [mkSnapshot Initial (mkRoom "room-1" "Standup" "group")].
Proof.
  intros st.
  destruct (emission_reaches_each_subscription_once (λ ID, ID)
              [GetRoom "room-1"; Subscribe 0; Subscribe 0;
               Settle 0 (SdkResolved (Some standup))]
              0 (mkStream "room-1" 0 None None [0; 1] AwaitingRoom) 0
              (mkRoom "room-1" "Standup" "group")) as (H & _).
  - by vm_compute.
  - reflexivity.
  - by vm_compute.
  - exact (H 1).
Defined.

Lemma refetches_are_emitted_in_delivery_order_witness :
  let st := run (λ ID, ID)
              [GetRoom "room-1"; Subscribe 0; Settle 0 (SdkResolved (Some standup));
               Deliver 0 0;
               RoomUpdated (mkUpdateEvent (Some (Some "room-1")));
               RoomUpdated (mkUpdateEvent (Some (Some "room-1")));
               Settle 1 (SdkResolved (Some standup));
               Settle 2 (SdkResolved (Some standup_renamed))] initial_state in
  received 0 0 (trace (deliver 0 1 (deliver 0 2 st)))
  = [mkSnapshot Initial (mkRoom "room-1" "Standup" "group");
     mkSnapshot Update (mkRoom "room-1" "Standup (renamed)" "group");
     mkSnapshot Update (mkRoom "room-1" "Standup" "group")].
Proof.
  intros st.
  destruct (refetches_are_emitted_in_delivery_order (λ ID, ID)
              [GetRoom "room-1"; Subscribe 0; Settle 0 (SdkResolved (Some standup));
               Deliver 0 0;
               RoomUpdated (mkUpdateEvent (Some (Some "room-1")));
               RoomUpdated (mkUpdateEvent (Some (Some "room-1")));
               Settle 1 (SdkResolved (Some standup));
               Settle 2 (SdkResolved (Some standup_renamed))]
              0 (mkStream "room-1" 0
                   (Some (mkSnapshot Initial (mkRoom "room-1" "Standup" "group")))
                   None [0] (Listening [1; 2]))
              [1; 2] 1 2 (mkRoom "room-1" "Standup" "group")
              (mkRoom "room-1" "Standup (renamed)" "group")) as (H & _).
  - by vm_compute.
  - reflexivity.
  - apply list_elem_of_here.
  - apply list_elem_of_further, list_elem_of_here.
  - lia.
  - by vm_compute.
  - by vm_compute.
  - etransitivity; [apply (H 0); apply list_elem_of_here|by vm_compute].
Defined.

(** ** From [getRoom] to the first notification *)

Lemma alter_new_stream {A} (f : A → A) (l : list A) (x : A) :
  alter f (length l) (l ++ [x]) = l ++ [f x].
Proof. induction l as [|y l IH]; [done|]. cbn. by rewrite IH. Qed.

(** The first subscription to a stream that [getRoom] just created connects
    it: the stream waits for its first fetch and nothing is notified. *)
Lemma subscribe_new_stream K p ss st :
  streams st = ss ++ [new_stream K p] →
  let st2 := subscribe (length ss) st in
  streams st2 = ss ++ [mkStream K p None None [next_subscription st] AwaitingRoom] ∧
  trace st2 = trace st ∧
  promises st2 = promises st ∧
  getRoomObservables st2 = getRoomObservables st ∧
  listenerCount st2 = listenerCount st ∧
  next_subscription st2 = S (next_subscription st).
Proof.
  intros Hss st2. subst st2. unfold subscribe.
  rewrite Hss, lookup_new_stream.
  cbn. rewrite Hss, alter_new_stream. repeat split.
Qed.

Section FirstFetch.
Variable deconstructHydraId : string → string.

(** X9: the whole path of a first fetch.  In a reachable state where [K] is
    not cached, [getRoom(K)] followed by a subscription, the settling of
    [rooms.get(K)] and the promise reaction gives the subscriber:
    - when the SDK resolved with a room: exactly one snapshot, the room with
      [id] renamed to [ID] and [title] and [type] copied, nothing else of
      the SDK object; the stream stays cached;
    - when the SDK resolved with [undefined]: the error of the failed
      destructuring and no snapshot; the stream is evicted;
    - when the SDK rejected: that error and no snapshot; the stream is
      evicted. *)
Theorem first_fetch_reaches_the_subscriber acts K out :
  let st := run deconstructHydraId acts initial_state in
  js_in K (getRoomObservables st) = false →
  let h := length (streams st) in
  let p := length (promises st) in
  let o := next_subscription st in
  let st' := run deconstructHydraId
               [GetRoom K; Subscribe h; Settle p out; Deliver h p] st in
  count_events is_fetch (trace st') = S (count_events is_fetch (trace st)) ∧
  match out with
  | SdkResolved (Some r) =>
      received h o (trace st')
      = [mkSnapshot Initial
           {| room_ID := sdk_id r; room_title := sdk_title r; room_type := sdk_type r |}] ∧
      getRoomObservables st' !! K = Some h ∧
      listenerCount st' = (listenerCount st + 1)%Z
  | SdkResolved None =>
      received h o (trace st') = [] ∧
      Notified h o (Error "TypeError") ∈ trace st' ∧
      getRoomObservables st' !! K = None ∧
      listenerCount st' = listenerCount st
  | SdkRejected err =>
      received h o (trace st') = [] ∧
      Notified h o (Error err) ∈ trace st' ∧
      getRoomObservables st' !! K = None ∧
      listenerCount st' = listenerCount st
  end.
Proof.
  intros st Hin h p o st'.
  pose proof (wf_run deconstructHydraId acts _ wf_initial) as [[_ [Hf _] _ _ _ _] _ _].
  fold st in Hf.
  pose proof (getRoom_miss K st Hin) as H1. cbn zeta in H1.
  destruct H1 as (_ & Hgr1 & Hs1 & Hp1 & Hns1 & Hlc1 & Htr1).
  set (st1 := snd (getRoom K st)) in *.
  pose proof (subscribe_new_stream K p (streams st) st1 Hs1) as H2. cbn zeta in H2.
  fold h in H2. rewrite Hns1 in H2. fold o in H2.
  destruct H2 as (Hs2 & Htr2 & Hp2 & Hgr2 & Hlc2 & Hns2).
  set (st2 := subscribe h st1) in *.
  set (s2 := mkStream K p None None [o] AwaitingRoom) in *.
  assert (Hl2 : streams st2 !! h = Some s2) by (rewrite Hs2; apply lookup_new_stream).
  assert (Hpp : promises st2 !! p = Some None)
    by (rewrite Hp2, Hp1; apply lookup_new_stream).
  set (st3 := set_promises (<[p := Some (fetchRoom_result out)]>) st2).
  assert (Hst' : st' = deliver h p st3).
  { subst st'. cbn [run foldl step]. fold st1 st2. unfold settle. by rewrite Hpp. }
  assert (Hp3 : promises st3 !! p = Some (Some (fetchRoom_result out))).
  { cbn. apply list_lookup_insert_eq. by apply lookup_lt_is_Some. }
  assert (Hold : received_rev h o (trace st1) = []).
  { assert (Hq : ∃ pre, trace st1 = pre ++ trace st ∧ Forall quiet_event pre).
    { rewrite Htr1. destruct (bool_decide _).
      - exists [CallRoomsGet K; CallRoomsListen; GateAcquire]. by repeat constructor.
      - exists [CallRoomsGet K; GateAcquire]. by repeat constructor. }
    destruct Hq as (pre & Hpre & Hq).
    rewrite Hpre, received_rev_app, (received_rev_quiet _ _ _ Hq).
    apply received_rev_fresh; [done|]. unfold h. lia. }
  split.
  { rewrite Hst'. unfold count_events. rewrite silent_deliver by (done || by intros []).
    change (trace st3) with (trace st2). rewrite Htr2, Htr1.
    by destruct (bool_decide _). }
  assert (Hfail : ∀ err, fetchRoom_result out = Rejected err →
            received h o (trace st') = [] ∧
            Notified h o (Error err) ∈ trace st' ∧
            getRoomObservables st' !! K = None ∧
            listenerCount st' = listenerCount st).
  { intros err Hout. rewrite Hout in Hp3.
    assert (Hd : deliver h p st3 = fail h s2 err st3).
    { unfold deliver. change (streams st3) with (streams st2). rewrite Hl2, Hp3. cbn.
      by rewrite bool_decide_eq_true_2. }
    rewrite Hst', Hd.
    destruct (fail_fields h s2 err st3) as (_ & Hgr & _ & _ & Htr & Hlc & _).
    rewrite Htr, Hgr, Hlc. cbn [observers s2 map rev app stream_ID].
    change (trace st3) with (trace st2). change (listenerCount st3) with (listenerCount st2).
    repeat split.
    - unfold received. rewrite (app_comm_cons _ _ (Notified h o (Error err))).
      rewrite received_rev_app, Htr2, Hold, app_nil_r.
      change (Notified h o (Error err) :: release_events st3)
        with ([Notified h o (Error err)] ++ release_events st3).
      rewrite received_rev_app.
      rewrite (received_rev_quiet h o (release_events st3)) by apply quiet_release_events.
      done.
    - apply list_elem_of_here.
    - apply lookup_delete_eq.
    - rewrite Hlc2, Hlc1. lia. }
  destruct out as [[r|]|err]; [|by apply Hfail..].
  cbn [fetchRoom_result] in Hp3.
  pose proof (deliver_fulfilled_fields h s2 p _ st3 Hl2 eq_refl Hp3) as H4.
  cbn zeta in H4. rewrite <-Hst' in H4.
  destruct H4 as (_ & _ & Htr & Hgr & Hlc & _).
  cbn [phase s2 delivered_snapshot observers] in Htr.
  rewrite Htr, Hgr, Hlc. repeat split.
  - rewrite received_app_emit by (apply NoDup_singleton).
    rewrite bool_decide_eq_true_2 by apply list_elem_of_here.
    unfold received. change (trace st3) with (trace st2). by rewrite Htr2, Hold.
  - change (getRoomObservables st3) with (getRoomObservables st2).
    rewrite Hgr2, Hgr1. apply lookup_insert_eq.
  - change (listenerCount st3) with (listenerCount st2). by rewrite Hlc2, Hlc1.
Qed.

End FirstFetch.

Lemma first_fetch_reaches_the_subscriber_witness :
  received 1 0
    (trace (run (λ ID, ID)
              [GetRoom "room-2"; GetRoom "room-1"; Subscribe 1;
               Settle 1 (SdkResolved (Some standup)); Deliver 1 1] initial_state))
  = [mkSnapshot Initial (mkRoom "room-1" "Standup" "group")].
Proof.
  pose proof (first_fetch_reaches_the_subscriber (λ ID, ID) [GetRoom "room-2"] "room-1"
                (SdkResolved (Some standup))) as H.
  vm_compute in H. vm_compute. by destruct (H eq_refl) as (_ & H' & _).
Defined.

(** ** The listener count, the gate and the cache *)

Lemma gate_balance_app pre tr :
  gate_balance (pre ++ tr) = (gate_balance pre + gate_balance tr)%Z.
Proof. unfold gate_balance. rewrite !count_events_app. lia. Qed.

Lemma gate_balance_quiet pre : Forall not_gate_entry pre → gate_balance pre = 0%Z.
Proof.
  induction 1 as [|e pre He _ IH]; [done|].
  change (e :: pre) with ([e] ++ pre). rewrite gate_balance_app, IH. by destruct e.
Qed.

Lemma gate_balance_release st : gate_balance (release_events st) = (-1)%Z.
Proof. unfold release_events. by destruct (bool_decide _). Qed.

Lemma not_entry_notify h os n :
  Forall not_gate_entry (rev (map (λ o, Notified h o n) os)).
Proof. apply Forall_rev, Forall_map, Forall_forall. done. Qed.

Lemma count_step_refl st : count_step st st.
Proof. split; lia. Qed.

Lemma count_step_trans st1 st2 st3 :
  count_step st1 st2 → count_step st2 st3 → count_step st1 st3.
Proof. intros [H1 H2] [H3 H4]. split; lia. Qed.

Lemma count_step_same st st' pre :
  Forall not_gate_entry pre →
  trace st' = pre ++ trace st →
  listenerCount st' = listenerCount st →
  getRoomObservables st' = getRoomObservables st →
  count_step st st'.
Proof.
  intros Hpre Htr Hlc Hgr. unfold count_step.
  rewrite Htr, Hlc, Hgr, gate_balance_app, gate_balance_quiet by done. lia.
Qed.

Lemma count_step_inv st st' : count_step st st' → count_inv st → count_inv st'.
Proof. intros [H1 H2] [H3 H4]. split; lia. Qed.

Lemma count_step_getRoom K st : count_step st (snd (getRoom K st)).
Proof.
  destruct (js_in K (getRoomObservables st)) eqn:Hin.
  { unfold getRoom. rewrite Hin. apply count_step_refl. }
  pose proof (getRoom_miss K st Hin) as H. cbn zeta in H.
  destruct H as (_ & Hgr & _ & _ & _ & Hlc & Htr).
  apply js_in_false in Hin as [Hnone _].
  unfold count_step. rewrite Hgr, Hlc, Htr, map_size_insert_None by done.
  change (CallRoomsGet K :: ?l) with ([CallRoomsGet K] ++ l).
  change (GateAcquire :: trace st) with ([GateAcquire] ++ trace st).
  rewrite !gate_balance_app.
  assert (gate_balance (if bool_decide (listenerCount st = 0%Z)
                        then [CallRoomsListen] else []) = 0%Z) as ->
    by by destruct (bool_decide _).
  change (gate_balance [CallRoomsGet K]) with 0%Z.
  change (gate_balance [GateAcquire]) with 1%Z. lia.
Qed.

Lemma count_step_subscribe h st : count_step st (subscribe h st).
Proof.
  unfold subscribe. destruct (streams st !! h) as [s|]; [|apply count_step_refl].
  destruct (thrown s) as [err|], (replay s) as [v|]; cbn.
  - apply (count_step_same _ _ [Notified h (next_subscription st) (Error err);
                                Notified h (next_subscription st) (Next v)]);
      [by repeat constructor|done..].
  - apply (count_step_same _ _ [Notified h (next_subscription st) (Error err)]);
      [by repeat constructor|done..].
  - apply (count_step_same _ _ [Notified h (next_subscription st) (Next v)]);
      [by repeat constructor|done..].
  - by apply (count_step_same _ _ []).
Qed.

Lemma size_delete_bound (m : gmap string nat) K :
  (Z.of_nat (size m) - 1 ≤ Z.of_nat (size (delete K m)))%Z.
Proof.
  destruct (m !! K) as [x|] eqn:HK.
  - rewrite (map_size_delete_Some K m) by done.
    assert (size m ≠ 0) by (apply map_size_ne_0_lookup_2 with K; by rewrite HK). lia.
  - rewrite map_size_delete_None by done. lia.
Qed.

Lemma count_step_teardown h s st : count_step st (teardown h s st).
Proof.
  destruct (teardown_fields h s st) as (_ & Hgr & _ & _ & Htr & Hlc & _).
  unfold count_step. rewrite Hgr, Htr, Hlc, gate_balance_app, gate_balance_release.
  pose proof (size_delete_bound (getRoomObservables st) (stream_ID s)). lia.
Qed.

Lemma count_step_unsubscribe h o st : count_step st (unsubscribe h o st).
Proof.
  unfold unsubscribe. destruct (streams st !! h) as [s|]; [|apply count_step_refl].
  case_bool_decide; [|apply count_step_refl].
  destruct (filter _ _); [|by apply (count_step_same _ _ [])].
  destruct (phase s); [by apply (count_step_same _ _ [])|..];
    (eapply count_step_trans; [|apply count_step_teardown]);
    by apply (count_step_same _ _ []).
Qed.

Lemma count_step_fail h s err st : count_step st (fail h s err st).
Proof.
  destruct (fail_fields h s err st) as (_ & Hgr & _ & _ & Htr & Hlc & _).
  unfold count_step. rewrite Hgr, Htr, Hlc, !gate_balance_app, gate_balance_release.
  rewrite gate_balance_quiet by apply not_entry_notify.
  pose proof (size_delete_bound (getRoomObservables st) (stream_ID s)). lia.
Qed.

Lemma count_step_emit h s v st : count_step st (emit h s v st).
Proof.
  destruct (emit_fields h s v st) as (_ & Hgr & _ & _ & Htr & Hlc & _).
  eapply count_step_same; [|exact Htr|exact Hlc|exact Hgr].
  apply Forall_app. split; [apply not_entry_notify|by repeat constructor].
Qed.

Lemma count_step_deliver h p st : count_step st (deliver h p st).
Proof.
  unfold deliver. destruct (streams st !! h) as [s|]; [|apply count_step_refl].
  destruct (promises st !! p) as [[r|]|]; [|apply count_step_refl..].
  destruct (phase s) as [| |inners]; [apply count_step_refl| |].
  - case_bool_decide; [|apply count_step_refl]. destruct r as [rm|err].
    + eapply count_step_trans; [apply (count_step_emit h s (mkSnapshot Initial rm))|].
      by apply (count_step_same _ _ []).
    + apply count_step_fail.
  - case_bool_decide; [|apply count_step_refl]. destruct r as [rm|err].
    + eapply count_step_trans; [|apply count_step_emit].
      by apply (count_step_same _ _ []).
    + apply count_step_fail.
Qed.

Lemma count_step_settle p o st : count_step st (settle p o st).
Proof.
  unfold settle. destruct (promises st !! p) as [[r|]|]; try apply count_step_refl.
  by apply (count_step_same _ _ []).
Qed.

Lemma count_step_on_updated ev h st : count_step st (on_updated ev st h).
Proof.
  unfold on_updated. destruct (streams st !! h) as [s|]; [|apply count_step_refl].
  destruct (phase s) as [| |inners]; [apply count_step_refl..|].
  destruct (data ev) as [i|]; [|apply count_step_fail].
  case_bool_decide; [|apply count_step_refl].
  by apply (count_step_same _ _ [CallRoomsGet (stream_ID s)]); [repeat constructor|..].
Qed.

Lemma count_step_trigger_updated ev st : count_step st (trigger_updated ev st).
Proof.
  unfold trigger_updated. generalize (updated_listeners st) as l.
  intros l. revert st. induction l as [|h l IH]; intros st; [apply count_step_refl|].
  cbn. eapply count_step_trans; [apply count_step_on_updated|apply IH].
Qed.

Lemma count_step_activity st st' : activity_step st st' → count_step st st'.
Proof.
  intros (_ & Hgr & _ & Hlc & _ & _ & pre & Htr & Hpre).
  apply (count_step_same st st' pre); try done.
  eapply Forall_impl; [exact Hpre|]. by intros [].
Qed.

Lemma count_step_step deconstructHydraId st a :
  count_step st (step deconstructHydraId st a).
Proof.
  destruct a as [K|h|h o|p o|h p|ev|K|c|c o|a]; cbn [step].
  - apply count_step_getRoom.
  - apply count_step_subscribe.
  - apply count_step_unsubscribe.
  - apply count_step_settle.
  - apply count_step_deliver.
  - apply count_step_trigger_updated.
  - apply count_step_activity, activity_step_getRoomActivities.
  - apply count_step_activity, activity_step_subscribe.
  - apply count_step_activity, activity_step_unsubscribe.
  - apply count_step_activity. apply (mercury_activity_step deconstructHydraId a st).
Qed.

Lemma count_inv_run deconstructHydraId acts : ∀ st,
  count_inv st → count_inv (run deconstructHydraId acts st).
Proof.
  induction acts as [|a acts IH]; intros st Hst; [done|].
  cbn. apply IH. eapply count_step_inv; [apply count_step_step|done].
Qed.

Lemma count_inv_initial : count_inv initial_state.
Proof. split; [done|]. cbn. lia. Qed.

Section ListenerCount.
Variable deconstructHydraId : string → string.

(** X10: in every reachable state [listenerCount] is the number of times
    [startListeningToRoomUpdates] was entered minus the number of times
    [stopListeningToRoomUpdates] was entered (nothing else writes it), and it
    does not exceed the number of observables in the cache. *)
Theorem listenerCount_follows_the_gate acts :
  let st := run deconstructHydraId acts initial_state in
  listenerCount st
  = (Z.of_nat (count_events is_acquire (trace st))
     - Z.of_nat (count_events is_release (trace st)))%Z ∧
  (listenerCount st ≤ Z.of_nat (size (getRoomObservables st)))%Z.
Proof. intros st. apply (count_inv_run deconstructHydraId acts _ count_inv_initial). Qed.

(** X11: whenever the cache of room observables is empty, the SDK is not
    listening to room updates: every [rooms.listen()] was followed by a
    [rooms.stopListening()], and the counter is not positive. *)
Theorem empty_cache_means_not_listening acts :
  let st := run deconstructHydraId acts initial_state in
  getRoomObservables st = ∅ →
  listening_now (trace st) = false ∧ (listenerCount st ≤ 0)%Z.
Proof.
  intros st Hempty.
  destruct (count_inv_run deconstructHydraId acts _ count_inv_initial) as [_ Hle].
  destruct (wf_run deconstructHydraId acts _ wf_initial) as [_ _ [_ Hg]].
  fold st in Hle, Hg. rewrite Hempty, map_size_empty in Hle.
  split; [|done]. destruct (listening_now (trace st)); [|done].
  specialize (Hg eq_refl). lia.
Qed.

End ListenerCount.

Lemma empty_cache_means_not_listening_witness :
  let st := run (λ ID, ID)
              [GetRoom "room-1"; Subscribe 0; Unsubscribe 0 0] initial_state in
  listening_now (trace st) = false ∧ (listenerCount st ≤ 0)%Z.
Proof.
  apply (empty_cache_means_not_listening (λ ID, ID)
           [GetRoom "room-1"; Subscribe 0; Unsubscribe 0 0]).
  by vm_compute.
Defined.

(** ** Handlers of the activity side *)

Section ActivityHandlersKept.
Variable deconstructHydraId : string → string.

Lemma on_activity_shape a c st :
  let st' := completion_state (on_activity deconstructHydraId a c st) in
  length (channels st') = length (channels st) ∧
  activity_listeners st' = activity_listeners st.
Proof.
  unfold on_activity. destruct (channels st !! c) as [ch|]; [|done].
  destruct (act_target a) as [tid|]; [|done]. case_bool_decide; [|done].
  destruct (act_object a), (act_actor a); try done. cbn.
  by rewrite length_alter.
Qed.

Lemma dispatch_activity_shape a cs : ∀ st,
  let st' := completion_state (dispatch_activity deconstructHydraId a cs st) in
  length (channels st') = length (channels st) ∧
  activity_listeners st' = activity_listeners st.
Proof.
  induction cs as [|c cs IH]; intros st; [done|]. cbn.
  pose proof (on_activity_shape a c st) as Hc. cbn zeta in Hc.
  destruct (on_activity deconstructHydraId a c st) as [st1|err st1]; cbn in *; [|done].
  destruct (IH st1) as [H1 H2]. destruct Hc as [H3 H4]. split; congruence.
Qed.

Lemma handlers_inv_kept st st' : channels_kept st st' → handlers_inv st → handlers_inv st'.
Proof. intros (Hc & Hg & Hl) [H1 H2]. unfold handlers_inv. by rewrite Hc, Hg, Hl. Qed.

Lemma handlers_inv_step st a :
  handlers_inv st → handlers_inv (step deconstructHydraId st a).
Proof.
  intros Hinv.
  destruct a as [K|h|h o|p o|h p|ev|K|c|c o|a]; cbn [step].
  - eapply handlers_inv_kept; [apply channels_kept_getRoom|done].
  - eapply handlers_inv_kept; [apply channels_kept_subscribe|done].
  - eapply handlers_inv_kept; [apply channels_kept_unsubscribe|done].
  - eapply handlers_inv_kept; [apply channels_kept_settle|done].
  - eapply handlers_inv_kept; [apply channels_kept_deliver|done].
  - eapply handlers_inv_kept; [apply channels_kept_trigger_updated|done].
  - unfold getRoomActivities. destruct (js_in K _) eqn:HK; [done|].
    apply js_in_false in HK as [HK _]. destruct Hinv as [H1 H2].
    unfold handlers_inv. cbn. rewrite length_app, Nat.add_1_r, seq_S, H1.
    by rewrite map_size_insert_None, H2.
  - unfold subscribe_activities. destruct (channels st !! c); [|done].
    destruct Hinv as [H1 H2]. unfold handlers_inv. cbn. by rewrite length_alter.
  - destruct Hinv as [H1 H2]. unfold handlers_inv, unsubscribe_activities. cbn.
    by rewrite length_alter.
  - unfold trigger_activity.
    pose proof (dispatch_activity_shape a (activity_listeners st) st) as Hs.
    pose proof (dispatch_activity_cache deconstructHydraId a (activity_listeners st) st) as Hc.
    cbn zeta in Hs. destruct Hinv as [H1 H2]. unfold handlers_inv.
    destruct (dispatch_activity deconstructHydraId a (activity_listeners st) st)
      as [st'|err st']; cbn in *; destruct Hs as [Hs1 Hs2]; by rewrite Hs1, Hs2, Hc.
Qed.

Lemma handlers_inv_run acts : ∀ st,
  handlers_inv st → handlers_inv (run deconstructHydraId acts st).
Proof.
  induction acts as [|a acts IH]; intros st Hst; [done|].
  cbn. by apply IH, handlers_inv_step.
Qed.

Lemma handlers_inv_initial : handlers_inv initial_state.
Proof. done. Qed.

(** X12: [getRoomActivities] registers one handler on mercury for each
    channel it creates and nothing ever removes one: in every reachable
    state the registered handlers are exactly the channels created so far,
    each once and in the order of creation, whether or not a channel still
    has subscriptions; and there is one channel for each cached ID. *)
Theorem every_channel_keeps_its_handler acts :
  let st := run deconstructHydraId acts initial_state in
  activity_listeners st = seq 0 (length (channels st)) ∧
  size (getRoomActivitiesCache st) = length (channels st) ∧
  ∀ c o, activity_listeners (unsubscribe_activities c o st) = activity_listeners st.
Proof.
  intros st. destruct (handlers_inv_run acts _ handlers_inv_initial) as [H1 H2].
  done.
Qed.

End ActivityHandlersKept.

(** ** A matching activity *)


Section Broadcast.
Variable deconstructHydraId : string → string.
Variable a : SDKActivity.
Variable UUID : string.
Variable obj : SDKObject.
Variable actor : option string.
Hypothesis a_target : act_target a = Some (Some UUID).
Hypothesis a_object : act_object a = Some obj.
Hypothesis a_actor : act_actor a = Some actor.



End Broadcast.

Section ActivityBroadcast.
Variable deconstructHydraId : string → string.


End ActivityBroadcast.


(** ** Handlers on [updated] *)

Lemma registered_frame st st' :
  streams st' = streams st → updated_listeners st' = updated_listeners st →
  registered_ok st → registered_ok st'.
Proof. intros Hs Hl [H1 H2]. unfold registered_ok. by rewrite Hs, Hl. Qed.

Lemma registered_alter st st' h f :
  streams st' = alter f h (streams st) →
  updated_listeners st' = updated_listeners st →
  (∀ s, streams st !! h = Some s →
        is_listening (phase (f s)) = true → is_listening (phase s) = true) →
  registered_ok st → registered_ok st'.
Proof.
  intros Hs Hl Hf [H1 H2]. unfold registered_ok. rewrite Hs, Hl. split; [done|].
  intros h' s' Hs' Hph. destruct (decide (h' = h)) as [->|Hne].
  - rewrite list_lookup_alter_eq in Hs'.
    destruct (streams st !! h) as [s|] eqn:Hsh; [|done]. injection Hs' as <-.
    apply (H2 h s Hsh). by apply Hf.
  - rewrite list_lookup_alter_ne in Hs' by done. by apply (H2 h' s').
Qed.

Lemma registered_disconnect st st' h f :
  streams st' = alter f h (streams st) →
  updated_listeners st' = filter (λ h', h' ≠ h) (updated_listeners st) →
  (∀ s, is_listening (phase (f s)) = false) →
  registered_ok st → registered_ok st'.
Proof.
  intros Hs Hl Hf [H1 H2]. unfold registered_ok. rewrite Hs, Hl.
  split; [by apply NoDup_filter|].
  intros h' s' Hs' Hph. destruct (decide (h' = h)) as [->|Hne].
  - rewrite list_lookup_alter_eq in Hs'.
    destruct (streams st !! h) as [s|] eqn:Hsh; [|done]. injection Hs' as <-.
    by rewrite Hf in Hph.
  - rewrite list_lookup_alter_ne in Hs' by done.
    apply list_elem_of_filter. split; [done|]. by apply (H2 h' s').
Qed.

Lemma registered_connect st st' h f :
  streams st' = alter f h (streams st) →
  updated_listeners st' = updated_listeners st ++ [h] →
  h ∉ updated_listeners st →
  registered_ok st → registered_ok st'.
Proof.
  intros Hs Hl Hnot [H1 H2]. unfold registered_ok. rewrite Hs, Hl. split.
  - apply NoDup_app. split; [done|]. split; [|apply NoDup_singleton].
    intros x Hx ->%list_elem_of_singleton. done.
  - intros h' s' Hs' Hph. apply elem_of_app. destruct (decide (h' = h)) as [->|Hne].
    + right. apply list_elem_of_here.
    + left. rewrite list_lookup_alter_ne in Hs' by done. by apply (H2 h' s').
Qed.

Lemma registered_getRoom K st : registered_ok st → registered_ok (snd (getRoom K st)).
Proof.
  intros [H1 H2]. unfold getRoom. destruct (js_in K _); [done|].
  unfold startListeningToRoomUpdates. cbn.
  destruct (bool_decide (listenerCount st = 0%Z)); (split; [done|]); cbn;
    intros h s [Hs|[_ Hs]]%lookup_app_Some Hph; try (by eapply H2);
    by apply list_lookup_singleton_Some in Hs as [_ <-].
Qed.

Lemma registered_subscribe h st : registered_ok st → registered_ok (subscribe h st).
Proof.
  intros Hok. unfold subscribe. destruct (streams st !! h) as [s|] eqn:Hs; [|done].
  destruct (thrown s) as [err|].
  - destruct (replay s); by apply (registered_frame st).
  - apply (registered_alter
             (match replay s with
              | Some v => log (Notified h (next_subscription st) (Next v))
                            (set_next_subscription S st)
              | None => set_next_subscription S st
              end) _ h
             (λ s0, set_phase match phase s with Idle => AwaitingRoom | ph => ph end
                      (set_observers (observers s0 ++ [next_subscription st]) s0)));
      [by destruct (replay s)|by destruct (replay s)| |by destruct (replay s)].
    intros s0 Hs0.
    assert (s0 = s) as -> by (destruct (replay s); cbn in Hs0; congruence).
    cbn. by destruct (phase s).
Qed.

Lemma registered_teardown h s st : registered_ok st → registered_ok (teardown h s st).
Proof.
  destruct (teardown_fields h s st) as (Hs & _ & Hl & _).
  by apply (registered_disconnect st _ h (set_phase Idle)).
Qed.

Lemma registered_unsubscribe h o st : registered_ok st → registered_ok (unsubscribe h o st).
Proof.
  intros Hok. unfold unsubscribe. destruct (streams st !! h) as [s|]; [|done].
  case_bool_decide; [|done].
  assert (H1 : registered_ok
                 (update_stream h (set_observers (filter (λ o', o' ≠ o) (observers s))) st))
    by by apply (registered_alter st _ h
                   (set_observers (filter (λ o', o' ≠ o) (observers s)))).
  destruct (filter _ _); [|done].
  destruct (phase s); [done|..]; by apply registered_teardown.
Qed.

Lemma registered_fail h s err st : registered_ok st → registered_ok (fail h s err st).
Proof.
  destruct (fail_fields h s err st) as (Hs & _ & Hl & _).
  by apply (registered_disconnect st _ h
              (λ s, set_observers [] (set_thrown err (set_phase Idle s)))).
Qed.

Lemma registered_emit h s v st : registered_ok st → registered_ok (emit h s v st).
Proof.
  destruct (emit_fields h s v st) as (Hs & _ & Hl & _).
  by apply (registered_alter st _ h (set_replay v)).
Qed.

Lemma registered_deliver h p st :
  listeners_ok st → registered_ok st → registered_ok (deliver h p st).
Proof.
  intros Hlis Hok. unfold deliver. destruct (streams st !! h) as [s|] eqn:Hs; [|done].
  destruct (promises st !! p) as [[r|]|]; [|done..].
  destruct (phase s) as [| |inners] eqn:Hph; [done| |].
  - case_bool_decide; [|done]. destruct r as [rm|err]; [|by apply registered_fail].
    destruct (emit_fields h s (mkSnapshot Initial rm) st) as (Hse & _ & Hle & _).
    apply (registered_connect (emit h s (mkSnapshot Initial rm) st) _ h
             (set_phase (Listening []))); [done|done| |by apply registered_emit].
    rewrite Hle. intros Hin. destruct (Hlis h Hin) as (s' & Hs' & Hl').
    assert (s' = s) as -> by congruence. by rewrite Hph in Hl'.
  - case_bool_decide; [|done]. destruct r as [rm|err]; [|by apply registered_fail].
    apply registered_emit.
    apply (registered_alter st _ h
             (set_phase (Listening (filter (λ q, q ≠ p) inners)))); try done.
    intros s0 Hs0 _. assert (s0 = s) as -> by congruence. by rewrite Hph.
Qed.

Lemma registered_on_updated ev h st : registered_ok st → registered_ok (on_updated ev st h).
Proof.
  intros Hok. unfold on_updated. destruct (streams st !! h) as [s|] eqn:Hs; [|done].
  destruct (phase s) as [| |inners] eqn:Hph; [done..|].
  destruct (data ev) as [i|]; [|by apply registered_fail].
  case_bool_decide; [|done].
  apply (registered_alter st _ h
           (set_phase (Listening (inners ++ [length (promises st)])))); try done.
  intros s0 Hs0 _. assert (s0 = s) as -> by congruence. by rewrite Hph.
Qed.

Lemma registered_trigger_updated ev st :
  registered_ok st → registered_ok (trigger_updated ev st).
Proof.
  unfold trigger_updated. generalize (updated_listeners st) as l.
  intros l. revert st. induction l as [|h l IH]; intros st Hok; [done|].
  cbn. by apply IH, registered_on_updated.
Qed.

Lemma registered_activity st st' : activity_step st st' → registered_ok st → registered_ok st'.
Proof. intros (Hs & _ & Hl & _). by apply registered_frame. Qed.

Lemma registered_step deconstructHydraId st a :
  listeners_ok st → registered_ok st → registered_ok (step deconstructHydraId st a).
Proof.
  intros Hlis Hok.
  destruct a as [K|h|h o|p o|h p|ev|K|c|c o|a]; cbn [step].
  - by apply registered_getRoom.
  - by apply registered_subscribe.
  - by apply registered_unsubscribe.
  - unfold settle. destruct (promises st !! p) as [[r|]|]; try done.
  - by apply registered_deliver.
  - by apply registered_trigger_updated.
  - eapply registered_activity; [apply activity_step_getRoomActivities|done].
  - eapply registered_activity; [apply activity_step_subscribe|done].
  - eapply registered_activity; [apply activity_step_unsubscribe|done].
  - eapply registered_activity; [|done].
    apply (mercury_activity_step deconstructHydraId a st).
Qed.

Lemma registered_run deconstructHydraId acts : ∀ st,
  wf st → registered_ok st → registered_ok (run deconstructHydraId acts st).
Proof.
  induction acts as [|a acts IH]; intros st Hwf Hok; [done|].
  cbn. apply IH; [by apply wf_step|].
  apply registered_step; [|done]. by destruct Hwf as [[]].
Qed.

Lemma registered_initial : registered_ok initial_state.
Proof. split; [constructor|]. intros h s Hs. cbn in Hs. by rewrite lookup_nil in Hs. Qed.

Lemma on_updated_promises ev h st :
  ∃ suf, promises (on_updated ev st h) = promises st ++ suf.
Proof.
  unfold on_updated.
  assert (Hsame : ∃ suf, promises st = promises st ++ suf)
    by (exists []; by rewrite app_nil_r).
  destruct (streams st !! h) as [s|]; [|done].
  destruct (phase s) as [| |inners]; [done..|].
  destruct (data ev) as [i|].
  - case_bool_decide; [|done]. by exists [None].
  - destruct (fail_fields h s "TypeError" st) as (_ & _ & _ & _ & _ & _ & Hp & _).
    by rewrite Hp.
Qed.

Lemma foldl_on_updated_promises ev l : ∀ st,
  ∃ suf, promises (foldl (on_updated ev) st l) = promises st ++ suf.
Proof.
  induction l as [|h l IH]; intros st; [exists []; by rewrite app_nil_r|].
  cbn. destruct (on_updated_promises ev h st) as (suf1 & H1).
  destruct (IH (on_updated ev st h)) as (suf2 & H2).
  exists (suf1 ++ suf2). by rewrite H2, H1, app_assoc.
Qed.

Lemma received_rev_not_about h o pre :
  Forall (λ e, ¬ about_stream h e) pre → received_rev h o pre = [].
Proof.
  induction 1 as [|e pre He _ IH]; [done|].
  unfold received_rev in *. cbn. rewrite IH.
  destruct e as [| | | | | | |h0 o0 [v|err]| |]; try done. cbn in *.
  rewrite bool_decide_eq_false_2; [done|]. naive_solver.
Qed.

Lemma filter_fetch_replicate n K :
  List.filter is_fetch (replicate n (CallRoomsGet K)) = replicate n (CallRoomsGet K).
Proof. induction n as [|n IH]; [done|]. cbn. by rewrite IH. Qed.

Section UpdatePath.
Variable deconstructHydraId : string → string.

(** X14: on the room side the handlers on [updated] follow the streams: in
    every reachable state a stream has a handler exactly when it is
    subscribed to [roomUpdate$] (its first fetch was delivered and it was not
    torn down since), and no stream has two handlers. *)
Theorem updated_handlers_follow_the_streams acts :
  let st := run deconstructHydraId acts initial_state in
  NoDup (updated_listeners st) ∧
  ∀ h, h ∈ updated_listeners st
       ↔ ∃ s, streams st !! h = Some s ∧ is_listening (phase s) = true.
Proof.
  intros st.
  pose proof (wf_run deconstructHydraId acts _ wf_initial) as [[_ _ Hl _ _ _] _ _].
  destruct (registered_run deconstructHydraId acts _ wf_initial registered_initial)
    as [Hnd Hreg].
  fold st in Hl, Hnd, Hreg. split; [done|]. intros h. split; [apply Hl|].
  intros (s & Hs & Hph). by apply (Hreg h s).
Qed.

(** What an [updated] event naming [K] does to the stream cached for [K]
    when it is subscribed to [roomUpdate$], and what the delivery of the
    re-fetch then gives its subscriptions. *)
Lemma update_path acts K h s inners :
  let st := run deconstructHydraId acts initial_state in
  getRoomObservables st !! K = Some h →
  streams st !! h = Some s →
  phase s = Listening inners →
  let st' := step deconstructHydraId st (RoomUpdated (mkUpdateEvent (Some (Some K)))) in
  1 ≤ refetch_count K st ∧
  trace st' = replicate (refetch_count K st) (CallRoomsGet K) ++ trace st ∧
  promises st' = promises st ++ replicate (refetch_count K st) None ∧
  ∃ p, streams st' !! h = Some (set_phase (Listening (inners ++ [p])) s) ∧
       length (promises st) ≤ p ∧
       p < length (promises st) + refetch_count K st ∧
       promises st' !! p = Some None ∧
       (∀ o, received h o (trace st') = received h o (trace st)) ∧
       ∀ r o,
         o ∈ observers s →
         received h o
           (trace (run deconstructHydraId
                     [Settle p (SdkResolved (Some r)); Deliver h p] st'))
         = received h o (trace st)
           ++ [mkSnapshot Update
                 {| room_ID := sdk_id r; room_title := sdk_title r;
                    room_type := sdk_type r |}].
Proof.
  intros st HK Hs Hph st'.
  pose proof (wf_run deconstructHydraId acts _ wf_initial) as [[_ [_ Hf] _ _ _ Hca] _ _].
  destruct (registered_run deconstructHydraId acts _ wf_initial registered_initial)
    as [Hnd Hreg].
  fold st in Hf, Hca, Hnd, Hreg.
  destruct (Hca K h HK) as (s0 & Hs0 & HID & _).
  assert (s0 = s) as -> by congruence.
  destruct (Hf h s Hs) as [Hobs _].
  assert (Hin : h ∈ updated_listeners st) by (apply (Hreg h s Hs); by rewrite Hph).
  apply list_elem_of_split in Hin as (l1 & l2 & Hl).
  rewrite Hl in Hnd. apply NoDup_app in Hnd as (_ & Hl1 & Hnd2).
  apply NoDup_cons in Hnd2 as [Hl2 _].
  assert (Hl1' : h ∉ l1) by (intros Hin; apply (Hl1 h Hin), list_elem_of_here).
  set (ev := mkUpdateEvent (Some (Some K))) in *.
  destruct (foldl_on_updated_named ev K (updated_listeners st) st eq_refl)
    as (HtrN & HpN & _).
  change (foldl (on_updated ev) st (updated_listeners st)) with st' in HtrN, HpN.
  fold (refetch_count K st) in HtrN, HpN.
  assert (Hcount : 1 ≤ refetch_count K st).
  { assert (Hrf : In h (List.filter (refetches K st) (updated_listeners st))).
    { apply filter_In. split.
      - rewrite Hl. apply in_or_app. right. by left.
      - unfold refetches. rewrite Hs, Hph. cbn. by rewrite bool_decide_eq_true_2. }
    unfold refetch_count.
    destruct (List.filter (refetches K st) (updated_listeners st)); [done|cbn; lia]. }
  assert (Hst' : st' = foldl (on_updated ev) (on_updated ev (foldl (on_updated ev) st l1) h) l2).
  { subst st'. cbn [step]. unfold trigger_updated. by rewrite Hl, foldl_app. }
  set (sta := foldl (on_updated ev) st l1) in *.
  destruct (trigger_updated_other ev h l1 st Hl1') as (Hsa & pre1 & Htr1 & Hpre1 & _).
  fold sta in Hsa, Htr1. rewrite Hs in Hsa.
  destruct (foldl_on_updated_promises ev l1 st) as (suf1 & Hp1). fold sta in Hp1.
  set (p := length (promises sta)).
  assert (Hb : on_updated ev sta h
               = update_stream h (set_phase (Listening (inners ++ [p])))
                   (set_promises (λ ps, ps ++ [None]) (log (CallRoomsGet K) sta))).
  { unfold on_updated. rewrite Hsa, Hph. cbn [data ev].
    rewrite bool_decide_eq_true_2 by (by rewrite HID). by rewrite HID. }
  set (stb := on_updated ev sta h) in *.
  assert (Hsb : streams stb !! h = Some (set_phase (Listening (inners ++ [p])) s))
    by (rewrite Hb; cbn; by rewrite list_lookup_alter_eq, Hsa).
  assert (Hpb : promises stb !! p = Some None)
    by (rewrite Hb; cbn; apply lookup_new_stream).
  assert (Htrb : trace stb = CallRoomsGet K :: trace sta) by by rewrite Hb.
  destruct (trigger_updated_other ev h l2 stb Hl2) as (Hsc & pre2 & Htr2 & Hpre2 & _).
  destruct (foldl_on_updated_promises ev l2 stb) as (suf2 & Hp2).
  rewrite <-Hst' in Hsc, Htr2, Hp2. rewrite Hsb in Hsc.
  assert (Hpc : promises st' !! p = Some None)
    by (rewrite Hp2; by apply lookup_app_l_Some).
  assert (Hrec : ∀ o, received h o (trace st') = received h o (trace st)).
  { intros o. unfold received. f_equal. rewrite Htr2, Htrb, Htr1.
    change (CallRoomsGet K :: pre1 ++ trace st)
      with ([CallRoomsGet K] ++ pre1 ++ trace st).
    rewrite !received_rev_app.
    rewrite (received_rev_not_about h o pre2 Hpre2), (received_rev_not_about h o pre1 Hpre1).
    done. }
  split; [done|]. split; [done|]. split; [done|].
  exists p. split; [done|]. split; [unfold p; rewrite Hp1, length_app; lia|].
  split.
  { apply lookup_lt_Some in Hpc. rewrite HpN, length_app, length_replicate in Hpc. lia. }
  split; [done|].
  split; [done|]. intros r o Ho. cbn [run foldl step].
  set (rm := {| room_ID := sdk_id r; room_title := sdk_title r; room_type := sdk_type r |}).
  assert (Hset : settle p (SdkResolved (Some r)) st'
                 = set_promises (<[p := Some (Fulfilled rm)]>) st')
    by (unfold settle; by rewrite Hpc).
  rewrite Hset.
  pose proof (deliver_fulfilled_fields h _ p rm
                (set_promises (<[p := Some (Fulfilled rm)]>) st') Hsc) as Hd.
  cbn zeta in Hd. destruct Hd as (_ & _ & Htr & _).
  { unfold awaits. cbn. apply elem_of_app. right. apply list_elem_of_here. }
  { cbn. apply list_lookup_insert_eq. by apply lookup_lt_is_Some. }
  rewrite Htr. cbn [phase set_phase delivered_snapshot observers].
  rewrite received_app_emit by done. rewrite bool_decide_eq_true_2 by done.
  cbn [trace set_promises]. by rewrite Hrec.
Qed.


(** X15: the update path.  When the cached stream of [K] is subscribed to
    [roomUpdate$], an [updated] event whose [data.id] is [K] adds to the
    trace exactly one call of [rooms.get(K)] for each handler that re-fetches
    for [K], the one of the cached stream among them, and one pending promise
    for each call; one of these promises, [p], joins the re-fetches in flight
    of the cached stream, and nothing is notified yet.  When [rooms.get] then
    resolves [p] with a room and the reaction runs, every subscription of the
    stream receives that room, with [id] renamed to [ID], as its next
    snapshot. *)
Theorem update_refetches_the_cached_room acts K h s inners :
  let st := run deconstructHydraId acts initial_state in
  getRoomObservables st !! K = Some h →
  streams st !! h = Some s →
  phase s = Listening inners →
  let st' := step deconstructHydraId st (RoomUpdated (mkUpdateEvent (Some (Some K)))) in
  1 ≤ refetch_count K st ∧
  trace st' = replicate (refetch_count K st) (CallRoomsGet K) ++ trace st ∧
  count_events is_fetch (trace st')
  = count_events is_fetch (trace st) + refetch_count K st ∧
  promises st' = promises st ++ replicate (refetch_count K st) None ∧
  ∃ p, streams st' !! h = Some (set_phase (Listening (inners ++ [p])) s) ∧
       length (promises st) ≤ p ∧
       p < length (promises st) + refetch_count K st ∧
       promises st' !! p = Some None ∧
       (∀ o, received h o (trace st') = received h o (trace st)) ∧
       ∀ r o,
         o ∈ observers s →
         received h o
           (trace (run deconstructHydraId
                     [Settle p (SdkResolved (Some r)); Deliver h p] st'))
         = received h o (trace st)
           ++ [mkSnapshot Update
                 {| room_ID := sdk_id r; room_title := sdk_title r;
                    room_type := sdk_type r |}].
Proof.
  intros st HK Hs Hph st'.
  destruct (update_path acts K h s inners HK Hs Hph) as (Hn & Htr & Hp & Hrest).
  fold st st' in Hn, Htr, Hp, Hrest.
  split; [done|]. split; [done|]. split; [|by split].
  rewrite Htr, count_events_app. unfold count_events at 1.
  rewrite filter_fetch_replicate, length_replicate. lia.
Qed.

(** C2: on the stream cached for [K], once a snapshot has been produced, a
    new subscription is handed the last produced snapshot at once, nothing
    else is added to the trace (no call of [rooms.get]), no promise is
    created, and the subscription is in the subject.  It then receives the
    live snapshots: a re-fetch in flight that is delivered next; the room
    re-fetched for the next [updated] event that names [K], which calls
    [rooms.get(K)] and whose delivery makes the subscription's snapshots the
    replayed one followed by the update; and, after any further actions,
    every snapshot that the stream emits while the subscription is attached. *)
Theorem late_observer_gets_last_snapshot acts K h v :
  let st := run deconstructHydraId acts initial_state in
  getRoomObservables st !! K = Some h →
  last_emitted h (trace st) = Some v →
  let o := next_subscription st in
  let st' := subscribe h st in
  trace st' = Notified h o (Next v) :: trace st ∧
  count_events is_fetch (trace st') = count_events is_fetch (trace st) ∧
  promises st' = promises st ∧
  (∃ s', streams st' !! h = Some s' ∧
         o ∈ observers s' ∧
         ∀ p rm, awaits s' p →
                 promises st' !! p = Some (Some (Fulfilled rm)) →
                 Notified h o (Next (mkSnapshot Update rm)) ∈ trace (deliver h p st')) ∧
  received h o (trace st') = [v] ∧
  (let st1 := step deconstructHydraId st'
                (RoomUpdated (mkUpdateEvent (Some (Some K)))) in
   1 ≤ refetch_count K st' ∧
   trace st1 = replicate (refetch_count K st') (CallRoomsGet K) ++ trace st' ∧
   ∃ p, promises st1 !! p = Some None ∧
        ∀ r, received h o
               (trace (run deconstructHydraId
                         [Settle p (SdkResolved (Some r)); Deliver h p] st1))
             = [v; mkSnapshot Update
                     {| room_ID := sdk_id r; room_title := sdk_title r;
                        room_type := sdk_type r |}]) ∧
  (∀ acts' s2 p rm,
     let st2 := run deconstructHydraId acts' st' in
     streams st2 !! h = Some s2 →
     o ∈ observers s2 →
     awaits s2 p →
     promises st2 !! p = Some (Some (Fulfilled rm)) →
     received h o (trace (deliver h p st2))
     = received h o (trace st2) ++ [delivered_snapshot (phase s2) rm]).
Proof.
  intros st HK Hlast o st'.
  pose proof (wf_run deconstructHydraId acts _ wf_initial) as [[Hids Hf Hl Hc Hr Hca] _ _].
  fold st in Hids, Hf, Hl, Hc, Hr, Hca.
  destruct (Hca K h HK) as (s & Hs & HID & Hth & Hquiet & _).
  pose proof (Hr h s Hs) as Hrep. rewrite Hlast in Hrep.
  assert (Hlis : ∃ inners, phase s = Listening inners).
  { destruct (phase s) as [| |inners] eqn:Hph; [| |by exists inners].
    - destruct Hquiet as [Hnone _]; [done|congruence].
    - destruct Hquiet as [Hnone _]; [done|congruence]. }
  destruct Hlis as [inners Hph].
  assert (Hrun : ∀ acts', run deconstructHydraId acts' st'
                          = run deconstructHydraId (acts ++ Subscribe h :: acts') initial_state).
  { intros acts'. unfold run. by rewrite foldl_app. }
  assert (Hst' : st' = update_stream h
                         (λ s0, set_phase (Listening inners)
                                  (set_observers (observers s0 ++ [o]) s0))
                         (log (Notified h o (Next v)) (set_next_subscription S st))).
  { subst st'. unfold subscribe. by rewrite Hs, Hrep, Hth, Hph. }
  set (s' := set_phase (Listening inners) (set_observers (observers s ++ [o]) s)).
  assert (Ho : o ∈ observers s').
  { cbn. apply elem_of_app. right. by apply list_elem_of_singleton. }
  assert (Hs' : streams st' !! h = Some s').
  { rewrite Hst'. cbn. by rewrite list_lookup_alter_eq, Hs. }
  assert (Htr' : trace st' = Notified h o (Next v) :: trace st) by by rewrite Hst'.
  assert (Hrec : received h o (trace st') = [v]).
  { unfold received. rewrite Htr'.
    change (Notified h o (Next v) :: trace st) with ([Notified h o (Next v)] ++ trace st).
    rewrite received_rev_app. rewrite (received_rev_fresh st h o).
    - unfold received_rev. cbn. by rewrite bool_decide_eq_true_2.
    - by destruct Hf.
    - unfold o. lia. }
  split; [done|]. split; [by rewrite Htr'|]. split; [by rewrite Hst'|]. split.
  { exists s'. split; [done|]. split; [done|].
    intros p rm Haw Hp. unfold awaits in Haw. cbn in Haw.
    unfold deliver. rewrite Hs', Hp. cbn [phase s' set_phase].
    rewrite bool_decide_eq_true_2 by done. by apply emit_notifies. }
  split; [done|]. split.
  - assert (HK' : getRoomObservables st' !! K = Some h) by by rewrite Hst'.
    pose proof (Hrun []) as Hr0. cbn [run foldl] in Hr0.
    pose proof (update_path (acts ++ [Subscribe h]) K h s' inners) as Hup.
    cbn zeta in Hup. unfold run in Hup. rewrite foldl_app in Hup. cbn [foldl step] in Hup.
    fold (run deconstructHydraId acts initial_state) in Hup. fold st st' in Hup.
    destruct (Hup HK' Hs' eq_refl) as (Hn & Htr1 & _ & p & _ & _ & _ & Hpp & _ & Hlive).
    cbn zeta. split; [done|]. split; [done|]. exists p. split; [done|].
    intros r. etransitivity; [apply (Hlive r o Ho)|]. by rewrite Hrec.
  - intros acts' s2 p rm st2 Hs2 Ho2 Haw Hp. subst st2. rewrite Hrun in *.
    pose proof (wf_run deconstructHydraId (acts ++ Subscribe h :: acts') _ wf_initial)
      as [[_ [_ Hf2] _ _ _ _] _ _].
    destruct (Hf2 h s2 Hs2) as [Hnd _].
    pose proof (deliver_fulfilled_fields h s2 p rm _ Hs2 Haw Hp) as Hd. cbn zeta in Hd.
    destruct Hd as (_ & _ & Htr & _). rewrite Htr.
    rewrite received_app_emit by done. by rewrite bool_decide_eq_true_2.
Qed.

End UpdatePath.

Lemma update_refetches_the_cached_room_witness :
  let st := run (λ ID, ID)
              [GetRoom "room-1"; Subscribe 0; Settle 0 (SdkResolved (Some standup));
               Deliver 0 0] initial_state in
  let st' := step (λ ID, ID) st (RoomUpdated (mkUpdateEvent (Some (Some "room-1")))) in
  refetch_count "room-1" st = 1 ∧
  trace st' = replicate (refetch_count "room-1" st) (CallRoomsGet "room-1") ++ trace st ∧
  ∃ p, streams st' !! 0
       = Some (set_phase (Listening ([] ++ [p]))
                 (mkStream "room-1" 0
                    (Some (mkSnapshot Initial (mkRoom "room-1" "Standup" "group")))
                    None [0] (Listening []))) ∧
       promises st' !! p = Some None.
Proof.
  intros st st'.
  destruct (update_refetches_the_cached_room (λ ID, ID)
              [GetRoom "room-1"; Subscribe 0; Settle 0 (SdkResolved (Some standup));
               Deliver 0 0]
              "room-1" 0
              (mkStream "room-1" 0
                 (Some (mkSnapshot Initial (mkRoom "room-1" "Standup" "group")))
                 None [0] (Listening [])) [])
    as (_ & Htr & _ & _ & p & H1 & _ & _ & H2 & _).
  - by vm_compute.
  - by vm_compute.
  - reflexivity.
  - split; [by vm_compute|]. split; [exact Htr|]. exists p. split; [exact H1|exact H2].
Defined.

(** A second observer arrives after the first snapshot of the room, and the
    room is updated afterwards. *)
Lemma late_observer_gets_last_snapshot_witness :
  let st := run (λ ID, ID)
              [GetRoom "room-1"; Subscribe 0; Settle 0 (SdkResolved (Some standup));
               Deliver 0 0] initial_state in
  let st' := subscribe 0 st in
  let st1 := step (λ ID, ID) st' (RoomUpdated (mkUpdateEvent (Some (Some "room-1")))) in
  trace st'
  = Notified 0 1 (Next (mkSnapshot Initial (mkRoom "room-1" "Standup" "group"))) :: trace st ∧
  refetch_count "room-1" st' = 1 ∧
  trace st1 = replicate (refetch_count "room-1" st') (CallRoomsGet "room-1") ++ trace st' ∧
  ∃ p, received 0 1
         (trace (run (λ ID, ID)
                   [Settle p (SdkResolved (Some standup_renamed)); Deliver 0 p] st1))
       = [mkSnapshot Initial (mkRoom "room-1" "Standup" "group");
          mkSnapshot Update (mkRoom "room-1" "Standup (renamed)" "group")].
Proof.
  intros st st' st1.
  destruct (late_observer_gets_last_snapshot (λ ID, ID)
              [GetRoom "room-1"; Subscribe 0; Settle 0 (SdkResolved (Some standup));
               Deliver 0 0]
              "room-1" 0 (mkSnapshot Initial (mkRoom "room-1" "Standup" "group")))
    as (Htr & _ & _ & _ & _ & (_ & Htr1 & p & _ & Hlive) & _).
  - by vm_compute.
  - by vm_compute.
  - split; [exact Htr|]. split; [by vm_compute|]. split; [exact Htr1|].
    exists p. exact (Hlive standup_renamed).
Defined.

(** ** Values of an activity channel *)

Lemma silent_getRoom (f : Event → bool) K st :
  (∀ ID, f (CallRoomsGet ID) = false) →
  f CallRoomsListen = false → f GateAcquire = false →
  List.filter f (trace (snd (getRoom K st))) = List.filter f (trace st).
Proof.
  intros Hget Hlisten Hacq. unfold getRoom. destruct (js_in K _); [done|].
  unfold startListeningToRoomUpdates. cbn.
  destruct (bool_decide (listenerCount st = 0%Z)); cbn; by rewrite Hget, ?Hlisten, Hacq.
Qed.

Lemma alter_absent {A} (f : A → A) (l : list A) i : l !! i = None → alter f i l = l.
Proof.
  intros Hi. apply list_eq. intros j. destruct (decide (j = i)) as [->|Hne].
  - by rewrite list_lookup_alter_eq, Hi.
  - by rewrite list_lookup_alter_ne.
Qed.

Section ChannelValues.
Variable deconstructHydraId : string → string.

Lemma notified_ok_kept st st' e :
  channel_ids_kept st st' →
  notified_ok deconstructHydraId st e → notified_ok deconstructHydraId st' e.
Proof.
  intros Hk. destruct e; try done. cbn. intros (ch & Hch & Hv).
  destruct (Hk _ _ Hch) as (ch' & Hch' & HID). exists ch'. by rewrite HID.
Qed.

Lemma channel_ids_kept_alter (f : Channel → Channel) c st st' :
  channels st' = alter f c (channels st) →
  (∀ ch, channel_ID (f ch) = channel_ID ch) →
  channel_ids_kept st st'.
Proof.
  intros Hs Hf c0 ch0 Hch0. rewrite Hs. destruct (decide (c0 = c)) as [->|Hne].
  - exists (f ch0). by rewrite list_lookup_alter_eq, Hch0.
  - exists ch0. by rewrite list_lookup_alter_ne.
Qed.

(** A transition of the room side: the channels and what their
    subscriptions were notified are unchanged. *)
Lemma channel_values_room st st' :
  channels st' = channels st →
  List.filter is_activity_notified (trace st')
  = List.filter is_activity_notified (trace st) →
  channel_values_ok deconstructHydraId st → channel_values_ok deconstructHydraId st'.
Proof.
  intros Hc Htr [H1 H2]. unfold channel_values_ok. rewrite Hc, Htr. split; [done|].
  eapply Forall_impl; [exact H2|]. intros e. apply notified_ok_kept.
  intros c ch Hch. exists ch. by rewrite Hc.
Qed.

(** A transition that alters one channel, keeping its ID, and notifies
    values fit for it. *)
Lemma channel_values_alter (f : Channel → Channel) c ch pre st st' :
  channels st !! c = Some ch →
  channels st' = alter f c (channels st) →
  (∀ ch0, channel_ID (f ch0) = channel_ID ch0) →
  value_of_room deconstructHydraId (channel_ID ch) (current (f ch)) →
  trace st' = pre ++ trace st →
  Forall (λ e, ∃ o v, e = ActivityNotified c o v ∧
                      value_of_room deconstructHydraId (channel_ID ch) v) pre →
  channel_values_ok deconstructHydraId st → channel_values_ok deconstructHydraId st'.
Proof.
  intros Hch Hs Hf Hcur Htr Hpre [H1 H2].
  pose proof (channel_ids_kept_alter f c st st' Hs Hf) as Hk.
  split.
  - intros c0 ch0. rewrite Hs. destruct (decide (c0 = c)) as [->|Hne].
    + rewrite list_lookup_alter_eq, Hch. intros [= <-]. by rewrite Hf.
    + rewrite list_lookup_alter_ne by done. apply H1.
  - rewrite Htr, List.filter_app. apply Forall_app. split.
    + apply Forall_forall. intros e He.
      apply list_elem_of_In, filter_In in He as [He _]. apply list_elem_of_In in He.
      apply (proj1 (Forall_forall _ _) Hpre) in He as (o & v & -> & Hv).
      cbn. destruct (Hk c ch Hch) as (ch' & Hch' & HID). exists ch'. by rewrite HID.
    + eapply Forall_impl; [exact H2|]. intros e. by apply notified_ok_kept.
Qed.

Lemma channel_values_on_activity a c st :
  channel_values_ok deconstructHydraId st →
  channel_values_ok deconstructHydraId
    (completion_state (on_activity deconstructHydraId a c st)).
Proof.
  intros Hok. unfold on_activity. destruct (channels st !! c) as [ch|] eqn:Hch; [|done].
  destruct (act_target a) as [tid|]; [|done]. case_bool_decide as Ht; [|done].
  destruct (act_object a) as [obj|], (act_actor a) as [actor|]; try done. cbn.
  eapply (channel_values_alter _ c ch); [exact Hch|reflexivity|done| |reflexivity| |exact Hok].
  - done.
  - apply Forall_rev, Forall_map, Forall_forall. intros o _. by exists o, (ActivityObject
      {| activity_ID := act_id a; roomID := tid; content := obj;
         contentType := objectType obj; personID := actor;
         displayAuthor := false; created := act_published a |}).
Qed.

Lemma channel_values_dispatch a cs : ∀ st,
  channel_values_ok deconstructHydraId st →
  channel_values_ok deconstructHydraId
    (completion_state (dispatch_activity deconstructHydraId a cs st)).
Proof.
  induction cs as [|c cs IH]; intros st Hok; [done|]. cbn.
  pose proof (channel_values_on_activity a c st Hok) as Hc.
  destruct (on_activity deconstructHydraId a c st) as [st1|err st1]; cbn in *; [|done].
  by apply IH.
Qed.

Lemma channel_values_step st a :
  channel_values_ok deconstructHydraId st →
  channel_values_ok deconstructHydraId (step deconstructHydraId st a).
Proof.
  intros Hok.
  destruct a as [K|h|h o|p o|h p|ev|K|c|c o|a]; cbn [step].
  - apply (channel_values_room st); [apply channels_kept_getRoom|by apply silent_getRoom|done].
  - apply (channel_values_room st); [apply channels_kept_subscribe|by apply silent_subscribe|done].
  - apply (channel_values_room st);
      [apply channels_kept_unsubscribe|by apply silent_unsubscribe|done].
  - apply (channel_values_room st); [apply channels_kept_settle|by apply silent_settle|done].
  - apply (channel_values_room st); [apply channels_kept_deliver|by apply silent_deliver|done].
  - apply (channel_values_room st);
      [apply channels_kept_trigger_updated|by apply silent_trigger_updated|done].
  - unfold getRoomActivities. destruct (js_in K _); [done|]. cbn.
    destruct Hok as [H1 H2]. split; cbn.
    + intros c ch [Hch|[_ Hch]]%lookup_app_Some; [by apply (H1 c)|].
      by apply list_lookup_singleton_Some in Hch as [_ <-].
    + eapply Forall_impl; [exact H2|]. intros e. apply notified_ok_kept.
      intros c ch Hch. exists ch. split; [|done]. cbn. by apply lookup_app_l_Some.
  - unfold subscribe_activities. destruct (channels st !! c) as [ch|] eqn:Hch; [|done].
    eapply (channel_values_alter _ c ch
              [ActivityNotified c (next_subscription st) (current ch)]);
      [exact Hch|reflexivity|done| |reflexivity| |exact Hok].
    + cbn. by apply (proj1 Hok c).
    + constructor; [|constructor]. exists (next_subscription st), (current ch).
      split; [done|]. by apply (proj1 Hok c).
  - unfold unsubscribe_activities.
    destruct (channels st !! c) as [ch|] eqn:Hch.
    + eapply (channel_values_alter _ c ch []);
        [exact Hch|reflexivity|done| |reflexivity|constructor|exact Hok].
      cbn. by apply (proj1 Hok c).
    + apply (channel_values_room st); [|done..]. cbn. by apply alter_absent.
  - unfold trigger_activity.
    pose proof (channel_values_dispatch a (activity_listeners st) st Hok) as Hd.
    destruct (dispatch_activity deconstructHydraId a (activity_listeners st) st)
      as [st'|err st']; cbn in *; [done|].
    by apply (channel_values_room st').
Qed.

Lemma channel_values_run acts : ∀ st,
  channel_values_ok deconstructHydraId st →
  channel_values_ok deconstructHydraId (run deconstructHydraId acts st).
Proof.
  induction acts as [|a acts IH]; intros st Hst; [done|].
  cbn. by apply IH, channel_values_step.
Qed.

(** X16: a channel only ever carries activities of its own room.  In every
    reachable state the current value of the channel of [K] is the initial
    [{}] or an activity object whose [roomID] is the decoded [K] and whose
    [displayAuthor] is false, and so is every value that a subscription of
    that channel was ever notified with. *)
Theorem channel_carries_only_its_room acts :
  let st := run deconstructHydraId acts initial_state in
  (∀ c ch, channels st !! c = Some ch →
     value_of_room deconstructHydraId (channel_ID ch) (current ch)) ∧
  (∀ c o v, ActivityNotified c o v ∈ trace st →
     ∃ ch, channels st !! c = Some ch ∧
           value_of_room deconstructHydraId (channel_ID ch) v).
Proof.
  intros st.
  assert (H0 : channel_values_ok deconstructHydraId initial_state).
  { split; [|constructor]. intros c ch Hch. cbn in Hch. by rewrite lookup_nil in Hch. }
  destruct (channel_values_run acts _ H0) as [H1 H2]. fold st in H1, H2.
  split; [done|]. intros c o v Hin.
  assert (He : ActivityNotified c o v ∈ List.filter is_activity_notified (trace st)).
  { apply list_elem_of_In, filter_In. split; [by apply list_elem_of_In|done]. }
  apply (proj1 (Forall_forall _ _) H2) in He. exact He.
Qed.

End ChannelValues.

(** ** Entries of the cache over time *)

Lemma cache_step_refl st : cache_step st st.
Proof. split; [done|]. intros K h H. by left. Qed.

Lemma cache_step_trans st1 st2 st3 :
  cache_step st1 st2 → cache_step st2 st3 → cache_step st1 st3.
Proof.
  intros [H1 H2] [H3 H4]. split; [lia|]. intros K h H.
  destruct (H4 K h H) as [H'|H']; [|right; lia]. by apply H2.
Qed.

Lemma cache_step_same st st' :
  length (streams st') = length (streams st) →
  getRoomObservables st' = getRoomObservables st →
  cache_step st st'.
Proof. intros Hs Hg. split; [lia|]. intros K h H. left. by rewrite <-Hg. Qed.

Lemma cache_step_delete st st' K0 :
  length (streams st') = length (streams st) →
  getRoomObservables st' = delete K0 (getRoomObservables st) →
  cache_step st st'.
Proof.
  intros Hs Hg. split; [lia|]. intros K h H. left. rewrite Hg in H.
  by apply lookup_delete_Some in H as [_ H].
Qed.

Lemma cache_step_getRoom K st : cache_step st (snd (getRoom K st)).
Proof.
  destruct (js_in K (getRoomObservables st)) eqn:Hin.
  { unfold getRoom. rewrite Hin. apply cache_step_refl. }
  pose proof (getRoom_miss K st Hin) as H. cbn zeta in H.
  destruct H as (_ & Hgr & Hs & _). split.
  - rewrite Hs, length_app. lia.
  - intros K' h. rewrite Hgr. intros [[_ <-]|[_ H]]%lookup_insert_Some; [by right|by left].
Qed.

Lemma cache_step_subscribe h st : cache_step st (subscribe h st).
Proof.
  unfold subscribe. destruct (streams st !! h) as [s|]; [|apply cache_step_refl].
  destruct (thrown s), (replay s); apply cache_step_same; cbn; by rewrite ?length_alter.
Qed.

Lemma cache_step_teardown h s st : cache_step st (teardown h s st).
Proof.
  destruct (teardown_fields h s st) as (Hs & Hgr & _).
  apply (cache_step_delete _ _ (stream_ID s)); [by rewrite Hs, length_alter|done].
Qed.

Lemma cache_step_unsubscribe h o st : cache_step st (unsubscribe h o st).
Proof.
  unfold unsubscribe. destruct (streams st !! h) as [s|]; [|apply cache_step_refl].
  case_bool_decide; [|apply cache_step_refl].
  assert (H1 : cache_step st
                 (update_stream h (set_observers (filter (λ o', o' ≠ o) (observers s))) st))
    by (apply cache_step_same; cbn; by rewrite ?length_alter).
  destruct (filter _ _); [|done].
  destruct (phase s); [done|..];
    (eapply cache_step_trans; [exact H1|apply cache_step_teardown]).
Qed.

Lemma cache_step_fail h s err st : cache_step st (fail h s err st).
Proof.
  destruct (fail_fields h s err st) as (Hs & Hgr & _).
  apply (cache_step_delete _ _ (stream_ID s)); [by rewrite Hs, length_alter|done].
Qed.

Lemma cache_step_emit h s v st : cache_step st (emit h s v st).
Proof.
  destruct (emit_fields h s v st) as (Hs & Hgr & _).
  apply cache_step_same; [by rewrite Hs, length_alter|done].
Qed.

Lemma cache_step_deliver h p st : cache_step st (deliver h p st).
Proof.
  unfold deliver. destruct (streams st !! h) as [s|]; [|apply cache_step_refl].
  destruct (promises st !! p) as [[r|]|]; [|apply cache_step_refl..].
  destruct (phase s) as [| |inners]; [apply cache_step_refl| |].
  - case_bool_decide; [|apply cache_step_refl]. destruct r as [rm|err].
    + eapply cache_step_trans; [apply (cache_step_emit h s (mkSnapshot Initial rm))|].
      apply cache_step_same; cbn; by rewrite ?length_alter.
    + apply cache_step_fail.
  - case_bool_decide; [|apply cache_step_refl]. destruct r as [rm|err].
    + eapply cache_step_trans; [|apply cache_step_emit].
      apply cache_step_same; cbn; by rewrite ?length_alter.
    + apply cache_step_fail.
Qed.

Lemma cache_step_on_updated ev h st : cache_step st (on_updated ev st h).
Proof.
  unfold on_updated. destruct (streams st !! h) as [s|]; [|apply cache_step_refl].
  destruct (phase s) as [| |inners]; [apply cache_step_refl..|].
  destruct (data ev) as [i|]; [|apply cache_step_fail].
  case_bool_decide; [|apply cache_step_refl].
  apply cache_step_same; cbn; by rewrite ?length_alter.
Qed.

Lemma cache_step_trigger_updated ev st : cache_step st (trigger_updated ev st).
Proof.
  unfold trigger_updated. generalize (updated_listeners st) as l.
  intros l. revert st. induction l as [|h l IH]; intros st; [apply cache_step_refl|].
  cbn. eapply cache_step_trans; [apply cache_step_on_updated|apply IH].
Qed.

Lemma cache_step_activity st st' : activity_step st st' → cache_step st st'.
Proof. intros (Hs & Hgr & _). apply cache_step_same; [by rewrite Hs|done]. Qed.

Lemma cache_step_step deconstructHydraId st a :
  cache_step st (step deconstructHydraId st a).
Proof.
  destruct a as [K|h|h o|p o|h p|ev|K|c|c o|a]; cbn [step].
  - apply cache_step_getRoom.
  - apply cache_step_subscribe.
  - apply cache_step_unsubscribe.
  - unfold settle. destruct (promises st !! p) as [[r|]|]; try apply cache_step_refl.
    by apply cache_step_same.
  - apply cache_step_deliver.
  - apply cache_step_trigger_updated.
  - apply cache_step_activity, activity_step_getRoomActivities.
  - apply cache_step_activity, activity_step_subscribe.
  - apply cache_step_activity, activity_step_unsubscribe.
  - apply cache_step_activity. apply (mercury_activity_step deconstructHydraId a st).
Qed.

Lemma cache_step_run deconstructHydraId acts : ∀ st,
  cache_step st (run deconstructHydraId acts st).
Proof.
  induction acts as [|a acts IH]; intros st; [apply cache_step_refl|].
  cbn. eapply cache_step_trans; [apply cache_step_step|apply IH].
Qed.

Section Eviction.
Variable deconstructHydraId : string → string.

(** X17: an observable that left the cache never comes back.  When [h] is
    an observable that [getRoom] once made and no ID is cached for it, then
    after any further actions no ID is cached for it, so [getRoom] never
    returns it again, for any ID: later calls make new observables. *)
Theorem evicted_observable_is_never_cached_again st h acts :
  h < length (streams st) →
  (∀ K, getRoomObservables st !! K ≠ Some h) →
  let st' := run deconstructHydraId acts st in
  (∀ K, getRoomObservables st' !! K ≠ Some h) ∧
  ∀ K, fst (getRoom K st') ≠ VObservable h.
Proof.
  intros Hh Hout st'.
  destruct (cache_step_run deconstructHydraId acts st) as [Hlen Hc]. fold st' in Hlen, Hc.
  assert (Hout' : ∀ K, getRoomObservables st' !! K ≠ Some h).
  { intros K HK. destruct (Hc K h HK) as [H|H]; [by apply (Hout K)|lia]. }
  split; [done|]. intros K.
  destruct (js_in K (getRoomObservables st')) eqn:Hin.
  - unfold getRoom. rewrite Hin. cbn. unfold js_get.
    destruct (getRoomObservables st' !! K) as [h'|] eqn:HK.
    + intros [= ->]. by apply (Hout' K).
    + by destruct (bool_decide _).
  - pose proof (getRoom_miss K st' Hin) as H. cbn zeta in H.
    destruct H as (-> & _). intros [= H]. lia.
Qed.

End Eviction.

Lemma evicted_observable_is_never_cached_again_witness :
  let st := run (λ ID, ID)
              [GetRoom "room-1"; Subscribe 0; Unsubscribe 0 0] initial_state in
  fst (getRoom "room-1" (run (λ ID, ID) [Subscribe 0] st)) ≠ VObservable 0.
Proof.
  intros st.
  destruct (evicted_observable_is_never_cached_again (λ ID, ID) st 0 [Subscribe 0])
    as [_ H].
  - vm_compute. lia.
  - intros K. assert (Hst : getRoomObservables st = ∅) by by vm_compute.
    rewrite Hst. by rewrite lookup_empty.
  - exact (H "room-1").
Defined.

(** ** The two sides of the adapter *)

Section TwoSides.
Variable deconstructHydraId : string → string.

(** X18: the room side and the activity side do not touch each other.  An
    action of the activity side ([getRoomActivities], a subscription or an
    unsubscription of a channel, a mercury activity) leaves the room streams,
    their cache, the handlers on [updated], the listener count and the
    promises as they are and adds only events of the activity side to the
    trace; every other action leaves the channels, their cache and the
    mercury handlers as they are and adds no event of the activity side. *)
Theorem room_and_activity_sides_are_independent st a :
  let st' := step deconstructHydraId st a in
  if is_activity_action a then
    streams st' = streams st ∧
    getRoomObservables st' = getRoomObservables st ∧
    updated_listeners st' = updated_listeners st ∧
    listenerCount st' = listenerCount st ∧
    promises st' = promises st ∧
    List.filter (λ e, negb (is_activity_event e)) (trace st')
    = List.filter (λ e, negb (is_activity_event e)) (trace st)
  else
    channels st' = channels st ∧
    getRoomActivitiesCache st' = getRoomActivitiesCache st ∧
    activity_listeners st' = activity_listeners st ∧
    List.filter is_activity_event (trace st') = List.filter is_activity_event (trace st).
Proof.
  intros st'.
  assert (Hact : activity_step st st' →
            streams st' = streams st ∧
            getRoomObservables st' = getRoomObservables st ∧
            updated_listeners st' = updated_listeners st ∧
            listenerCount st' = listenerCount st ∧
            promises st' = promises st ∧
            List.filter (λ e, negb (is_activity_event e)) (trace st')
            = List.filter (λ e, negb (is_activity_event e)) (trace st)).
  { intros (H1 & H2 & H3 & H4 & H5 & _ & pre & Htr & Hpre). repeat (split; [done|]).
    rewrite Htr. apply filter_events_pre.
    eapply Forall_impl; [exact Hpre|]. by intros []. }
  assert (Hroom : channels_kept st st' →
            List.filter is_activity_event (trace st') = List.filter is_activity_event (trace st) →
            channels st' = channels st ∧
            getRoomActivitiesCache st' = getRoomActivitiesCache st ∧
            activity_listeners st' = activity_listeners st ∧
            List.filter is_activity_event (trace st') = List.filter is_activity_event (trace st)).
  { by intros (H1 & H2 & H3) H4. }
  subst st'. destruct a as [K|h|h o|p o|h p|ev|K|c|c o|a]; cbn [step is_activity_action].
  - apply Hroom; [apply channels_kept_getRoom|by apply silent_getRoom].
  - apply Hroom; [apply channels_kept_subscribe|by apply silent_subscribe].
  - apply Hroom; [apply channels_kept_unsubscribe|by apply silent_unsubscribe].
  - apply Hroom; [apply channels_kept_settle|by apply silent_settle].
  - apply Hroom; [apply channels_kept_deliver|by apply silent_deliver].
  - apply Hroom; [apply channels_kept_trigger_updated|by apply silent_trigger_updated].
  - apply Hact, activity_step_getRoomActivities.
  - apply Hact, activity_step_subscribe.
  - apply Hact, activity_step_unsubscribe.
  - apply Hact. apply (mercury_activity_step deconstructHydraId a st).
Qed.

End TwoSides.

(** ** A new channel *)

(** X19: [getRoomActivities] on an ID that is not cached creates a channel
    that holds the initial [{}], registers its handler on mercury, and
    touches nothing of the room side; the first subscription to the channel
    is handed [{}] at once. *)
Theorem new_channel_starts_empty K st :
  js_in K (getRoomActivitiesCache st) = false →
  let c := length (channels st) in
  let st1 := snd (getRoomActivities K st) in
  fst (getRoomActivities K st) = VObservable c ∧
  trace st1 = CallMercuryOn c :: trace st ∧
  activity_listeners st1 = activity_listeners st ++ [c] ∧
  listenerCount st1 = listenerCount st ∧
  streams st1 = streams st ∧
  trace (subscribe_activities c st1)
  = ActivityNotified c (next_subscription st) EmptyObject :: trace st1.
Proof.
  intros Hin c st1. subst st1. unfold getRoomActivities. rewrite Hin. cbn.
  unfold js_get. rewrite lookup_insert_eq. repeat (split; [done|]).
  unfold subscribe_activities. cbn [channels set_getRoomActivitiesCache
    set_activity_listeners log set_trace set_channels].
  subst c. by rewrite lookup_new_stream.
Qed.

Lemma new_channel_starts_empty_witness :
  trace (subscribe_activities 0 (snd (getRoomActivities "room-1" initial_state)))
  = [ActivityNotified 0 0 EmptyObject; CallMercuryOn 0].
Proof.
  destruct (new_channel_starts_empty "room-1" initial_state) as (_ & H1 & _ & _ & _ & H2).
  - by vm_compute.
  - etransitivity; [exact H2|]. by rewrite H1.
Defined.

(** ** The adapter over the mock SDK *)

(** What [deliver] does: nothing, the emission of a fulfilled fetch that the
    stream awaits, or the failure of the stream. *)
Lemma deliver_cases h p st :
  deliver h p st = st ∨
  (∃ s rm, streams st !! h = Some s ∧ awaits s p ∧
           promises st !! p = Some (Some (Fulfilled rm))) ∨
  (∃ s err, streams st !! h = Some s ∧
            promises st !! p = Some (Some (Rejected err)) ∧
            deliver h p st = fail h s err st).
Proof.
  unfold deliver. destruct (streams st !! h) as [s|] eqn:Hs; [|by left].
  destruct (promises st !! p) as [[r|]|] eqn:Hp; [|by left..].
  unfold awaits. destruct (phase s) as [| |inners] eqn:Hph; [by left| |].
  - case_bool_decide; [|by left]. destruct r as [rm|err]; right.
    + left. exists s, rm. by rewrite Hph.
    + right. by exists s, err.
  - case_bool_decide; [|by left]. destruct r as [rm|err]; right.
    + left. exists s, rm. by rewrite Hph.
    + right. by exists s, err.
Qed.

Lemma mock_event_notify_error h os err :
  Forall mock_event (rev (map (λ o, Notified h o (Error err)) os)).
Proof. apply Forall_rev, Forall_map, Forall_forall. done. Qed.

Lemma mock_event_release st : Forall mock_event (release_events st).
Proof. unfold release_events. destruct (bool_decide _); by repeat constructor. Qed.

(** How the invariant is carried: streams keep their buffer or take the
    mock room, promises keep their value or take the mock room, and the new
    events carry no other room. *)
Lemma mock_inv_intro st st' pre :
  mock_inv st →
  (∀ h s', streams st' !! h = Some s' →
     replay s' = None ∨ (∃ v, replay s' = Some v ∧ room v = mock_room) ∨
     ∃ s, streams st !! h = Some s ∧ replay s' = replay s) →
  (∀ p r, promises st' !! p = Some (Some r) →
     r = Fulfilled mock_room ∨ promises st !! p = Some (Some r)) →
  trace st' = pre ++ trace st →
  Forall mock_event pre →
  mock_inv st'.
Proof.
  intros (H1 & H2 & H3) Hs Hp Htr Hpre. split; [|split].
  - intros h s' v Hs' Hv. destruct (Hs h s' Hs') as [Hn|[(v' & Hv' & Hr)|(s & Hss & Hr)]].
    + congruence.
    + congruence.
    + apply (H1 h s v Hss). congruence.
  - intros p r Hr. destruct (Hp p r Hr) as [->|Hr']; [done|]. by apply (H2 p).
  - rewrite Htr. by apply Forall_app.
Qed.

Lemma replay_alter (f : Stream → Stream) h (l : list Stream) :
  (∀ s, l !! h = Some s →
        replay (f s) = replay s ∨ ∃ v, replay (f s) = Some v ∧ room v = mock_room) →
  ∀ h' s', alter f h l !! h' = Some s' →
    replay s' = None ∨ (∃ v, replay s' = Some v ∧ room v = mock_room) ∨
    ∃ s, l !! h' = Some s ∧ replay s' = replay s.
Proof.
  intros Hf h' s' Hs'. destruct (decide (h' = h)) as [->|Hne].
  - rewrite list_lookup_alter_eq in Hs'. destruct (l !! h) as [s|] eqn:Hs; [|done].
    injection Hs' as <-. destruct (Hf s eq_refl) as [Hr|Hr].
    + right. right. by exists s.
    + right. by left.
  - rewrite list_lookup_alter_ne in Hs' by done. right. right. by exists s'.
Qed.

Lemma replay_same (l : list Stream) :
  ∀ h' s', l !! h' = Some s' →
    replay s' = None ∨ (∃ v, replay s' = Some v ∧ room v = mock_room) ∨
    ∃ s, l !! h' = Some s ∧ replay s' = replay s.
Proof. intros h' s' Hs'. right. right. by exists s'. Qed.

Lemma promises_same (l : list (option Settled)) :
  ∀ p r, l !! p = Some (Some r) → r = Fulfilled mock_room ∨ l !! p = Some (Some r).
Proof. intros p r Hr. by right. Qed.

Lemma mock_inv_getRoom K st : mock_inv st → mock_inv (snd (getRoom K st)).
Proof.
  intros Hinv. destruct (js_in K (getRoomObservables st)) eqn:Hin.
  { unfold getRoom. by rewrite Hin. }
  pose proof (getRoom_miss K st Hin) as H. cbn zeta in H.
  destruct H as (_ & _ & Hs & Hp & _ & _ & Htr).
  apply (mock_inv_intro st _
           (CallRoomsGet K :: (if bool_decide (listenerCount st = 0%Z)
                               then [CallRoomsListen] else []) ++ [GateAcquire])); try done.
  - rewrite Hs. intros h s' [Hs'|[_ Hs']]%lookup_app_Some.
    + right. right. by exists s'.
    + left. by apply list_lookup_singleton_Some in Hs' as [_ <-].
  - rewrite Hp. intros p r [Hr|[_ Hr]]%lookup_app_Some; [by right|].
    by apply list_lookup_singleton_Some in Hr as [_ ?].
  - rewrite Htr. cbn. by rewrite <-app_assoc.
  - destruct (bool_decide _); by repeat constructor.
Qed.

Lemma mock_inv_subscribe h st : mock_inv st → mock_inv (subscribe h st).
Proof.
  intros Hinv. unfold subscribe. destruct (streams st !! h) as [s|] eqn:Hs; [|done].
  assert (Hrep : ∀ v, replay s = Some v → room v = mock_room)
    by (intros v; by apply (proj1 Hinv h s v)).
  destruct (thrown s) as [err|], (replay s) as [v|].
  - apply (mock_inv_intro st _ [Notified h (next_subscription st) (Error err);
                                Notified h (next_subscription st) (Next v)]);
      [done|apply replay_same|apply promises_same|done|].
    repeat constructor. by apply Hrep.
  - by apply (mock_inv_intro st _ [Notified h (next_subscription st) (Error err)]);
      [done|apply replay_same|apply promises_same|done|repeat constructor].
  - apply (mock_inv_intro st _ [Notified h (next_subscription st) (Next v)]);
      [done| |apply promises_same|done|].
    + apply replay_alter. intros s0 _. by left.
    + repeat constructor. by apply Hrep.
  - apply (mock_inv_intro st _ []); [done| |apply promises_same|done|constructor].
    apply replay_alter. intros s0 _. by left.
Qed.

Lemma mock_inv_teardown h s st : mock_inv st → mock_inv (teardown h s st).
Proof.
  intros Hinv.
  destruct (teardown_fields h s st) as (Hs & _ & _ & _ & Htr & _ & Hp & _).
  apply (mock_inv_intro st _ (release_events st)); try done.
  - rewrite Hs. apply replay_alter. intros s0 _. by left.
  - rewrite Hp. apply promises_same.
  - apply mock_event_release.
Qed.

Lemma mock_inv_unsubscribe h o st : mock_inv st → mock_inv (unsubscribe h o st).
Proof.
  intros Hinv. unfold unsubscribe. destruct (streams st !! h) as [s|]; [|done].
  case_bool_decide; [|done].
  assert (H1 : mock_inv
                 (update_stream h (set_observers (filter (λ o', o' ≠ o) (observers s))) st)).
  { apply (mock_inv_intro st _ []); [done| |apply promises_same|done|constructor].
    apply replay_alter. intros s0 _. by left. }
  destruct (filter _ _); [|done].
  destruct (phase s); [done|..]; by apply mock_inv_teardown.
Qed.

Lemma mock_inv_fail h s err st : mock_inv st → mock_inv (fail h s err st).
Proof.
  intros Hinv.
  destruct (fail_fields h s err st) as (Hs & _ & _ & _ & Htr & _ & Hp & _).
  eapply (mock_inv_intro st); [done| | |exact Htr|].
  - rewrite Hs. apply replay_alter. intros s0 _. by left.
  - rewrite Hp. apply promises_same.
  - apply Forall_app. split; [apply mock_event_notify_error|apply mock_event_release].
Qed.

Lemma mock_inv_settle p ID st : mock_inv st → mock_inv (settle p (mock_rooms_get ID) st).
Proof.
  intros Hinv. unfold settle. destruct (promises st !! p) as [[r|]|] eqn:Hp; try done.
  apply (mock_inv_intro st _ []); [done|apply replay_same| |done|constructor].
  cbn. intros q r [[_ [Hr _]]|[_ Hr]]%list_lookup_insert_Some; [|by right].
  left. by injection Hr as <-.
Qed.

Lemma mock_inv_deliver h p st : mock_inv st → mock_inv (deliver h p st).
Proof.
  intros Hinv.
  destruct (deliver_cases h p st) as [->|[(s & rm & Hs & Haw & Hp)|(s & err & _ & _ & ->)]];
    [done| |by apply mock_inv_fail].
  assert (rm = mock_room) as ->.
  { destruct Hinv as (_ & H2 & _). specialize (H2 p _ Hp). congruence. }
  pose proof (deliver_fulfilled_fields h s p mock_room st Hs Haw Hp) as H. cbn zeta in H.
  destruct H as (Hs' & Hoth & Htr & _ & _ & Hpr & _).
  eapply (mock_inv_intro st); [done| | |exact Htr|].
  - intros h' s'. destruct (decide (h' = h)) as [->|Hne].
    + rewrite Hs'. intros [= <-]. right. left. eexists. split; [done|].
      by destruct (phase s).
    + rewrite Hoth by done. apply replay_same.
  - rewrite Hpr. apply promises_same.
  - apply Forall_app. split.
    + apply Forall_rev, Forall_map, Forall_forall. intros o _. cbn. by destruct (phase s).
    + repeat constructor. cbn. by destruct (phase s).
Qed.

Lemma mock_inv_on_updated ev h st : mock_inv st → mock_inv (on_updated ev st h).
Proof.
  intros Hinv. unfold on_updated. destruct (streams st !! h) as [s|]; [|done].
  destruct (phase s) as [| |inners]; [done..|].
  destruct (data ev) as [i|]; [|by apply mock_inv_fail].
  case_bool_decide; [|done].
  apply (mock_inv_intro st _ [CallRoomsGet (stream_ID s)]); [done| | |done|by repeat constructor].
  - apply replay_alter. intros s0 _. by left.
  - cbn. intros p r [Hr|[_ Hr]]%lookup_app_Some; [by right|].
    by apply list_lookup_singleton_Some in Hr as [_ ?].
Qed.

Lemma mock_inv_trigger_updated ev st : mock_inv st → mock_inv (trigger_updated ev st).
Proof.
  unfold trigger_updated. generalize (updated_listeners st) as l.
  intros l. revert st. induction l as [|h l IH]; intros st Hok; [done|].
  cbn. by apply IH, mock_inv_on_updated.
Qed.

Lemma mock_inv_activity st st' : activity_step st st' → mock_inv st → mock_inv st'.
Proof.
  intros (Hs & _ & _ & _ & Hp & _ & pre & Htr & Hpre) Hinv.
  apply (mock_inv_intro st st' pre); try done.
  - rewrite Hs. apply replay_same.
  - rewrite Hp. apply promises_same.
  - eapply Forall_impl; [exact Hpre|]. by intros [].
Qed.

Section MockSDK.
Variable deconstructHydraId : string → string.

Lemma mock_inv_step st a :
  mock_action a → mock_inv st → mock_inv (step deconstructHydraId st a).
Proof.
  intros Ha Hinv.
  destruct a as [K|h|h o|p o|h p|ev|K|c|c o|a]; cbn [step].
  - by apply mock_inv_getRoom.
  - by apply mock_inv_subscribe.
  - by apply mock_inv_unsubscribe.
  - destruct Ha as (ID & ->). by apply mock_inv_settle.
  - by apply mock_inv_deliver.
  - by apply mock_inv_trigger_updated.
  - eapply mock_inv_activity; [apply activity_step_getRoomActivities|done].
  - eapply mock_inv_activity; [apply activity_step_subscribe|done].
  - eapply mock_inv_activity; [apply activity_step_unsubscribe|done].
  - eapply mock_inv_activity; [|done]. apply (mercury_activity_step deconstructHydraId a st).
Qed.

Lemma mock_inv_run acts : ∀ st,
  Forall mock_action acts → mock_inv st → mock_inv (run deconstructHydraId acts st).
Proof.
  induction acts as [|a acts IH]; intros st Hacts Hst; [done|].
  apply Forall_cons in Hacts as [Ha Hacts]. cbn. by apply IH, mock_inv_step.
Qed.

(** X20: the adapter over the mock SDK.  When every promise of [rooms.get]
    settles the way [createMockSDK().rooms.get] settles it, every snapshot
    that any subscription of any room observable ever receives is
    [{ID: 'abc', title: 'mock room', type: 'group'}], whatever ID was asked
    for: the mock ignores the ID it is given. *)
Theorem mock_sdk_delivers_the_mock_room acts :
  Forall mock_action acts →
  let st := run deconstructHydraId acts initial_state in
  ∀ h o v, v ∈ received h o (trace st) →
           room v = mkRoom "abc" "mock room" "group".
Proof.
  intros Hacts st h o v Hv.
  assert (H0 : mock_inv initial_state).
  { split; [|split]; [| |constructor].
    - intros h' s' v' Hs'. cbn in Hs'. by rewrite lookup_nil in Hs'.
    - intros p r Hr. cbn in Hr. by rewrite lookup_nil in Hr. }
  destruct (mock_inv_run acts _ Hacts H0) as (_ & _ & Htr). fold st in Htr.
  unfold received in Hv. apply list_elem_of_In, in_rev, list_elem_of_In in Hv.
  unfold received_rev in Hv. apply list_elem_of_omap in Hv as (e & He & Hev).
  apply (proj1 (Forall_forall _ _) Htr) in He.
  destruct e as [| | | | | | |h0 o0 [v0|err]| |]; try done. cbn in Hev.
  case_bool_decide; [|done]. by injection Hev as <-.
Qed.

End MockSDK.

Lemma mock_sdk_delivers_the_mock_room_witness :
  let st := run (λ ID, ID)
              [GetRoom "xyz"; Subscribe 0; Settle 0 (mock_rooms_get "xyz"); Deliver 0 0]
              initial_state in
  received 0 0 (trace st) = [mkSnapshot Initial (mkRoom "abc" "mock room" "group")] ∧
  ∀ v, v ∈ received 0 0 (trace st) → room v = mkRoom "abc" "mock room" "group".
Proof.
  intros st. split; [by vm_compute|].
  apply (mock_sdk_delivers_the_mock_room (λ ID, ID)
           [GetRoom "xyz"; Subscribe 0; Settle 0 (mock_rooms_get "xyz"); Deliver 0 0]).
  repeat constructor. by exists "xyz".
Defined.

(** ** An [updated] event without data *)

Lemma on_updated_nodata h s st :
  streams st !! h = Some s → is_listening (phase s) = true →
  on_updated (mkUpdateEvent None) st h = fail h s "TypeError" st.
Proof. intros Hs Hph. unfold on_updated. rewrite Hs. by destruct (phase s). Qed.

Lemma foldl_on_updated_nodata l :
  NoDup l → ∀ st,
  (∀ h, h ∈ l → ∃ s, streams st !! h = Some s ∧ is_listening (phase s) = true) →
  let st' := foldl (on_updated (mkUpdateEvent None)) st l in
  (∀ h s, h ∈ l → streams st !! h = Some s →
          streams st' !! h = Some (failed "TypeError" s)) ∧
  (∀ h, h ∉ l → streams st' !! h = streams st !! h) ∧
  (∀ h, h ∈ updated_listeners st' ↔ h ∈ updated_listeners st ∧ h ∉ l) ∧
  listenerCount st' = (listenerCount st - Z.of_nat (length l))%Z ∧
  promises st' = promises st ∧
  (∀ K x, getRoomObservables st' !! K = Some x → getRoomObservables st !! K = Some x) ∧
  (∀ h s, h ∈ l → streams st !! h = Some s →
          getRoomObservables st' !! stream_ID s = None) ∧
  ∃ pre, trace st' = pre ++ trace st ∧
         Forall (λ e, is_fetch e = false) pre ∧
         ∀ h s o, h ∈ l → streams st !! h = Some s → o ∈ observers s →
                  Notified h o (Error "TypeError") ∈ pre.
Proof.
  induction 1 as [|h l Hh Hnd IH]; intros st Hall st'.
  - subst st'. cbn. split; [by intros h s H%elem_of_nil|]. split; [done|].
    split; [intros h; split; [by intros ?; split; [|apply not_elem_of_nil]|by intros []]|].
    split; [lia|]. split; [done|]. split; [done|].
    split; [by intros h s H%elem_of_nil|]. exists []. split; [done|].
    split; [constructor|]. by intros h s o H%elem_of_nil.
  - destruct (Hall h) as (s & Hs & Hph); [apply list_elem_of_here|].
    subst st'. cbn [foldl]. rewrite (on_updated_nodata h s st Hs Hph).
    destruct (fail_fields h s "TypeError" st)
      as (Hst1 & Hgr1 & Hul1 & _ & Htr1 & Hlc1 & Hp1 & _).
    set (st1 := fail h s "TypeError" st) in *.
    assert (Hother : ∀ h', h' ≠ h → streams st1 !! h' = streams st !! h')
      by (intros h' Hne; by rewrite Hst1, list_lookup_alter_ne).
    assert (Hall1 : ∀ h', h' ∈ l →
              ∃ s', streams st1 !! h' = Some s' ∧ is_listening (phase s') = true).
    { intros h' Hin. assert (h' ≠ h) by (intros ->; done).
      rewrite Hother by done. apply Hall. by apply list_elem_of_further. }
    destruct (IH st1 Hall1) as (Hs' & Hkeep & Hul & Hlc & Hp & Hsub & Hev & pre & Htr & Hnf & Hnot).
    set (st' := foldl (on_updated (mkUpdateEvent None)) st1 l) in *.
    assert (Hhead : streams st' !! h = Some (failed "TypeError" s)).
    { rewrite Hkeep by done. by rewrite Hst1, list_lookup_alter_eq, Hs. }
    split; [|split; [|split; [|split; [|split; [|split; [|split]]]]]].
    + intros h' s' [->|Hin]%elem_of_cons Hs0.
      * assert (s' = s) as -> by congruence. done.
      * assert (h' ≠ h) by (intros ->; done). apply Hs'; [done|]. by rewrite Hother.
    + intros h' [Hne Hnin]%not_elem_of_cons. rewrite Hkeep by done. by apply Hother.
    + intros h'. rewrite Hul, Hul1, list_elem_of_filter, not_elem_of_cons. naive_solver.
    + rewrite Hlc, Hlc1. cbn [length]. lia.
    + by rewrite Hp, Hp1.
    + intros K x HK. apply Hsub in HK. rewrite Hgr1 in HK.
      by apply lookup_delete_Some in HK as [_ HK].
    + intros h' s' [->|Hin]%elem_of_cons Hs0.
      * assert (s' = s) as -> by congruence.
        destruct (getRoomObservables st' !! stream_ID s) as [x|] eqn:HK; [|done].
        apply Hsub in HK. rewrite Hgr1 in HK. by rewrite lookup_delete_eq in HK.
      * assert (h' ≠ h) by (intros ->; done). apply (Hev h'); [done|]. by rewrite Hother.
    + eexists. split; [by rewrite Htr, Htr1, app_assoc|]. split.
      * apply Forall_app. split; [done|]. apply Forall_app. split.
        -- apply Forall_rev, Forall_map, Forall_forall. done.
        -- unfold release_events. destruct (bool_decide _); by repeat constructor.
      * intros h' s' o [->|Hin]%elem_of_cons Hs0 Ho.
        -- assert (s' = s) as -> by congruence.
           apply elem_of_app. right. apply elem_of_app. left. by apply notify_elem.
        -- assert (h' ≠ h) by (intros ->; done). apply elem_of_app. left.
           apply (Hnot h' s' o); [done| |done]. by rewrite Hother.
Qed.

Section UpdateWithoutData.
Variable deconstructHydraId : string → string.

(** X21: an [updated] event that has no [data] errors every stream that is
    subscribed to [roomUpdate$], whatever room it is for: reading
    [event.data.id] throws in the predicate of [filter].  Each of these
    streams is torn down and its subject stopped with the [TypeError], each
    of their subscriptions is notified with the error, their IDs leave the
    cache, the listener count drops by their number and no handler on
    [updated] is left.  The streams that are not subscribed to
    [roomUpdate$] are untouched, and nothing is fetched. *)
Theorem update_without_data_errors_every_listening_stream acts :
  let st := run deconstructHydraId acts initial_state in
  let st' := step deconstructHydraId st (RoomUpdated (mkUpdateEvent None)) in
  updated_listeners st' = [] ∧
  listenerCount st' = (listenerCount st - Z.of_nat (length (updated_listeners st)))%Z ∧
  count_events is_fetch (trace st') = count_events is_fetch (trace st) ∧
  ∀ h s, streams st !! h = Some s →
    if is_listening (phase s) then
      streams st' !! h = Some (failed "TypeError" s) ∧
      getRoomObservables st' !! stream_ID s = None ∧
      ∀ o, o ∈ observers s → Notified h o (Error "TypeError") ∈ trace st'
    else streams st' !! h = Some s.
Proof.
  intros st st'.
  pose proof (wf_run deconstructHydraId acts _ wf_initial) as [[_ _ Hl _ _ _] _ _].
  destruct (registered_run deconstructHydraId acts _ wf_initial registered_initial)
    as [Hnd Hreg].
  fold st in Hl, Hnd, Hreg.
  destruct (foldl_on_updated_nodata (updated_listeners st) Hnd st Hl)
    as (Hs' & Hkeep & Hul & Hlc & _ & _ & Hev & pre & Htr & Hnf & Hnot).
  change (foldl (on_updated (mkUpdateEvent None)) st (updated_listeners st)) with st'
    in Hs', Hkeep, Hul, Hlc, Hev, Htr.
  split; [|split; [done|split]].
  - destruct (updated_listeners st') as [|x l] eqn:Hx; [done|].
    assert (Hin : x ∈ x :: l) by apply list_elem_of_here.
    apply Hul in Hin as [Hin Hnin]. done.
  - unfold count_events. f_equal. rewrite Htr. by apply filter_events_pre.
  - intros h s Hs. destruct (is_listening (phase s)) eqn:Hph.
    + assert (Hin : h ∈ updated_listeners st) by by apply (Hreg h s).
      split; [by apply Hs'|]. split; [by apply (Hev h)|].
      intros o Ho. rewrite Htr. apply elem_of_app. left. by apply (Hnot h s).
    + rewrite Hkeep; [done|]. intros Hin. destruct (Hl h Hin) as (s0 & Hs0 & Hph0).
      congruence.
Qed.

End UpdateWithoutData.

(** ** A matching activity without object or actor *)

Section IncompleteActivity.
Variable deconstructHydraId : string → string.
Variable a : SDKActivity.
Variable UUID : string.
Hypothesis a_target : act_target a = Some (Some UUID).
Hypothesis a_incomplete : act_object a = None ∨ act_actor a = None.

Lemma on_activity_incomplete c ch st :
  channels st !! c = Some ch →
  deconstructHydraId (channel_ID ch) = UUID →
  on_activity deconstructHydraId a c st = Threw "TypeError" st.
Proof.
  intros Hch HID. unfold on_activity. rewrite Hch, a_target, HID.
  rewrite bool_decide_eq_true_2 by done.
  destruct a_incomplete as [-> | ->]; [done|]. by destruct (act_object a).
Qed.

Lemma dispatch_activity_incomplete cs st :
  ((∃ c ch, c ∈ cs ∧ channels st !! c = Some ch ∧
            deconstructHydraId (channel_ID ch) = UUID) →
   dispatch_activity deconstructHydraId a cs st = Threw "TypeError" st) ∧
  ((∀ c ch, c ∈ cs → channels st !! c = Some ch →
            deconstructHydraId (channel_ID ch) ≠ UUID) →
   dispatch_activity deconstructHydraId a cs st = Returned st).
Proof.
  induction cs as [|c cs [IH1 IH2]].
  - split; [by intros (c & ch & H%elem_of_nil & _)|done].
  - cbn [dispatch_activity].
    destruct (channels st !! c) as [ch|] eqn:Hch.
    + destruct (decide (deconstructHydraId (channel_ID ch) = UUID)) as [HID|HID].
      * rewrite (on_activity_incomplete c ch st Hch HID). split; [done|].
        intros Hno. exfalso. apply (Hno c ch); [apply list_elem_of_here|done..].
      * rewrite (on_activity_mismatch deconstructHydraId a c ch st Hch)
          by (rewrite a_target; congruence).
        split.
        -- intros (c0 & ch0 & [->|Hin]%elem_of_cons & Hch0 & HID0); [congruence|].
           apply IH1. by exists c0, ch0.
        -- intros Hno. apply IH2. intros c0 ch0 Hin. apply Hno. by apply list_elem_of_further.
    + assert (Hr : on_activity deconstructHydraId a c st = Returned st)
        by (unfold on_activity; by rewrite Hch).
      rewrite Hr. split.
      * intros (c0 & ch0 & [->|Hin]%elem_of_cons & Hch0 & HID0); [congruence|].
        apply IH1. by exists c0, ch0.
      * intros Hno. apply IH2. intros c0 ch0 Hin. apply Hno. by apply list_elem_of_further.
Qed.

End IncompleteActivity.

Section IncompleteActivityEvent.
Variable deconstructHydraId : string → string.

(** X22: a mercury activity that names a room but lacks [object] or
    [actor].  When some channel is for that room, the handler of the first
    such channel throws while building the activity object: the exception
    leaves the handler, no channel changes and no subscription is notified.
    When no channel is for that room, the event is dropped and nothing
    changes at all. *)
Theorem incomplete_activity_throws acts a UUID :
  let st := run deconstructHydraId acts initial_state in
  act_target a = Some (Some UUID) →
  act_object a = None ∨ act_actor a = None →
  let st' := step deconstructHydraId st (MercuryActivity a) in
  ((∃ c ch, channels st !! c = Some ch ∧ deconstructHydraId (channel_ID ch) = UUID) →
   st' = log (Uncaught "TypeError") st) ∧
  ((∀ c ch, channels st !! c = Some ch → deconstructHydraId (channel_ID ch) ≠ UUID) →
   st' = st).
Proof.
  intros st Ht Hinc st'.
  destruct (handlers_inv_run deconstructHydraId acts _ handlers_inv_initial) as [Hl _].
  fold st in Hl.
  destruct (dispatch_activity_incomplete deconstructHydraId a UUID Ht Hinc
              (activity_listeners st) st) as [H1 H2].
  subst st'. cbn [step]. unfold trigger_activity. split.
  - intros (c & ch & Hch & HID). rewrite H1; [done|]. exists c, ch.
    split; [|done]. rewrite Hl. apply elem_of_seq. apply lookup_lt_Some in Hch. lia.
  - intros Hno. rewrite H2; [done|]. intros c ch _. apply Hno.
Qed.

End IncompleteActivityEvent.

Lemma incomplete_activity_throws_witness :
  let st := run (λ ID, ID)
              [GetRoomActivities "room-1"; SubscribeActivities 0] initial_state in
  let a := mkSDKActivity (Some "activity-1") (Some (Some "room-1")) None
             (Some (Some "person-1")) (Some "2020-01-01") in
  step (λ ID, ID) st (MercuryActivity a) = log (Uncaught "TypeError") st.
Proof.
  intros st a.
  destruct (incomplete_activity_throws (λ ID, ID)
              [GetRoomActivities "room-1"; SubscribeActivities 0] a "room-1"
              eq_refl (or_introl eq_refl)) as [H _].
  apply H. exists 0, (mkChannel "room-1" EmptyObject [0]). split; [by vm_compute|done].
Defined.
